(** * Audio feature pipeline of [src/audio.py]: a shallow embedding

    The numeric code of [audio.py] is embedded over the real numbers of the
    Standard Library: every tensor entry is an [R], so the statements below
    are about the exact arithmetic the code approximates in floating point.
    Tensors are nested lists in the axis order the code has.  Code that can
    raise returns a [result]; library transforms whose source is not part of
    the file (the short-time transform and its inverse, the complex angle)
    are explicit function arguments.

    Layout of the file:
    - [Py]              exceptions, the [result] type, list helpers
    - [FrequencyScale]  [hz_to_mel], [mel_to_hz]
    - [MelFilterbank]   [fft_frequencies], [mel_frequencies],
                        [create_mel_filterbank]
    - [Feature]         [ExtractAudioFeature]: forward path, dB stage,
                        normalisation, Griffin-Lim
    - [DeltaBank]       [Delta]: filter synthesis and application
    - [Cmvn]            [CMVN]
    followed by the theorems, one group per component. *)

From Stdlib Require Import String Reals Lra Lia ZArith Bool List.
Import ListNotations.

Local Open Scope R_scope.

(* ================================================================== *)
(** ** Exceptions and results *)
(* ================================================================== *)

Module Py.

(** The exceptions the modelled code can raise.  [NameError] carries the
    unbound global name: [audio.py] mentions [ParameterError] and
    [warnings] without importing either. *)
Inductive exn : Type :=
| NotImplementedError
| ValueError
| ZeroDivisionError
| IndexError
| RuntimeError
| NameError (name : string).

Inductive result (A : Type) : Type :=
| Ok (a : A)
| Raise (e : exn).

Arguments Ok {A} a.
Arguments Raise {A} e.

Definition bind {A B : Type} (r : result A) (k : A -> result B) : result B :=
  match r with
  | Ok a => k a
  | Raise e => Raise e
  end.

Definition is_ok {A : Type} (r : result A) : bool :=
  match r with Ok _ => true | Raise _ => false end.

(** [range(lo, hi)] over the integers. *)
Definition zrange (lo hi : Z) : list Z :=
  map (fun i => (lo + Z.of_nat i)%Z) (seq 0 (Z.to_nat (hi - lo))).

(** Sum of a list of reals, and the dot product of two rows. *)
Definition rsum (l : list R) : R := fold_right Rplus 0 l.

Definition dot (a b : list R) : R :=
  rsum (map (fun p => fst p * snd p) (combine a b)).

(** [torch.clamp(v, min=lo, max=hi)] and its one-sided form. *)
Definition clamp_min (v lo : R) : R := Rmax v lo.
Definition clamp (v lo hi : R) : R := Rmin (Rmax v lo) hi.

(** [int(r)]: truncation towards zero. *)
Definition py_int (r : R) : Z :=
  if Rle_dec 0 r then Int_part r else (- Int_part (- r))%Z.

End Py.

Import Py.

Notation "x <- r ;; k" := (Py.bind r (fun x => k))
  (at level 61, r at next level, right associativity).

(* ================================================================== *)
(** ** FrequencyScale: [hz_to_mel] and [mel_to_hz] *)
(* ================================================================== *)

Module FrequencyScale.

(** [np.log10] *)
Definition log10 (x : R) : R := ln x / ln 10.

(** [10.0 ** y] *)
Definition pow10 (y : R) : R := Rpower 10 y.

(** The constants both functions recompute locally. *)
Definition f_min : R := 0.
Definition f_sp : R := 200 / 3.
Definition min_log_hz : R := 1000.
Definition min_log_mel : R := (min_log_hz - f_min) / f_sp.
Definition logstep : R := ln 6.4 / 27.

(** The two pieces of the Slaney map, as the code writes them. *)
Definition hz_to_mel_linear (frequencies : R) : R :=
  (frequencies - f_min) / f_sp.

Definition hz_to_mel_log (frequencies : R) : R :=
  min_log_mel + ln (frequencies / min_log_hz) / logstep.

(** [hz_to_mel(frequencies, htk)] on a scalar. *)
Definition hz_to_mel (frequencies : R) (htk : bool) : R :=
  if htk then 2595 * log10 (1 + frequencies / 700)
  else
    let mels := hz_to_mel_linear frequencies in
    if Rle_dec min_log_hz frequencies
    then hz_to_mel_log frequencies
    else mels.

(** [mel_to_hz(mels, htk)] on a scalar. *)
Definition mel_to_hz (mels : R) (htk : bool) : R :=
  if htk then 700 * (pow10 (mels / 2595) - 1)
  else
    let freqs := f_min + f_sp * mels in
    if Rle_dec min_log_mel mels
    then min_log_hz * exp (logstep * (mels - min_log_mel))
    else freqs.

(** On arrays both functions act through a boolean mask
    ([mels[log_t] = ...]), which is the scalar function at every entry. *)
Definition hz_to_mel_array (frequencies : list R) (htk : bool) : list R :=
  map (fun f => hz_to_mel f htk) frequencies.

Definition mel_to_hz_array (mels : list R) (htk : bool) : list R :=
  map (fun m => mel_to_hz m htk) mels.

End FrequencyScale.

(* ================================================================== *)
(** ** MelFilterbank: [create_mel_filterbank] and its helpers *)
(* ================================================================== *)

Module MelFilterbank.

Import FrequencyScale.

(** [np.linspace(start, stop, num, endpoint=True)]: [num] samples
    [start + i * step] with [step = (stop - start) / (num - 1)], the last
    one overwritten by [stop]; a negative [num] is a [ValueError]. *)
Definition linspace (start stop : R) (num : Z) : result (list R) :=
  if (num <? 0)%Z then Raise ValueError
  else
    let n := Z.to_nat num in
    let div := (n - 1)%nat in
    let delta := stop - start in
    let y :=
      match div with
      | O => map (fun i => INR i * delta + start) (seq 0 n)
      | S _ => map (fun i => INR i * (delta / INR div) + start) (seq 0 n)
      end in
    Ok (if (1 <? n)%nat then removelast y ++ [stop] else y).

(** [fft_frequencies(sr, n_fft)] *)
Definition fft_frequencies (sr : R) (n_fft : Z) : result (list R) :=
  linspace 0 (sr / 2) (1 + n_fft / 2).

(** [mel_frequencies(n_mels, fmin, fmax, htk)]: a grid uniform in mel,
    returned in Hz. *)
Definition mel_frequencies (n_mels : Z) (fmin fmax : R) (htk : bool)
  : result (list R) :=
  let min_mel := hz_to_mel fmin htk in
  let max_mel := hz_to_mel fmax htk in
  mels <- linspace min_mel max_mel n_mels ;;
  Ok (mel_to_hz_array mels htk).

(** The [norm] argument: [None], a number, or [np.inf]. *)
Inductive norm_t : Type :=
| NormNone
| NormNum (r : R)
| NormInf.

Definition norm_is_one (norm : norm_t) : bool :=
  match norm with
  | NormNum r => if Req_dec_T r 1 then true else false
  | _ => false
  end.

(** [norm is not None and norm != 1 and norm != np.inf] *)
Definition norm_unsupported (norm : norm_t) : bool :=
  match norm with
  | NormNone => false
  | NormInf => false
  | NormNum r => if Req_dec_T r 1 then false else true
  end.

(** [np.zeros((rows, cols))] *)
Definition np_zeros (rows cols : Z) : result (list (list R)) :=
  if ((rows <? 0) || (cols <? 0))%Z then Raise ValueError
  else Ok (repeat (repeat 0 (Z.to_nat cols)) (Z.to_nat rows)).

(** [np.diff] *)
Fixpoint np_diff (l : list R) : list R :=
  match l with
  | a :: (b :: _) as t => (b - a) :: np_diff t
  | _ => []
  end.

(** [np.subtract.outer(a, b)] *)
Definition subtract_outer (a b : list R) : list (list R) :=
  map (fun x => map (fun y => x - y) b) a.

(** [w[i] = row] *)
Definition set_row (i : nat) (row : list R) (w : list (list R))
  : list (list R) :=
  match nth_error w i with
  | Some _ => firstn i w ++ row :: skipn (S i) w
  | None => w
  end.

(** The body of the loop over bands: the triangle of band [i] sampled at
    the FFT bin frequencies.  The two quotients are the code's values when
    neighbouring grid points differ ([fdiff] has no zero entry), which is
    the case for [fmin <> fmax]; with a zero width the code produces
    infinities and NaN, which [R] does not have, so statements about the
    values of the weights assume distinct grid points. *)
Definition band_row (fdiff : list R) (ramps : list (list R)) (i : nat)
  : list R :=
  let lower := map (fun r => - r / nth i fdiff 0) (nth i ramps []) in
  let upper := map (fun r => r / nth (i + 1) fdiff 0) (nth (i + 2) ramps []) in
  map (fun p => Rmax 0 (Rmin (fst p) (snd p))) (combine lower upper).

(** [for i in range(n_mels): weights[i] = ...] *)
Definition fill_rows (fdiff : list R) (ramps : list (list R)) (n_mels : nat)
  (weights : list (list R)) : list (list R) :=
  fold_left (fun w i => set_row i (band_row fdiff ramps i) w)
            (seq 0 n_mels) weights.

(** [enorm = 2.0 / (mel_f[2:n_mels+2] - mel_f[:n_mels])]; as for
    [band_row], the quotient is the code's value for bands of non-zero
    width. *)
Definition enorm (mel_f : list R) (n_mels : nat) : list R :=
  map (fun p => 2 / (fst p - snd p))
      (combine (firstn n_mels (skipn 2 mel_f)) (firstn n_mels mel_f)).

(** [weights *= enorm[:, np.newaxis]] *)
Definition scale_rows (weights : list (list R)) (en : list R)
  : list (list R) :=
  map (fun p => map (fun v => v * snd p) (fst p)) (combine weights en).

(** [weights.max(axis=1)]: a reduction over an axis of size zero is a
    [ValueError]. *)
Definition row_max (row : list R) : R :=
  match row with
  | [] => 0
  | x :: t => fold_left Rmax t x
  end.

Definition max_axis1 (cols : Z) (weights : list (list R)) : result (list R) :=
  if (cols =? 0)%Z then Raise ValueError
  else Ok (map row_max weights).

(** [np.all((mel_f[:-2] == 0) | (weights.max(axis=1) > 0))] *)
Definition no_empty_channel (mel_f rowmax : list R) : bool :=
  forallb (fun p =>
             (if Req_dec_T (fst p) 0 then true else false)
             || (if Rlt_dec 0 (snd p) then true else false))
          (combine (firstn (length mel_f - 2) mel_f) rowmax).

(** [create_mel_filterbank(sr, n_fft, n_mels, fmin, fmax, htk, norm)].
    The [dtype] argument (single precision) has no counterpart over [R].
    Both names the error paths mention are unbound in the module, so
    reaching either raises [NameError]. *)
Definition create_mel_filterbank (sr : R) (n_fft : Z) (n_mels : Z)
  (fmin : R) (fmax : option R) (htk : bool) (norm : norm_t)
  : result (list (list R)) :=
  let fmax := match fmax with None => sr / 2 | Some v => v end in
  if norm_unsupported norm then Raise (NameError "ParameterError")
  else
    let cols := (1 + n_fft / 2)%Z in
    weights <- np_zeros n_mels cols ;;
    fftfreqs <- fft_frequencies sr n_fft ;;
    mel_f <- mel_frequencies (n_mels + 2) fmin fmax htk ;;
    let fdiff := np_diff mel_f in
    let ramps := subtract_outer mel_f fftfreqs in
    let weights := fill_rows fdiff ramps (Z.to_nat n_mels) weights in
    let weights :=
      if norm_is_one norm
      then scale_rows weights (enorm mel_f (Z.to_nat n_mels))
      else weights in
    rowmax <- max_axis1 cols weights ;;
    if negb (no_empty_channel mel_f rowmax)
    then Raise (NameError "warnings")
    else Ok weights.

End MelFilterbank.

(* ================================================================== *)
(** ** ExtractAudioFeature *)
(* ================================================================== *)

Module Feature.

Import FrequencyScale MelFilterbank.

(** Module-level constants of [audio.py]. *)
Definition GRIFFIN_LIM_ITER : Z := 50.
Definition SAMPLE_RATE : R := 16000.

(** A complex entry is the trailing axis of size two, [(real, imag)]. *)
Definition complex : Type := (R * R)%type.
Definition wave : Type := list R.
Definition matrix : Type := list (list R).
Definition spectrum : Type := list (list complex).

(** The transforms [audio.py] calls but does not define.  The three
    integers are [n_fft], [hop_length] and [win_length]; the remaining
    keyword arguments are the constants the call sites write
    ([center=True], [pad_mode='reflect'], [normalized=False],
    [onesided=True], [window=None]).
    - [torch_stft]: [torch.stft]
    - [torch_istft]: [torchaudio.functional.istft]
    - [spectrogram_stft]: the short-time transform inside
      [torchaudio.transforms.Spectrogram]
    - [angle]: [torchaudio.functional.angle] *)
Record torch_lib : Type := {
  torch_stft : Z -> Z -> Z -> wave -> spectrum;
  torch_istft : Z -> Z -> Z -> spectrum -> wave;
  spectrogram_stft : Z -> Z -> Z -> wave -> spectrum;
  angle : complex -> R
}.

(** The fields [__init__] sets; [fb] is the buffer of [to_melspecgram]
    after the filterbank copied into it (FREQ x MEL), [power] the exponent
    [to_specgram] was built with. *)
Record ExtractAudioFeature : Type := {
  mode : string;
  sr : R;
  n_fft : Z;
  hop_length : Z;
  win_length : Z;
  power : nat;
  num_mel_bins : Z;
  ref_level_db : R;
  min_level_db : R;
  preemphasis_coeff : R;
  fb : matrix
}.

(** Elementwise maps over rank-2 and rank-3 tensors. *)
Definition tmap2 {A B : Type} (f : A -> B) (m : list (list A))
  : list (list B) := map (map f) m.

Definition tmap3 {A B : Type} (f : A -> B) (t : list (list (list A)))
  : list (list (list B)) := map (tmap2 f) t.

Definition zip2 {A B C : Type} (f : A -> B -> C) (a : list (list A))
  (b : list (list B)) : list (list C) :=
  map (fun p => map (fun q => f (fst q) (snd q)) (combine (fst p) (snd p)))
      (combine a b).

(** [m.T] for a matrix with [ncols] columns. *)
Definition transpose (ncols : nat) (m : matrix) : matrix :=
  map (fun j => map (fun row => nth j row 0) m) (seq 0 ncols).

Definition ncols (m : matrix) : nat := List.length (nth 0 m []).

(** [torch.matmul] of an (n x k) by a (k x m) matrix. *)
Definition matmul (a b : matrix) : matrix :=
  map (fun row => map (fun col => dot row col) (transpose (ncols b) b)) a.

(** [ExtractAudioFeature.__init__] *)
Definition init (mode : string) (num_mel_bins : Z)
  (frame_length frame_shift ref_level_db min_level_db preemphasis_coeff : R)
  (sample_rate : R) : result ExtractAudioFeature :=
  let n_fft := 1025%Z in
  let hop_length := py_int (frame_shift / 1000 * sample_rate) in
  let win_length := py_int (frame_length / 1000 * sample_rate) in
  weights <- create_mel_filterbank sample_rate n_fft num_mel_bins
               0 None false (NormNum 1) ;;
  let _mel_basis := transpose (Z.to_nat (1 + n_fft / 2)) weights in
  Ok {| mode := mode; sr := sample_rate; n_fft := n_fft;
        hop_length := hop_length; win_length := win_length;
        power := 2;
        num_mel_bins := num_mel_bins; ref_level_db := ref_level_db;
        min_level_db := min_level_db;
        preemphasis_coeff := preemphasis_coeff; fb := _mel_basis |}.

(** [torchaudio.functional.complex_norm]: the modulus raised to [power]. *)
Definition magnitude (z : complex) : R :=
  sqrt (fst z * fst z + snd z * snd z).

Definition complex_norm (z : complex) (power : nat) : R :=
  magnitude z ^ power.

(** [self.to_specgram(waveform)]: CH x FREQ x T. *)
Definition to_specgram (lib : torch_lib) (self : ExtractAudioFeature)
  (waveform : list wave) : list matrix :=
  map (fun ch =>
         tmap2 (fun z => complex_norm z (power self))
               (spectrogram_stft lib (n_fft self) (hop_length self)
                                 (win_length self) ch))
      waveform.

(** [self.to_melspecgram(specgram)]:
    [matmul(specgram.transpose(1, 2), fb).transpose(1, 2)]. *)
Definition to_melspecgram (self : ExtractAudioFeature)
  (specgram : list matrix) : result (list matrix) :=
  if forallb (fun ch => (List.length ch =? List.length (fb self))%nat) specgram
  then Ok (map (fun ch =>
                  transpose (ncols (fb self))
                            (matmul (transpose (ncols ch) ch) (fb self)))
               specgram)
  else Raise RuntimeError.

(** [_preemphasis] on one row of a B x T batch. *)
Definition preemphasis_row (c : R) (w : wave) : wave :=
  firstn 1 w
  ++ map (fun p => fst p - c * snd p) (combine (skipn 1 w) (removelast w)).

Definition _preemphasis (self : ExtractAudioFeature) (waveform : list wave)
  : list wave :=
  map (preemphasis_row (preemphasis_coeff self)) waveform.

(** [_inv_preemphasis]: [lfilter([1], [1, -c], wav)]. *)
Fixpoint lfilter_pole (c prev : R) (wav : wave) : wave :=
  match wav with
  | [] => []
  | x :: t => let y := x + c * prev in y :: lfilter_pole c y t
  end.

Definition _inv_preemphasis (self : ExtractAudioFeature) (wav : wave) : wave :=
  lfilter_pole (preemphasis_coeff self) 0 wav.

(** The argument the logarithm of [_amp_to_db] receives. *)
Definition amp_floor (x minimum : R) : R := clamp_min x minimum.

Definition _amp_to_db (x minimum : R) : R :=
  20 * log10 (amp_floor x minimum).

Definition _db_to_amp (x : R) : R := pow10 (0.05 * x).

(** [_normalize] divides by [-min_level_db]: the quotient below is the
    code's value for a floor other than 0, which is what the extractor is
    configured with; the statements about it carry that hypothesis. *)
Definition _normalize (self : ExtractAudioFeature) (feat : R) : R :=
  clamp ((feat - min_level_db self) / - min_level_db self) 0 1.

Definition _denormalize (self : ExtractAudioFeature) (feat : R) : R :=
  min_level_db self + clamp feat 0 1 * - min_level_db self.

(** Line 233 of [forward]: the tensor named [specgram] that is handed to
    the mel projection and to the dB stage. *)
Definition forward_specgram (lib : torch_lib) (self : ExtractAudioFeature)
  (waveform : list wave) : list matrix :=
  tmap3 sqrt (to_specgram lib self (_preemphasis self waveform)).

(** The dB conversion and normalisation of one entry (lines 235-238). *)
Definition log_normalize (self : ExtractAudioFeature) (x : R) : R :=
  _normalize self (_amp_to_db x 1e-5 - ref_level_db self).

(** [ExtractAudioFeature.forward(waveform, channel)] *)
Definition forward (lib : torch_lib) (self : ExtractAudioFeature)
  (waveform : list wave) (channel : nat) : result (list matrix) :=
  let specgram := forward_specgram lib self waveform in
  melspecgram <- to_melspecgram self specgram ;;
  let specgram := tmap3 (log_normalize self) specgram in
  let melspecgram := tmap3 (log_normalize self) melspecgram in
  match nth_error melspecgram channel with
  | Some msp => Ok [msp]
  | None => Raise IndexError
  end.

(** *** Griffin-Lim *)

(** Calls into the transform library are logged, so that the number of
    transitions a run performs can be read off its trace. *)
Inductive call : Type := CallStft | CallIstft.

Definition traced (A : Type) : Type := (A * list call)%type.

Definition tret {A : Type} (a : A) : traced A := (a, []).

Definition tbind {A B : Type} (c : traced A) (k : A -> traced B)
  : traced B :=
  let '(a, t1) := c in
  let '(b, t2) := k a in
  (b, t1 ++ t2).

Definition _stft (lib : torch_lib) (self : ExtractAudioFeature) (x : wave)
  : traced spectrum :=
  (torch_stft lib (n_fft self) (hop_length self) (win_length self) x,
   [CallStft]).

Definition _istft (lib : torch_lib) (self : ExtractAudioFeature)
  (y : spectrum) : traced wave :=
  (torch_istft lib (n_fft self) (hop_length self) (win_length self) y,
   [CallIstft]).

Definition _to_complex (magnitude phase : matrix) : spectrum :=
  zip2 (fun m p => (m * cos p, m * sin p)) magnitude phase.

Definition _get_phase (lib : torch_lib) (complx : spectrum) : matrix :=
  tmap2 (angle lib) complx.

(** The loop state: the variables [y], [phases] and [x]. *)
Definition gl_state : Type := (spectrum * matrix * wave)%type.

(** One pass of the loop body. *)
Definition gl_body (lib : torch_lib) (self : ExtractAudioFeature)
  (magnitude : matrix) (s : gl_state) : traced gl_state :=
  let '(_, _, x) := s in
  tbind (_stft lib self x) (fun y =>
  let phases := _get_phase lib y in
  let y := _to_complex magnitude phases in
  tbind (_istft lib self y) (fun x =>
  tret (y, phases, x))).

(** The value part of one loop pass: the state after the pass. *)
Definition gl_step (lib : torch_lib) (self : ExtractAudioFeature)
  (magnitude : matrix) (s : gl_state) : gl_state :=
  fst (gl_body lib self magnitude s).

(** The state the loop starts from: the randomly phased spectrum and its
    inverse transform. *)
Definition gl_start (lib : torch_lib) (self : ExtractAudioFeature)
  (rand specgram : matrix) : gl_state :=
  let phases :=
    tmap2 (fun r => angle lib (cos (2 * PI * r), sin (2 * PI * r))) rand in
  let y := _to_complex (tmap2 Rabs specgram) phases in
  (y, phases,
   torch_istft lib (n_fft self) (hop_length self) (win_length self) y).

(** [for _ in range(n): body] *)
Fixpoint for_range {S : Type} (n : nat) (body : S -> traced S) (s : S)
  : traced S :=
  match n with
  | O => tret s
  | Datatypes.S k => tbind (body s) (for_range k body)
  end.

(** [_griffin_lim(specgram)]; [rand] is the draw of
    [np.random.rand], of the shape of [specgram]. *)
Definition _griffin_lim (lib : torch_lib) (self : ExtractAudioFeature)
  (rand : matrix) (specgram : matrix) : traced wave :=
  let phases :=
    tmap2 (fun r => angle lib (cos (2 * PI * r), sin (2 * PI * r))) rand in
  let magnitude := tmap2 Rabs specgram in
  let y := _to_complex magnitude phases in
  tbind (_istft lib self y) (fun x =>
  tbind (for_range 30 (gl_body lib self magnitude) (y, phases, x))
        (fun s => let '(_, _, x) := s in tret x)).

(** [specgram_to_waveform(specgram, inv_preemphasis)] *)
Definition specgram_to_waveform (lib : torch_lib)
  (self : ExtractAudioFeature) (rand specgram : matrix)
  (inv_preemphasis : bool) : traced wave :=
  tbind (_griffin_lim lib self rand specgram) (fun wav =>
  let wav := if inv_preemphasis then _inv_preemphasis self wav else wav in
  tret (map (fun v => clamp v (-1) 1) wav)).

(** Number of phase-update transitions in a trace: each one starts with
    the forward transform. *)
Definition transitions (t : list call) : nat :=
  List.length (filter (fun c => match c with CallStft => true | _ => false end) t).

End Feature.

(* ================================================================== *)
(** ** Delta *)
(* ================================================================== *)

Module DeltaBank.

(** [l[i] += v]; every index the loops of [_create_filters] produce is in
    range. *)
Definition add_at (i : nat) (v : R) (l : list R) : list R :=
  match nth_error l i with
  | Some x => firstn i l ++ (x + v) :: skipn (S i) l
  | None => l
  end.

(** The two nested loops of [_create_filters] for one order: they return
    the accumulated [curr] and [normalizer]. *)
Definition accumulate (window_size : Z) (prev : list R)
  : list R * Z :=
  let len_prev := Z.of_nat (List.length prev) in
  let prev_offset := ((len_prev - 1) / 2)%Z in
  let curr_offset := (prev_offset + window_size)%Z in
  let curr := repeat 0 (Z.to_nat (len_prev + 2 * window_size)) in
  fold_left
    (fun (st : list R * Z) (j : Z) =>
       let '(curr, normalizer) := st in
       let normalizer := (normalizer + j * j)%Z in
       let curr :=
         fold_left
           (fun (curr : list R) (k : Z) =>
              add_at (Z.to_nat (j + k + curr_offset))
                     (IZR j * nth (Z.to_nat (k + prev_offset)) prev 0)
                     curr)
           (zrange (- prev_offset) (prev_offset + 1)) curr in
       (curr, normalizer))
    (zrange (- window_size) (window_size + 1)) (curr, 0%Z).

(** [curr = [x / normalizer for x in curr]]: dividing a Python number by
    [0.0] raises. *)
Definition next_scale (window_size : Z) (prev : list R)
  : result (list R) :=
  let '(curr, normalizer) := accumulate window_size prev in
  match curr with
  | [] => Ok []
  | _ => if (normalizer =? 0)%Z then Raise ZeroDivisionError
         else Ok (map (fun x => x / IZR normalizer) curr)
  end.

(** [for i in range(1, order + 1)]: [n] is the number of passes left,
    [scales] the list built so far and [last] its final element
    [scales[i-1]]. *)
Fixpoint build_scales (n : nat) (window_size : Z) (scales : list (list R))
  (last : list R) : result (list (list R)) :=
  match n with
  | O => Ok scales
  | S k =>
      curr <- next_scale window_size last ;;
      build_scales k window_size (scales ++ [curr]) curr
  end.

(** The zero padding of every scale but the last to [max_len]. *)
Definition pad_scale (max_len : nat) (scale : list R) : list R :=
  let padding := ((max_len - List.length scale) / 2)%nat in
  repeat 0 padding ++ scale ++ repeat 0 padding.

Definition pad_scales (scales : list (list R)) : list (list R) :=
  let max_len := List.length (last scales []) in
  map (pad_scale max_len) (removelast scales) ++ [last scales []].

(** [_create_filters(order, window_size)].  The result stands for the
    tensor of shape (order+1, 1, 1, L): one row per output channel. *)
Definition _create_filters (order window_size : Z)
  : result (list (list R)) :=
  scales <- build_scales (Z.to_nat order) window_size [[1]] [1] ;;
  Ok (pad_scales scales).

(** The fields of a [Delta] module. *)
Record Delta : Type := {
  order : Z;
  window_size : Z;
  batch : bool;
  filters : list (list R);
  padding : nat * nat
}.

(** [Delta.__init__] *)
Definition init (order window_size : Z) (batch : bool) : result Delta :=
  filters <- _create_filters order window_size ;;
  Ok {| order := order; window_size := window_size; batch := batch;
        filters := filters;
        padding := (0%nat, ((List.length (nth 0 filters []) - 1) / 2)%nat) |}.

(** One output row of [F.conv2d] for a kernel of height one: the
    cross-correlation of the kernel row with the zero-padded input row. *)
Definition correlate_row (kernel : list R) (pad : nat) (row : list R)
  : list R :=
  let padded := repeat 0 pad ++ row ++ repeat 0 pad in
  let width := List.length kernel in
  map (fun w => dot kernel (firstn width (skipn w padded)))
      (seq 0 (List.length padded - width + 1)).

(** [F.conv2d(x, weight, padding)] for an input of shape (1, 1, H, W) and
    a weight of shape (C_out, 1, 1, L), with the batch axis dropped: the
    result has shape (C_out, H, W + 2*pad - L + 1).  The call fails when
    the padded input is smaller than the kernel. *)
Definition conv2d_plane (weight : list (list R)) (padding : nat * nat)
  (plane : list (list R)) : result (list (list (list R))) :=
  let height := (List.length plane + 2 * fst padding)%nat in
  let width := (List.length (nth 0 plane []) + 2 * snd padding)%nat in
  let klen := List.length (nth 0 weight []) in
  if ((height <? 1) || (width <? klen))%nat then Raise RuntimeError
  else
    let vpad := repeat (repeat 0 (List.length (nth 0 plane []))) (fst padding) in
    Ok (map (fun kernel =>
               map (correlate_row kernel (snd padding))
                   (vpad ++ plane ++ vpad))
            weight).

(** [F.conv2d] on a batch of single-channel images, shape (B, 1, H, W):
    every image is convolved on its own, and the result has shape
    (B, C_out, H, W + 2*pad - L + 1). *)
Fixpoint conv2d_batch (weight : list (list R)) (padding : nat * nat)
  (planes : list (list (list R)))
  : result (list (list (list (list R)))) :=
  match planes with
  | [] => Ok []
  | plane :: rest =>
      out <- conv2d_plane weight padding plane ;;
      outs <- conv2d_batch weight padding rest ;;
      Ok (out :: outs)
  end.

(** What [Delta.forward] returns: a rank-3 tensor (C_out, H, W) without
    batching, a rank-4 tensor (B, C_out, H, W) with it. *)
Inductive output : Type :=
| Unbatched (t : list (list (list R)))
| Batched (q : list (list (list (list R)))).

(** [Delta.forward(x)] for a rank-3 input.  With [batch] set, the leading
    axis is the batch and [unsqueeze(1)] gives every entry a single
    channel; otherwise [unsqueeze(0)] makes the leading axis the channel
    axis, which the one-channel weight requires to be of size one, and the
    batch axis is dropped again by [[0]]. *)
Definition forward (self : Delta) (x : list (list (list R)))
  : result output :=
  if batch self then
    q <- conv2d_batch (filters self) (padding self) x ;;
    Ok (Batched q)
  else
    match x with
    | [plane] =>
        t <- conv2d_plane (filters self) (padding self) plane ;;
        Ok (Unbatched t)
    | _ => Raise RuntimeError
    end.

End DeltaBank.

(* ================================================================== *)
(** ** CMVN *)
(* ================================================================== *)

Module Cmvn.

Record CMVN : Type := {
  mode : string;
  dim : Z;
  eps : R
}.

(** [CMVN.__init__(mode, dim, eps)] *)
Definition init (mode : string) (dim : Z) (eps : R) : result CMVN :=
  if negb (String.eqb mode "global") then Raise NotImplementedError
  else Ok {| mode := mode; dim := dim; eps := eps |}.

(** [x.mean(dim, keepdim=True)] and [x.std(dim, keepdim=True)] (the
    unbiased estimate) on one lane of [x] along [dim]. *)
Definition mean (lane : list R) : R :=
  rsum lane / INR (List.length lane).

Definition std (lane : list R) : R :=
  sqrt (rsum (map (fun v => (v - mean lane) * (v - mean lane)) lane)
        / INR (List.length lane - 1)).

Definition normalize_lane (eps : R) (lane : list R) : list R :=
  map (fun v => (v - mean lane) / (eps + std lane)) lane.

(** [CMVN.forward(x)]; [x] is given as the list of its lanes along
    [self.dim].  A mode other than "global" falls off the end of the
    method, which returns [None]. *)
Definition forward (self : CMVN) (x : list (list R))
  : result (option (list (list R))) :=
  if String.eqb (mode self) "global"
  then Ok (Some (map (normalize_lane (eps self)) x))
  else Ok None.

End Cmvn.

(* ================================================================== *)
(** ** Postprocess *)
(* ================================================================== *)

Module Post.

(** The tensors [Postprocess.forward] handles, by rank. *)
Inductive tensor : Type :=
| Rank2 (m : list (list R))
| Rank3 (t : list (list (list R)))
| Rank4 (q : list (list (list (list R)))).

Record Postprocess : Type := {
  detach : bool;
  batch : bool
}.

(** [x.permute(2, 0, 1)] of a tensor of shape (C, F, T): entry
    [(t, c, f)] of the result is entry [(c, f, t)] of [x]. *)
Definition permute_201 (x : list (list (list R)))
  : list (list (list R)) :=
  let n_time := List.length (nth 0 (nth 0 x []) []) in
  map (fun t => map (fun ch => map (fun row => nth t row 0) ch) x)
      (seq 0 n_time).

(** [x.permute(0, 2, 3, 1)] of a tensor of shape (B, C, F, T): entry
    [(b, f, t, c)] of the result is entry [(b, c, f, t)] of [x]. *)
Definition permute_0231 (x : list (list (list (list R))))
  : list (list (list (list R))) :=
  map (fun xb =>
         let n_feat := List.length (nth 0 xb []) in
         let n_time := List.length (nth 0 (nth 0 xb []) []) in
         map (fun f =>
                map (fun t => map (fun ch => nth t (nth f ch []) 0) xb)
                    (seq 0 n_time))
             (seq 0 n_feat))
      x.

(** Number of entries of a rectangular tensor, read off its first
    slices as [torch] reads it off the shape. *)
Definition numel3 (x : list (list (list R))) : nat :=
  (List.length x * List.length (nth 0 x [])
   * List.length (nth 0 (nth 0 x []) []))%nat.

Definition numel4 (x : list (list (list (list R)))) : nat :=
  (List.length x * numel3 (nth 0 x []))%nat.

(** [Postprocess.forward(x)].  [permute] needs a tensor of the rank it
    names, and [reshape] cannot infer the [-1] axis of a tensor without
    entries; [detach()] does not change values. *)
Definition forward (self : Postprocess) (x : tensor) : result tensor :=
  if batch self then
    match x with
    | Rank4 q =>
        let x := permute_0231 q in
        if (numel4 q =? 0)%nat then Raise RuntimeError
        else if detach self
             then Ok (Rank2 (map (fun xb => concat (map (@concat R) xb)) x))
             else Ok (Rank3 (map (map (@concat R)) x))
    | _ => Raise RuntimeError
    end
  else
    match x with
    | Rank3 t =>
        let x := permute_201 t in
        if (numel3 t =? 0)%nat then Raise RuntimeError
        else if detach self
             then Ok (Rank2 (map (@concat R) x))
             else Ok (Rank3 x)
    | _ => Raise RuntimeError
    end.

End Post.

(* ================================================================== *)
(** ** Configuration dictionaries: [pop_audio_config] *)
(* ================================================================== *)

Module Config.

Section Dict.

(** The values stored in the configuration; [pop_audio_config] never
    looks inside them. *)
Variable V : Type.

(** A dictionary with string keys, in insertion order; a well-formed one
    binds every key once. *)
Definition dict : Type := list (string * V).

Definition lookup (key : string) (d : dict) : option V :=
  match find (fun kv => String.eqb (fst kv) key) d with
  | Some kv => Some (snd kv)
  | None => None
  end.

Definition remove (key : string) (d : dict) : dict :=
  filter (fun kv => negb (String.eqb (fst kv) key)) d.

(** The outcome of a call that may raise [KeyError]. *)
Inductive outcome (A : Type) : Type :=
| Returned (a : A)
| KeyError (key : string).

Arguments Returned {A} a.
Arguments KeyError {A} key.

(** A call acts on the caller's dictionary object: it yields the
    dictionary as the call leaves it, together with the outcome. *)
Definition action (A : Type) : Type := dict -> dict * outcome A.

(** [d.pop(key, default)]: never raises. *)
Definition pop_default (key : string) : action unit :=
  fun d => (remove key d, Returned tt).

(** [d.pop(key)]: raises [KeyError] when the key is missing. *)
Definition pop (key : string) : action V :=
  fun d =>
    match lookup key d with
    | Some v => (remove key d, Returned v)
    | None => (d, KeyError key)
    end.

Definition and_then {A B : Type} (c : action A) (k : A -> action B)
  : action B :=
  fun d =>
    match c d with
    | (d', Returned a) => k a d'
    | (d', KeyError key) => (d', KeyError key)
    end.

(** [pop_audio_config(audio_config)]: the returned dictionary is the
    argument object itself, after the pops. *)
Definition pop_audio_config : action (V * V) :=
  and_then (pop_default "delta_order") (fun _ =>
  and_then (pop_default "delta_window_size") (fun _ =>
  and_then (pop "apply_cmvn") (fun _ =>
  and_then (pop "feat_type") (fun feat_type =>
  and_then (pop "feat_dim") (fun feat_dim =>
  fun d => (d, Returned (feat_type, feat_dim))))))).

End Dict.

Arguments Returned {A} a.
Arguments KeyError {A} key.
Arguments lookup {V} key d.
Arguments remove {V} key d.
Arguments pop_audio_config {V}.

End Config.

(* ================================================================== *)
(** ** Concrete configurations used by the examples *)
(* ================================================================== *)

Module Examples.

Import Feature.

(** A stand-in transform library on which runs can be evaluated: every
    short-time transform returns the single bin [2 + 0i], the inverse
    returns silence. *)
Definition toy_lib : torch_lib :=
  {| torch_stft := fun _ _ _ _ => [[(2, 0)]];
     torch_istft := fun _ _ _ _ => [0];
     spectrogram_stft := fun _ _ _ _ => [[(2, 0)]];
     angle := fun _ => 0 |}.

(** The extractor with the numbers of the recipe (25 ms frames every
    10 ms at 16 kHz) and a one-bin, one-band mel matrix matching
    [toy_lib]. *)
Definition toy_extractor : ExtractAudioFeature :=
  {| mode := "fbank"; sr := 16000; n_fft := 1025;
     hop_length := 160; win_length := 400; power := 2;
     num_mel_bins := 1; ref_level_db := 20; min_level_db := -100;
     preemphasis_coeff := 0.97; fb := [[1]] |}.

(** The default delta module, [Delta(order=1, window_size=2)]. *)
Definition delta_1_2 : DeltaBank.Delta :=
  {| DeltaBank.order := 1; DeltaBank.window_size := 2;
     DeltaBank.batch := false;
     DeltaBank.filters :=
       [[0; 0; 1; 0; 0]; [-2 / 10; -1 / 10; 0; 1 / 10; 2 / 10]];
     DeltaBank.padding := (0%nat, 2%nat) |}.

(** The sequence 1, 2, 4 of one feature over three frames, laid out
    (time x feature_dim) and (feature_dim x time). *)
Definition frames_by_time : matrix := [[1]; [2]; [4]].
Definition frames_by_feature : matrix := [[1; 2; 4]].

End Examples.

(* ================================================================== *)
(** ** Quantities as the specification words them *)
(* ================================================================== *)

Module SpecWords.

Import Feature.

(** "Power spectrogram: magnitude of SpectralTransform(forward), squared":
    the squared modulus of the short-time transform of the pre-emphasised
    waveform, per channel. *)
Definition power_spectrogram (lib : torch_lib) (self : ExtractAudioFeature)
  (waveform : list wave) : list matrix :=
  map (fun ch =>
         tmap2 (fun z => magnitude z ^ 2)
               (spectrogram_stft lib (n_fft self) (hop_length self)
                                 (win_length self) ch))
      (_preemphasis self waveform).

(** The magnitude spectrogram of the same transform. *)
Definition magnitude_spectrogram (lib : torch_lib)
  (self : ExtractAudioFeature) (waveform : list wave) : list matrix :=
  map (fun ch =>
         tmap2 magnitude
               (spectrogram_stft lib (n_fft self) (hop_length self)
                                 (win_length self) ch))
      (_preemphasis self waveform).

(** "A convolution bank applied along the time axis ... independently per
    feature dimension", for a feature sequence laid out (time x
    feature_dim): every column of [x] is one feature dimension over time,
    and each kernel runs down it. *)
Definition delta_along_time (filters : list (list R)) (pad : nat)
  (x : matrix) : list matrix :=
  map (fun kernel =>
         transpose (List.length x)
                   (map (DeltaBank.correlate_row kernel pad)
                        (transpose (ncols x) x)))
      filters.

(** "Scale each band's row by 2/(right - left) in mel-domain band width":
    the factors computed from the band edges on the mel axis, i.e. from
    the uniform mel grid before it is converted back to Hz. *)
Definition mel_domain_enorm (n_mels : Z) (fmin fmax : R) (htk : bool)
  : result (list R) :=
  mels <- MelFilterbank.linspace (FrequencyScale.hz_to_mel fmin htk)
                                 (FrequencyScale.hz_to_mel fmax htk)
                                 (n_mels + 2) ;;
  Ok (MelFilterbank.enorm mels (Z.to_nat n_mels)).

End SpecWords.

(* ================================================================== *)
(** ** What the forward path asks of the short-time transform *)
(* ================================================================== *)

Module TransformLaws.

Import Feature.

(** The short-time transform [to_specgram] takes of the pre-emphasised
    waveform, per channel, before the modulus. *)
Definition spectra (lib : torch_lib) (self : ExtractAudioFeature)
  (waveform : list wave) : list spectrum :=
  map (spectrogram_stft lib (n_fft self) (hop_length self) (win_length self))
      (_preemphasis self waveform).

(** [k * waveform] and [k * z]. *)
Definition scale_wave (k : R) (w : wave) : wave := map (Rmult k) w.

Definition scale_bin (k : R) (z : complex) : complex :=
  (k * fst z, k * snd z).

(** A short-time transform is a windowed discrete Fourier transform of
    the padded signal, hence homogeneous: scaling the signal by a real
    factor scales every bin by it. *)
Definition homogeneous (lib : torch_lib) : Prop :=
  forall (n_fft hop_length win_length : Z) (k : R) (w : wave),
    spectrogram_stft lib n_fft hop_length win_length (scale_wave k w)
    = tmap2 (scale_bin k)
            (spectrogram_stft lib n_fft hop_length win_length w).

(** A homogeneous transform to compare against: one frame whose bins are
    the samples themselves. *)
Definition sample_lib : torch_lib :=
  {| torch_stft := fun _ _ _ w => [map (fun x => (x, 0)) w];
     torch_istft := fun _ _ _ s => map fst (nth 0 s []);
     spectrogram_stft := fun _ _ _ w => [map (fun x => (x, 0)) w];
     angle := fun _ => 0 |}.

End TransformLaws.

(* ================================================================== *)
(** * Theorems *)
(* ================================================================== *)

(** ** Clamping facts shared by the feature proofs *)

Lemma clamp_bounds (v lo hi : R) : lo <= hi -> lo <= clamp v lo hi <= hi.
Proof.
  intros Hle. unfold clamp, Rmin, Rmax.
  repeat destruct Rle_dec; lra.
Qed.

Lemma clamp_id (v lo hi : R) : lo <= v <= hi -> clamp v lo hi = v.
Proof.
  intros [Hlo Hhi]. unfold clamp, Rmin, Rmax.
  repeat destruct Rle_dec; lra.
Qed.


(** ** List facts shared by the component proofs *)

Lemma in_removelast {A : Type} (x : A) (l : list A) :
  In x (removelast l) -> In x l.
Proof.
  induction l as [ | a l IH]; [ auto | ].
  cbn [removelast]. destruct l as [ | b l]; [ intros [] | ].
  intros [-> | Hin]; [ now left | right; now apply IH ].
Qed.

Lemma length_removelast {A : Type} (l : list A) :
  List.length (removelast l) = (List.length l - 1)%nat.
Proof.
  induction l as [ | a l IH]; [ reflexivity | ].
  cbn [removelast]. destruct l as [ | b l]; [ reflexivity | ].
  cbn [List.length] in *. lia.
Qed.

Module FeatureProps.

Import Feature Examples.








(** C10.  With a negative floor, normalising a de-normalised in-range
    feature returns it unchanged. *)
Theorem normalize_denormalize (self : ExtractAudioFeature) (x : R) :
  min_level_db self < 0 ->
  0 <= x <= 1 ->
  _normalize self (_denormalize self x) = x.
Proof.
  intros Hmin Hx. unfold _normalize, _denormalize.
  rewrite (clamp_id x 0 1 Hx).
  replace ((min_level_db self + x * - min_level_db self - min_level_db self)
           / - min_level_db self) with x by (field; lra).
  now apply clamp_id.
Qed.

Lemma normalize_denormalize_witness :
  _normalize toy_extractor (_denormalize toy_extractor (1 / 2)) = 1 / 2.
Proof.
  apply (normalize_denormalize toy_extractor (1 / 2)); simpl; lra.
Defined.

End FeatureProps.

(** ** Frequency scale *)

Module ScaleProps.

Import FrequencyScale.

Lemma ln10_pos : 0 < ln 10.
Proof. rewrite <- ln_1. apply ln_increasing; lra. Qed.

Lemma logstep_pos : 0 < logstep.
Proof.
  unfold logstep.
  assert (0 < ln 6.4) by (rewrite <- ln_1; apply ln_increasing; lra).
  lra.
Qed.

Lemma min_log_mel_val : min_log_mel = 15.
Proof. unfold min_log_mel, min_log_hz, f_min, f_sp. field. Qed.

(** [10 ** log10(x) = x] for positive [x]. *)
Lemma pow10_log10 (x : R) : 0 < x -> pow10 (log10 x) = x.
Proof.
  intros Hx. unfold pow10, log10, Rpower.
  replace (ln x / ln 10 * ln 10) with (ln x)
    by (field; apply Rgt_not_eq, ln10_pos).
  now apply exp_ln.
Qed.

Lemma htk_roundtrip (f : R) : 0 <= f -> mel_to_hz (hz_to_mel f true) true = f.
Proof.
  intros Hf. unfold mel_to_hz, hz_to_mel.
  replace (2595 * log10 (1 + f / 700) / 2595) with (log10 (1 + f / 700))
    by (field).
  rewrite pow10_log10 by lra. field.
Qed.

(** Below the knee the Slaney map is linear on both sides. *)
Lemma slaney_roundtrip_linear (f : R) :
  f < 1000 -> mel_to_hz (hz_to_mel f false) false = f.
Proof.
  intros Hf. unfold hz_to_mel, min_log_hz.
  destruct (Rle_dec 1000 f) as [Hge | _]; [ lra | ].
  unfold mel_to_hz, hz_to_mel_linear. rewrite min_log_mel_val.
  unfold f_min, f_sp.
  destruct (Rle_dec 15 ((f - 0) / (200 / 3))) as [Hge | _]; [ lra | field ].
Qed.

(** From the knee on both sides take the logarithmic piece. *)
Lemma slaney_roundtrip_log (f : R) :
  1000 <= f -> mel_to_hz (hz_to_mel f false) false = f.
Proof.
  intros Hf. unfold hz_to_mel, min_log_hz.
  destruct (Rle_dec 1000 f) as [_ | Hlt]; [ | lra ].
  pose proof logstep_pos as Hstep.
  assert (Hln : 0 <= ln (f / 1000)).
  { rewrite <- ln_1. destruct (Req_dec f 1000) as [-> | Hne].
    - right. f_equal. field.
    - left. apply ln_increasing; lra. }
  unfold mel_to_hz, hz_to_mel_log, min_log_hz.
  destruct (Rle_dec min_log_mel (min_log_mel + ln (f / 1000) / logstep))
    as [_ | Hlt].
  - replace (logstep * (min_log_mel + ln (f / 1000) / logstep - min_log_mel))
      with (ln (f / 1000)) by (field; lra).
    rewrite exp_ln by lra. field.
  - exfalso. apply Hlt.
    assert (0 <= ln (f / 1000) / logstep).
    { apply Rmult_le_pos; [ exact Hln | left; now apply Rinv_0_lt_compat ]. }
    lra.
Qed.

Lemma roundtrip (f : R) (htk : bool) :
  0 <= f -> mel_to_hz (hz_to_mel f htk) htk = f.
Proof.
  intros Hf. destruct htk.
  - now apply htk_roundtrip.
  - destruct (Rlt_le_dec f 1000).
    + now apply slaney_roundtrip_linear.
    + now apply slaney_roundtrip_log.
Qed.

(** A function that is the identity on the non-negative reals is
    continuous at every positive point. *)
Lemma identity_on_nonneg_continuous (g : R -> R) (x0 : R) :
  (forall f, 0 <= f -> g f = f) -> 0 < x0 -> continuity_pt g x0.
Proof.
  intros Hid Hx0 eps Heps.
  exists (Rmin eps x0). split.
  - apply Rmin_glb_lt; lra.
  - intros x [_ Hdist]. simpl in *. unfold R_dist in *.
    assert (Hlt : Rabs (x - x0) < x0)
      by (eapply Rlt_le_trans; [ exact Hdist | apply Rmin_r ]).
    assert (Hlt' : Rabs (x - x0) < eps)
      by (eapply Rlt_le_trans; [ exact Hdist | apply Rmin_l ]).
    assert (0 <= x).
    { apply Rabs_def2 in Hlt. lra. }
    rewrite !Hid by lra. exact Hlt'.
Qed.

(** C4.  For every frequency [f >= 0] and either scheme,
    [mel_to_hz (hz_to_mel f)] is [f] (exactly, over the reals, hence
    within any tolerance); the same holds entrywise on arrays; the two
    pieces of the Slaney map meet at the 1000 Hz knee, and the composed
    map is continuous there. *)
Theorem mel_roundtrip :
  (forall (htk : bool) (f : R),
      0 <= f -> mel_to_hz (hz_to_mel f htk) htk = f)
  /\ (forall (htk : bool) (fs : list R),
         Forall (fun f => 0 <= f) fs ->
         mel_to_hz_array (hz_to_mel_array fs htk) htk = fs)
  /\ hz_to_mel_linear min_log_hz = hz_to_mel_log min_log_hz
  /\ (forall htk : bool,
         continuity_pt (fun f => mel_to_hz (hz_to_mel f htk) htk) min_log_hz).
Proof.
  split; [ | split; [ | split ] ].
  - intros htk f. apply roundtrip.
  - intros htk fs Hfs. unfold mel_to_hz_array, hz_to_mel_array.
    rewrite map_map. induction Hfs as [ | f fs Hf _ IH]; simpl.
    + reflexivity.
    + now rewrite roundtrip, IH.
  - unfold hz_to_mel_linear, hz_to_mel_log, min_log_mel, min_log_hz.
    replace (1000 / 1000) with 1 by field. rewrite ln_1.
    pose proof logstep_pos. unfold f_min, f_sp. field. lra.
  - intros htk. apply identity_on_nonneg_continuous.
    + intros f. apply roundtrip.
    + unfold min_log_hz. lra.
Qed.

Lemma mel_roundtrip_witness :
  mel_to_hz (hz_to_mel 440 false) false = 440
  /\ mel_to_hz (hz_to_mel 4000 true) true = 4000
  /\ mel_to_hz_array (hz_to_mel_array [0; 1000; 8000] false) false
     = [0; 1000; 8000].
Proof.
  destruct mel_roundtrip as (Hscalar & Harray & _).
  repeat split.
  - apply (Hscalar false 440). lra.
  - apply (Hscalar true 4000). lra.
  - apply (Harray false [0; 1000; 8000]).
    repeat constructor; lra.
Defined.

End ScaleProps.

(** ** Forward path: what reaches the mel projection *)

Module ForwardProps.

Import Feature Examples SpecWords TransformLaws.

Lemma magnitude_nonneg (z : complex) : 0 <= magnitude z.
Proof. unfold magnitude. apply sqrt_pos. Qed.

(** Taking the root of the power-2 norm gives back the modulus. *)
Lemma sqrt_complex_norm_2 (z : complex) :
  sqrt (complex_norm z 2) = magnitude z.
Proof. unfold complex_norm. apply sqrt_pow2, magnitude_nonneg. Qed.

Lemma init_power (mode : string) (num_mel_bins : Z)
  (frame_length frame_shift ref_level_db min_level_db c sample_rate : R)
  (self : ExtractAudioFeature) :
  init mode num_mel_bins frame_length frame_shift ref_level_db min_level_db
       c sample_rate = Ok self ->
  power self = 2%nat.
Proof.
  unfold init. intros Hinit.
  destruct (MelFilterbank.create_mel_filterbank _ _ _ _ _ _ _);
    simpl in Hinit; [ | discriminate ].
  injection Hinit as <-. reflexivity.
Qed.

Lemma forward_specgram_is_magnitude (lib : torch_lib)
  (self : ExtractAudioFeature) (waveform : list wave) :
  power self = 2%nat ->
  forward_specgram lib self waveform = magnitude_spectrogram lib self waveform.
Proof.
  intros Hpow.
  unfold forward_specgram, magnitude_spectrogram, to_specgram, tmap3, tmap2.
  rewrite Hpow, map_map. apply map_ext. intros ch.
  rewrite map_map. apply map_ext. intros row.
  rewrite map_map. apply map_ext. intros z.
  apply sqrt_complex_norm_2.
Qed.

Lemma removelast_map {A B : Type} (f : A -> B) (l : list A) :
  removelast (map f l) = map f (removelast l).
Proof.
  induction l as [ | x l IH]; [ reflexivity | ].
  destruct l as [ | y l]; [ reflexivity | ].
  cbn [map removelast] in *. now rewrite IH.
Qed.

Lemma combine_map_both {A B : Type} (f : A -> B) (a b : list A) :
  combine (map f a) (map f b)
  = map (fun p => (f (fst p), f (snd p))) (combine a b).
Proof.
  revert b. induction a as [ | x a IH]; intros [ | y b];
    try reflexivity.
  cbn [map combine fst snd]. now rewrite IH.
Qed.

(** Pre-emphasis commutes with scaling the waveform. *)
Lemma preemphasis_row_scale (c k : R) (w : wave) :
  preemphasis_row c (scale_wave k w) = scale_wave k (preemphasis_row c w).
Proof.
  unfold preemphasis_row, scale_wave.
  rewrite map_app, firstn_map, skipn_map, removelast_map, combine_map_both.
  rewrite !map_map. f_equal. apply map_ext. intros [x y]. cbn [fst snd].
  ring.
Qed.

Lemma preemphasis_scale (self : ExtractAudioFeature) (k : R)
  (waveform : list wave) :
  _preemphasis self (map (scale_wave k) waveform)
  = map (scale_wave k) (_preemphasis self waveform).
Proof.
  unfold _preemphasis. rewrite !map_map. apply map_ext. intros w.
  apply preemphasis_row_scale.
Qed.

Lemma spectra_scale (lib : torch_lib) (self : ExtractAudioFeature) (k : R)
  (waveform : list wave) :
  homogeneous lib ->
  spectra lib self (map (scale_wave k) waveform)
  = map (tmap2 (scale_bin k)) (spectra lib self waveform).
Proof.
  intros Hhom. unfold spectra. rewrite preemphasis_scale, !map_map.
  apply map_ext. intros w. apply Hhom.
Qed.

Lemma magnitude_scale (k : R) (z : complex) :
  magnitude (scale_bin k z) = Rabs k * magnitude z.
Proof.
  destruct z as [a b]. unfold magnitude, scale_bin. cbn [fst snd].
  replace (k * a * (k * a) + k * b * (k * b))
    with (Rsqr k * (a * a + b * b)) by (unfold Rsqr; ring).
  rewrite sqrt_mult by (try apply Rle_0_sqr; nra).
  now rewrite sqrt_Rsqr_abs.
Qed.

(** The modulus equals its square exactly at 0 and 1. *)
Lemma modulus_eq_square (m : R) : m = m ^ 2 <-> m = 0 \/ m = 1.
Proof.
  split.
  - intros Heq. destruct (Req_dec m 0) as [H0 | H0]; [ now left | right ].
    apply (Rmult_eq_reg_l m); [ | exact H0 ]. lra.
  - intros [-> | ->]; lra.
Qed.

Lemma power_spectrogram_spectra (lib : torch_lib)
  (self : ExtractAudioFeature) (waveform : list wave) :
  power_spectrogram lib self waveform
  = map (tmap2 (fun z => magnitude z ^ 2)) (spectra lib self waveform).
Proof. unfold power_spectrogram, spectra. now rewrite map_map. Qed.

Lemma magnitude_spectrogram_spectra (lib : torch_lib)
  (self : ExtractAudioFeature) (waveform : list wave) :
  magnitude_spectrogram lib self waveform
  = map (tmap2 magnitude) (spectra lib self waveform).
Proof. unfold magnitude_spectrogram, spectra. now rewrite map_map. Qed.

(** The tensor of line 233 is the power spectrogram exactly when every
    bin of the transform has modulus 0 or 1. *)
Lemma specgram_is_power_iff (lib : torch_lib) (self : ExtractAudioFeature)
  (waveform : list wave) :
  power self = 2%nat ->
  forward_specgram lib self waveform = power_spectrogram lib self waveform
  <-> Forall (Forall (Forall (fun z => magnitude z = 0 \/ magnitude z = 1)))
             (spectra lib self waveform).
Proof.
  intros Hpow.
  rewrite forward_specgram_is_magnitude by exact Hpow.
  rewrite magnitude_spectrogram_spectra, power_spectrogram_spectra.
  unfold tmap2.
  rewrite map_ext_in_iff, Forall_forall.
  split; intros Hall ch Hch; specialize (Hall ch Hch); cbn beta in *.
  - pose proof (proj1 map_ext_in_iff Hall) as Hrows.
    apply Forall_forall. intros row Hrow.
    pose proof (proj1 map_ext_in_iff (Hrows row Hrow)) as Hbins.
    apply Forall_forall. intros z Hz. apply modulus_eq_square.
    exact (Hbins z Hz).
  - apply map_ext_in. intros row Hrow.
    rewrite Forall_forall in Hall. specialize (Hall row Hrow).
    apply map_ext_in. intros z Hz.
    rewrite Forall_forall in Hall. apply modulus_eq_square.
    exact (Hall z Hz).
Qed.

(** A transform that scales with the signal and has one bin other than
    zero on some waveform meets a waveform on which the tensor of line 233
    is not the power spectrogram: that waveform, or twice it. *)
Lemma specgram_differs_somewhere (lib : torch_lib)
  (self : ExtractAudioFeature) (waveform : list wave) :
  power self = 2%nat -> homogeneous lib ->
  Exists (Exists (Exists (fun z => magnitude z <> 0)))
         (spectra lib self waveform) ->
  exists k : R,
    forward_specgram lib self (map (scale_wave k) waveform)
    <> power_spectrogram lib self (map (scale_wave k) waveform).
Proof.
  intros Hpow Hhom Hbin.
  apply Exists_exists in Hbin. destruct Hbin as (ch & Hch & Hbin).
  apply Exists_exists in Hbin. destruct Hbin as (row & Hrow & Hbin).
  apply Exists_exists in Hbin. destruct Hbin as (z & Hz & Hmod).
  assert (Hin : forall k, exists z',
               magnitude z' = Rabs k * magnitude z
               /\ Exists (Exists (Exists (eq z')))
                         (spectra lib self (map (scale_wave k) waveform))).
  { intros k. exists (scale_bin k z). split; [ apply magnitude_scale | ].
    rewrite (spectra_scale lib self k waveform Hhom).
    apply Exists_exists. exists (tmap2 (scale_bin k) ch).
    split; [ now apply in_map | ].
    apply Exists_exists. exists (map (scale_bin k) row).
    split; [ unfold tmap2; now apply in_map | ].
    apply Exists_exists. exists (scale_bin k z).
    split; [ now apply in_map | reflexivity ]. }
  assert (Hno : forall k,
             Rabs k * magnitude z <> 0 -> Rabs k * magnitude z <> 1 ->
             forward_specgram lib self (map (scale_wave k) waveform)
             <> power_spectrogram lib self (map (scale_wave k) waveform)).
  { intros k H0 H1 Heq.
    apply (specgram_is_power_iff lib self _ Hpow) in Heq.
    destruct (Hin k) as (z' & Hmag & Hex).
    apply Exists_exists in Hex. destruct Hex as (ch' & Hch' & Hex).
    apply Exists_exists in Hex. destruct Hex as (row' & Hrow' & Hex).
    apply Exists_exists in Hex. destruct Hex as (z'' & Hz'' & <-).
    rewrite Forall_forall in Heq. specialize (Heq ch' Hch').
    rewrite Forall_forall in Heq. specialize (Heq row' Hrow').
    rewrite Forall_forall in Heq. specialize (Heq z' Hz'').
    rewrite Hmag in Heq. tauto. }
  destruct (Req_dec (magnitude z) 1) as [Hone | Hone].
  - exists 2. apply Hno; rewrite Hone, Rabs_right; lra.
  - exists 1. apply Hno; rewrite Rabs_R1; lra.
Qed.

Lemma sample_lib_homogeneous : homogeneous sample_lib.
Proof.
  intros n_fft hop_length win_length k w.
  unfold sample_lib, scale_wave, tmap2, scale_bin.
  cbn [spectrogram_stft map fst snd]. rewrite !map_map.
  apply (f_equal (fun row => [row])).
  apply map_ext. intros x. cbn [fst snd]. f_equal; ring.
Qed.

(** C3, as stated, fails, whatever the short-time transform is.  An
    extractor built by [__init__] has [power = 2]; for such an extractor,
    every transform and every waveform, the tensor handed to the mel
    projection and the dB stage equals the power spectrogram only if every
    bin of the transform has modulus 0 or 1; and every transform that
    scales with the signal and has a bin other than zero on some waveform
    meets a waveform where the two tensors differ.  Such transforms exist:
    the one whose bins are the samples themselves scales with the signal,
    and on the one-sample waveform [2] the tensor holds 2 where the power
    spectrogram holds 4. *)
Lemma forward_specgram_not_power :
  (forall (mode : string) (num_mel_bins : Z)
          (frame_length frame_shift ref_level_db min_level_db c sample_rate : R)
          (self : ExtractAudioFeature),
      init mode num_mel_bins frame_length frame_shift ref_level_db
           min_level_db c sample_rate = Ok self ->
      power self = 2%nat)
  /\ (forall (lib : torch_lib) (self : ExtractAudioFeature)
             (waveform : list wave),
         power self = 2%nat ->
         forward_specgram lib self waveform
         = power_spectrogram lib self waveform
         <-> Forall (Forall (Forall (fun z => magnitude z = 0
                                              \/ magnitude z = 1)))
                    (spectra lib self waveform))
  /\ (forall (lib : torch_lib) (self : ExtractAudioFeature)
             (waveform : list wave),
         power self = 2%nat -> homogeneous lib ->
         Exists (Exists (Exists (fun z => magnitude z <> 0)))
                (spectra lib self waveform) ->
         exists k : R,
           forward_specgram lib self (map (scale_wave k) waveform)
           <> power_spectrogram lib self (map (scale_wave k) waveform))
  /\ homogeneous sample_lib
  /\ (forall self : ExtractAudioFeature,
         power self = 2%nat ->
         forward_specgram sample_lib self [[2]]
         <> power_spectrogram sample_lib self [[2]]).
Proof.
  split; [ intros; eapply init_power; eassumption | ].
  split; [ apply specgram_is_power_iff | ].
  split; [ apply specgram_differs_somewhere | ].
  split; [ apply sample_lib_homogeneous | ].
  intros self Hpow Heq.
  apply (specgram_is_power_iff sample_lib self [[2]] Hpow) in Heq.
  unfold spectra, _preemphasis, preemphasis_row, sample_lib in Heq.
  cbn [map firstn skipn removelast combine app spectrogram_stft] in Heq.
  inversion Heq as [ | ? ? Hch _]. inversion Hch as [ | ? ? Hrow _].
  inversion Hrow as [ | ? ? Hz _].
  assert (Hmag : magnitude (2, 0) = 2).
  { unfold magnitude. cbn [fst snd].
    replace (2 * 2 + 0 * 0) with (2 * 2) by ring.
    apply sqrt_square. lra. }
  rewrite Hmag in Hz. lra.
Qed.

(** C3, amended.  An extractor built by [__init__] squares the modulus
    ([power=2]) and [forward] takes the root again, so the tensor that is
    mel-projected and dB-converted is the magnitude spectrogram of the
    pre-emphasised waveform, and [forward] is that tensor pushed through
    the mel projection, the dB stage and the normalisation. *)
Theorem forward_feeds_magnitude (lib : torch_lib)
  (self : ExtractAudioFeature) (waveform : list wave) (channel : nat) :
  power self = 2%nat ->
  forward_specgram lib self waveform = magnitude_spectrogram lib self waveform
  /\ forward lib self waveform channel
     = (melspecgram <-
          to_melspecgram self (magnitude_spectrogram lib self waveform) ;;
        match nth_error (tmap3 (log_normalize self) melspecgram) channel with
        | Some msp => Ok [msp]
        | None => Raise IndexError
        end).
Proof.
  intros Hpow. split.
  - now apply forward_specgram_is_magnitude.
  - unfold forward. now rewrite forward_specgram_is_magnitude.
Qed.

Lemma forward_feeds_magnitude_witness :
  forward_specgram toy_lib toy_extractor [[0]]
  = magnitude_spectrogram toy_lib toy_extractor [[0]].
Proof.
  exact (proj1 (forward_feeds_magnitude toy_lib toy_extractor [[0]] 0
                  eq_refl)).
Defined.

End ForwardProps.

(** ** Griffin-Lim *)

Module GriffinLimProps.

Import Feature Examples.

Section Run.

Variable lib : torch_lib.
Variable self : ExtractAudioFeature.
Variable magnitude : matrix.

Local Abbreviation gl_step := (gl_step lib self magnitude).

Lemma gl_body_run (s : gl_state) :
  gl_body lib self magnitude s = (gl_step s, [CallStft; CallIstft]).
Proof. destruct s as [[y phases] x]. reflexivity. Qed.

Lemma for_range_run (n : nat) (s : gl_state) :
  for_range n (gl_body lib self magnitude) s
  = (Nat.iter n gl_step s, concat (repeat [CallStft; CallIstft] n)).
Proof.
  revert s. induction n as [ | n IH]; intros s.
  - reflexivity.
  - cbn [for_range]. unfold tbind at 1. rewrite gl_body_run, IH.
    rewrite Nat.iter_succ_r. reflexivity.
Qed.

(** Every state the loop reaches after at least one pass holds the
    inverse transform of its own spectrum. *)
Lemma gl_step_inverse (s : gl_state) :
  snd (gl_step s)
  = torch_istft lib (n_fft self) (hop_length self) (win_length self)
                (fst (fst (gl_step s))).
Proof. destruct s as [[y phases] x]. reflexivity. Qed.

End Run.

Lemma transitions_concat (n : nat) :
  transitions (CallIstft :: concat (repeat [CallStft; CallIstft] n)) = n.
Proof.
  unfold transitions. cbn [filter].
  induction n as [ | n IH]; [ reflexivity | ].
  cbn [repeat concat app filter List.length]. now rewrite IH.
Qed.

Lemma griffin_lim_run (lib : torch_lib) (self : ExtractAudioFeature)
  (rand specgram : matrix) :
  _griffin_lim lib self rand specgram
  = (snd (Nat.iter 30 (gl_step lib self (tmap2 Rabs specgram))
                   (gl_start lib self rand specgram)),
     CallIstft :: concat (repeat [CallStft; CallIstft] 30)).
Proof.
  unfold _griffin_lim, _istft. unfold tbind at 1.
  rewrite for_range_run. unfold tbind, gl_start.
  destruct (Nat.iter 30 _ _) as [[y phases] x]. reflexivity.
Qed.

(** C2, as stated, fails: the budget is not configurable.  A run performs
    30 transitions, which is not the module constant [GRIFFIN_LIM_ITER],
    and no transform library, extractor configuration, random draw or
    input makes it perform any other number. *)
Lemma griffin_lim_budget_not_configurable :
  transitions (snd (_griffin_lim toy_lib toy_extractor [[0]] [[1]])) = 30%nat
  /\ Z.of_nat (transitions (snd (_griffin_lim toy_lib toy_extractor
                                              [[0]] [[1]])))
     <> GRIFFIN_LIM_ITER
  /\ ~ (exists lib self rand specgram,
           transitions (snd (_griffin_lim lib self rand specgram))
           <> 30%nat).
Proof.
  split; [ | split ].
  - rewrite griffin_lim_run. apply transitions_concat.
  - rewrite griffin_lim_run. cbn [snd]. rewrite transitions_concat.
    unfold GRIFFIN_LIM_ITER. lia.
  - intros (lib & self & rand & specgram & Hne). apply Hne.
    rewrite griffin_lim_run. apply transitions_concat.
Qed.

(** C2, amended.  For every magnitude input, [_griffin_lim] performs one
    inverse transform of the randomly phased spectrum and then exactly 30
    phase-update transitions (forward transform, phase, inverse
    transform), whatever the data: the bound is the literal 30 of the
    loop, there is no convergence test and no early exit.  The value
    returned is the waveform of the thirtieth state, which is the inverse
    transform of that state's spectrum. *)
Theorem griffin_lim_fixed_budget (lib : torch_lib)
  (self : ExtractAudioFeature) (rand specgram : matrix) :
  let final := Nat.iter 30 (gl_step lib self (tmap2 Rabs specgram))
                        (gl_start lib self rand specgram) in
  snd (_griffin_lim lib self rand specgram)
  = CallIstft :: concat (repeat [CallStft; CallIstft] 30)
  /\ transitions (snd (_griffin_lim lib self rand specgram)) = 30%nat
  /\ fst (_griffin_lim lib self rand specgram) = snd final
  /\ snd final
     = torch_istft lib (n_fft self) (hop_length self) (win_length self)
                   (fst (fst final)).
Proof.
  intros final. rewrite griffin_lim_run. cbn [fst snd].
  split; [ reflexivity | ].
  split; [ apply transitions_concat | ].
  split; [ reflexivity | ].
  subst final. rewrite Nat.iter_succ. apply gl_step_inverse.
Qed.

End GriffinLimProps.

(** ** Delta *)

Module DeltaProps.

Import DeltaBank Examples.

Ltac eval_lists :=
  cbv - [Rplus Rminus Rmult Rdiv Rinv Ropp IZR Rmax Rmin sqrt ln exp].

Ltac solve_entries := repeat (f_equal; try lra).

Example filters_1_2 :
  _create_filters 1 2
  = Ok [[0; 0; 1; 0; 0]; [-2 / 10; -1 / 10; 0; 1 / 10; 2 / 10]].
Proof. eval_lists. solve_entries. Qed.

Example init_1_2 : init 1 2 false = Ok delta_1_2.
Proof. unfold init. rewrite filters_1_2. reflexivity. Qed.

(** *** Lengths of the synthesised kernels *)

Lemma add_at_length (i : nat) (v : R) (l : list R) :
  List.length (add_at i v l) = List.length l.
Proof.
  unfold add_at. destruct (nth_error l i) as [x | ] eqn:Hnth; [ | reflexivity ].
  assert (Hlt : (i < List.length l)%nat)
    by (apply nth_error_Some; congruence).
  rewrite length_app, length_firstn. cbn [List.length].
  rewrite length_skipn. lia.
Qed.

Lemma inner_loop_length (f : Z -> nat) (g : Z -> R) (ks : list Z)
  (curr : list R) :
  List.length (fold_left (fun c k => add_at (f k) (g k) c) ks curr)
  = List.length curr.
Proof.
  revert curr. induction ks as [ | k ks IH]; intros curr; cbn [fold_left].
  - reflexivity.
  - now rewrite IH, add_at_length.
Qed.

(** The integer sum the outer loop keeps in [normalizer]. *)
Lemma sum_squares_ge (js : list Z) (n : Z) :
  (n <= fold_left (fun n j => n + j * j) js n)%Z.
Proof.
  revert n. induction js as [ | j js IH]; intros n; cbn [fold_left].
  - lia.
  - specialize (IH (n + j * j)%Z). nia.
Qed.

Lemma outer_loop_spec (f : Z -> Z -> nat) (g : Z -> Z -> R) (ks js : list Z)
  (curr : list R) (n : Z) :
  let r :=
    fold_left
      (fun (st : list R * Z) (j : Z) =>
         let '(curr, normalizer) := st in
         let normalizer := (normalizer + j * j)%Z in
         let curr := fold_left (fun c k => add_at (f j k) (g j k) c) ks curr in
         (curr, normalizer))
      js (curr, n) in
  List.length (fst r) = List.length curr
  /\ snd r = fold_left (fun n j => (n + j * j)%Z) js n.
Proof.
  revert curr n. induction js as [ | j js IH]; intros curr n; cbn [fold_left].
  - split; reflexivity.
  - specialize (IH (fold_left (fun c k => add_at (f j k) (g j k) c) ks curr)
                   (n + j * j)%Z).
    cbv zeta in IH. destruct IH as [Hlen Hsum]. split.
    + rewrite Hlen. apply inner_loop_length.
    + exact Hsum.
Qed.

Lemma zrange_cons (lo hi : Z) :
  (lo < hi)%Z -> zrange lo hi = lo :: zrange (lo + 1) hi.
Proof.
  intros Hlt. unfold zrange.
  replace (Z.to_nat (hi - lo)) with (S (Z.to_nat (hi - (lo + 1)))) by lia.
  cbn [seq map]. f_equal.
  - lia.
  - rewrite <- seq_shift, map_map. apply map_ext. intros i. lia.
Qed.

Lemma accumulate_spec (window_size : Z) (prev : list R) :
  (1 <= window_size)%Z ->
  List.length (fst (accumulate window_size prev))
  = (List.length prev + 2 * Z.to_nat window_size)%nat
  /\ (0 < snd (accumulate window_size prev))%Z.
Proof.
  intros Hw. unfold accumulate.
  match goal with
  | |- context [fold_left ?F ?js (?c, ?n)] =>
      pose proof (outer_loop_spec
        (fun j k => Z.to_nat (j + k + ((Z.of_nat (List.length prev) - 1) / 2
                                       + window_size)))
        (fun j k => IZR j * nth (Z.to_nat (k + (Z.of_nat (List.length prev) - 1) / 2))
                                prev 0)
        (zrange (- ((Z.of_nat (List.length prev) - 1) / 2))
                ((Z.of_nat (List.length prev) - 1) / 2 + 1))
        js c n) as Hspec
  end.
  cbv zeta in Hspec. destruct Hspec as [Hlen Hsum].
  split.
  - rewrite Hlen, repeat_length. lia.
  - rewrite Hsum. rewrite zrange_cons by lia. cbn [fold_left].
    pose proof (sum_squares_ge (zrange (- window_size + 1) (window_size + 1))
                  (0 + - window_size * - window_size)%Z).
    nia.
Qed.

Lemma next_scale_ok (window_size : Z) (prev : list R) :
  (1 <= window_size)%Z ->
  exists curr,
    next_scale window_size prev = Ok curr
    /\ List.length curr = (List.length prev + 2 * Z.to_nat window_size)%nat.
Proof.
  intros Hw. destruct (accumulate_spec window_size prev Hw) as [Hlen Hpos].
  unfold next_scale.
  destruct (accumulate window_size prev) as [curr normalizer].
  cbn [fst snd] in *.
  destruct curr as [ | c curr]; [ cbn [List.length] in Hlen; lia | ].
  destruct (Z.eqb_spec normalizer 0) as [-> | _]; [ lia | ].
  eexists. split; [ reflexivity | ]. now rewrite length_map.
Qed.

(** The invariant of the loop over orders: the list built so far is not
    empty, starts with the identity kernel, ends with [lst], and its
    entries have the lengths [1 + 2 * window_size * i]. *)
Lemma build_scales_spec (w : Z) (n : nat) :
  (1 <= w)%Z ->
  forall (scales : list (list R)) (lst : list R),
    scales <> [] ->
    last scales [] = lst ->
    hd [] scales = [1] ->
    List.length lst = (1 + 2 * Z.to_nat w * (List.length scales - 1))%nat ->
    Forall (fun s => exists i, (i < List.length scales)%nat
                               /\ List.length s = (1 + 2 * Z.to_nat w * i)%nat)
           scales ->
    exists out,
      build_scales n w scales lst = Ok out
      /\ List.length out = (List.length scales + n)%nat
      /\ hd [] out = [1]
      /\ List.length (last out [])
         = (1 + 2 * Z.to_nat w * (List.length out - 1))%nat
      /\ Forall (fun s => exists i, (i < List.length out)%nat
                                    /\ List.length s
                                       = (1 + 2 * Z.to_nat w * i)%nat)
                out.
Proof.
  intros Hw. induction n as [ | n IH]; intros scales lst Hne Hlast Hhd Hlen Hall.
  - exists scales. cbn [build_scales]. rewrite Hlast.
    repeat split; auto; lia.
  - cbn [build_scales].
    destruct (next_scale_ok w lst Hw) as (curr & -> & Hcurr).
    cbn [bind].
    destruct (IH (scales ++ [curr]) curr) as (out & Hrun & Hout & Hhd' & Hl & Ha).
    + intros Heq. now apply app_eq_nil in Heq as [_ Heq].
    + apply last_last.
    + destruct scales; [ contradiction | exact Hhd ].
    + rewrite length_app. cbn [List.length].
      assert (0 < List.length scales)%nat
        by (destruct scales; [ contradiction | cbn; lia ]).
      rewrite Hcurr, Hlen. nia.
    + apply Forall_app. split.
      * eapply Forall_impl; [ | exact Hall ].
        intros s (i & Hi & Hs). exists i. rewrite length_app. cbn. split; lia.
      * constructor; [ | constructor ].
        exists (List.length scales). rewrite length_app. cbn [List.length].
        assert (0 < List.length scales)%nat
          by (destruct scales; [ contradiction | cbn; lia ]).
        split; [ lia | ]. rewrite Hcurr, Hlen. nia.
    + exists out. rewrite Hrun. repeat split; auto.
      rewrite Hout, length_app. cbn. lia.
Qed.

(** What [_create_filters] returns for a window of at least one frame:
    [order + 1] kernels of the common odd length [2 * pad + 1], the first
    of which is the centred identity. *)
Lemma create_filters_spec (order w : Z) :
  (0 <= order)%Z -> (1 <= w)%Z ->
  let pad := (Z.to_nat w * Z.to_nat order)%nat in
  exists filters,
    _create_filters order w = Ok filters
    /\ List.length filters = (Z.to_nat order + 1)%nat
    /\ Forall (fun f => List.length f = (2 * pad + 1)%nat) filters
    /\ nth 0 filters [] = repeat 0 pad ++ [1] ++ repeat 0 pad.
Proof.
  intros Ho Hw pad. unfold _create_filters.
  destruct (build_scales_spec w (Z.to_nat order) Hw [[1]] [1])
    as (out & -> & Hlen & Hhd & Hlast & Hall); try reflexivity.
  - discriminate.
  - cbn. lia.
  - repeat constructor. exists 0%nat. cbn. split; lia.
  - cbn [bind List.length] in *. eexists. split; [ reflexivity | ].
    assert (Hmax : List.length (last out []) = (2 * pad + 1)%nat)
      by (rewrite Hlast, Hlen; subst pad; nia).
    unfold pad_scales. rewrite Hmax.
    assert (Hpad : forall s, In s out ->
                             List.length (pad_scale (2 * pad + 1) s)
                             = (2 * pad + 1)%nat).
    { intros s Hin. rewrite Forall_forall in Hall.
      destruct (Hall s Hin) as (i & Hi & Hs).
      unfold pad_scale. rewrite !length_app, !repeat_length, Hs.
      replace (2 * pad + 1 - (1 + 2 * Z.to_nat w * i))%nat
        with (2 * (Z.to_nat w * (Z.to_nat order - i)))%nat
        by (subst pad; nia).
      rewrite Nat.mul_comm, Nat.div_mul by lia. subst pad. nia. }
    split; [ | split ].
    + rewrite length_app, length_map, length_removelast. cbn. lia.
    + apply Forall_app. split.
      * apply Forall_map, Forall_forall. intros s Hin.
        apply Hpad. now apply in_removelast.
      * repeat constructor. exact Hmax.
    + destruct out as [ | s0 out]; [ cbn in Hlen; lia | ].
      cbn [hd] in Hhd. subst s0.
      destruct out as [ | s1 out].
      * cbn in Hmax. assert (pad = 0)%nat by lia.
        replace pad with 0%nat by lia. reflexivity.
      * cbn [removelast map app nth]. unfold pad_scale. cbn [List.length].
        replace ((2 * pad + 1 - 1) / 2)%nat with pad
          by (rewrite Nat.add_sub, Nat.mul_comm, Nat.div_mul; lia).
        reflexivity.
Qed.

(** *** Correlating a row with a kernel *)

Lemma dot_cons (a x : R) (k v : list R) :
  dot (a :: k) (x :: v) = a * x + dot k v.
Proof. reflexivity. Qed.

Lemma dot_zeros (n : nat) (v : list R) : dot (repeat 0 n) v = 0.
Proof.
  revert v. induction n as [ | n IH]; intros v; [ reflexivity | ].
  destruct v as [ | x v]; [ reflexivity | ].
  cbn [repeat]. rewrite dot_cons, IH. ring.
Qed.

(** A kernel that is zero except for a one at offset [p] reads entry [p]
    of the window it is laid over. *)
Lemma dot_unit (p q : nat) (v : list R) :
  dot (repeat 0 p ++ 1 :: repeat 0 q) v = nth p v 0.
Proof.
  revert v. induction p as [ | p IH]; intros v.
  - destruct v as [ | x v]; [ reflexivity | ].
    cbn [repeat app nth]. rewrite dot_cons, dot_zeros. ring.
  - destruct v as [ | x v]; [ reflexivity | ].
    cbn [repeat app nth]. rewrite dot_cons, IH. ring.
Qed.

Lemma map_nth_seq (row : list R) :
  map (fun w => nth w row 0) (seq 0 (List.length row)) = row.
Proof.
  induction row as [ | x row IH]; [ reflexivity | ].
  cbn [List.length seq map nth]. f_equal.
  rewrite <- seq_shift, map_map. exact IH.
Qed.

Lemma correlate_row_length (kernel : list R) (pad : nat) (row : list R) :
  List.length kernel = (2 * pad + 1)%nat ->
  (1 <= List.length row)%nat ->
  List.length (correlate_row kernel pad row) = List.length row.
Proof.
  intros Hk Hrow. unfold correlate_row.
  rewrite length_map, length_seq, !length_app, !repeat_length, Hk. lia.
Qed.

(** The centred identity kernel reproduces the row. *)
Lemma correlate_identity (pad : nat) (row : list R) :
  (1 <= List.length row)%nat ->
  correlate_row (repeat 0 pad ++ [1] ++ repeat 0 pad) pad row = row.
Proof.
  intros Hrow. unfold correlate_row.
  rewrite !length_app, !repeat_length. cbn [List.length].
  replace (pad + (List.length row + pad) - (pad + (1 + pad)) + 1)%nat
    with (List.length row) by lia.
  transitivity (map (fun w => nth w row 0) (seq 0 (List.length row)));
    [ | apply map_nth_seq ].
  apply map_ext_in. intros w Hw. apply in_seq in Hw.
  cbn [app]. rewrite dot_unit, nth_firstn.
  destruct (Nat.ltb_spec pad (pad + (1 + pad))) as [_ | Hge]; [ | lia ].
  rewrite nth_skipn, app_nth2 by (rewrite repeat_length; lia).
  rewrite repeat_length, app_nth1 by lia.
  f_equal. lia.
Qed.

(** *** Application *)

Lemma forward_by_time :
  forward delta_1_2 [frames_by_time]
  = Ok (Unbatched [[[1]; [2]; [4]]; [[0]; [0]; [0]]]).
Proof. eval_lists. solve_entries. Qed.

Lemma forward_by_feature :
  forward delta_1_2 [frames_by_feature]
  = Ok (Unbatched [[[1; 2; 4]]; [[1; 3 / 10; -4 / 10]]]).
Proof. eval_lists. solve_entries. Qed.

Lemma along_time_by_time :
  SpecWords.delta_along_time (filters delta_1_2) (snd (padding delta_1_2))
                             frames_by_time
  = [[[1]; [2]; [4]]; [[1]; [3 / 10]; [-4 / 10]]].
Proof. eval_lists. solve_entries. Qed.

(** C6, as stated, fails.  For the feature sequence 1, 2, 4 laid out
    (time x feature_dim), the default module returns a delta channel that
    is zero in every frame, where a bank run along the time axis gives
    1, 3/10, -4/10. *)
Lemma delta_not_along_time :
  init 1 2 false = Ok delta_1_2
  /\ forward delta_1_2 [frames_by_time]
     = Ok (Unbatched [[[1]; [2]; [4]]; [[0]; [0]; [0]]])
  /\ SpecWords.delta_along_time (filters delta_1_2) (snd (padding delta_1_2))
                                frames_by_time
     = [[[1]; [2]; [4]]; [[1]; [3 / 10]; [-4 / 10]]]
  /\ forward delta_1_2 [frames_by_time]
     <> Ok (Unbatched
              (SpecWords.delta_along_time (filters delta_1_2)
                                          (snd (padding delta_1_2))
                                          frames_by_time)).
Proof.
  split; [ apply init_1_2 | ].
  split; [ apply forward_by_time | ].
  split; [ apply along_time_by_time | ].
  rewrite forward_by_time, along_time_by_time.
  intros Heq. injection Heq as Heq. lra.
Qed.

(** A module built for a window of at least one frame. *)
Lemma init_bank (order w : Z) (flag : bool) :
  (0 <= order)%Z -> (1 <= w)%Z ->
  let pad := (Z.to_nat w * Z.to_nat order)%nat in
  exists self,
    init order w flag = Ok self
    /\ batch self = flag
    /\ padding self = (0%nat, pad)
    /\ List.length (filters self) = (Z.to_nat order + 1)%nat
    /\ Forall (fun f => List.length f = (2 * pad + 1)%nat) (filters self)
    /\ nth 0 (filters self) [] = repeat 0 pad ++ [1] ++ repeat 0 pad.
Proof.
  intros Ho Hw pad.
  destruct (create_filters_spec order w Ho Hw)
    as (fs & Hfs & Hlen & Hall & Hfirst).
  fold pad in Hall, Hfirst.
  unfold init. rewrite Hfs. cbn [bind].
  eexists. split; [ reflexivity | ]. cbn [batch padding filters].
  split; [ reflexivity | ].
  split.
  - f_equal. rewrite Hfirst, !length_app, !repeat_length. cbn [List.length].
    replace (pad + (1 + pad) - 1)%nat with (pad * 2)%nat by lia.
    apply Nat.div_mul. lia.
  - repeat split; assumption.
Qed.

(** The convolution of one plane with a bank of kernels of the common
    length [2 * pad + 1] under the padding [(0, pad)]. *)
Lemma conv_bank (fs : list (list R)) (pad W : nat) (plane : list (list R)) :
  fs <> [] ->
  Forall (fun f => List.length f = (2 * pad + 1)%nat) fs ->
  plane <> [] -> (1 <= W)%nat ->
  Forall (fun row => List.length row = W) plane ->
  conv2d_plane fs (0%nat, pad) plane
  = Ok (map (fun kernel => map (correlate_row kernel pad) plane) fs).
Proof.
  intros Hfs Hall Hne HW Hrect.
  assert (Hk : List.length (nth 0 fs []) = (2 * pad + 1)%nat).
  { destruct fs as [ | f0 fs]; [ contradiction | ]. now inversion Hall. }
  assert (Hrow0 : List.length (nth 0 plane []) = W).
  { destruct plane as [ | r plane]; [ contradiction | ].
    now inversion Hrect. }
  unfold conv2d_plane. cbn [fst snd]. rewrite Hrow0, Hk.
  destruct (Nat.ltb_spec (List.length plane + 2 * 0) 1) as [Hlt | _].
  { destruct plane; [ contradiction | cbn in Hlt; lia ]. }
  destruct (Nat.ltb_spec (W + 2 * pad) (2 * pad + 1)) as [Hlt | _]; [ lia | ].
  cbn [orb repeat app]. now rewrite app_nil_r.
Qed.

Lemma conv_bank_batch (fs : list (list R)) (pad W : nat)
  (planes : list (list (list R))) :
  fs <> [] ->
  Forall (fun f => List.length f = (2 * pad + 1)%nat) fs ->
  (1 <= W)%nat ->
  Forall (fun plane => plane <> []
                       /\ Forall (fun row => List.length row = W) plane)
         planes ->
  conv2d_batch fs (0%nat, pad) planes
  = Ok (map (fun plane =>
               map (fun kernel => map (correlate_row kernel pad) plane) fs)
            planes).
Proof.
  intros Hfs Hall HW Hplanes.
  induction Hplanes as [ | plane planes [Hne Hrect] _ IH]; [ reflexivity | ].
  cbn [conv2d_batch map].
  rewrite (conv_bank fs pad W plane) by assumption.
  cbn [bind]. now rewrite IH.
Qed.

(** The shape of the bank's output on one plane, and its first channel. *)
Lemma bank_output (fs : list (list R)) (pad W : nat) (plane : list (list R)) :
  Forall (fun f => List.length f = (2 * pad + 1)%nat) fs ->
  nth 0 fs [] = repeat 0 pad ++ [1] ++ repeat 0 pad ->
  fs <> [] -> (1 <= W)%nat ->
  Forall (fun row => List.length row = W) plane ->
  let out := map (fun kernel => map (correlate_row kernel pad) plane) fs in
  List.length out = List.length fs
  /\ Forall (fun ch => List.length ch = List.length plane
                       /\ Forall (fun row => List.length row = W) ch) out
  /\ nth 0 out [] = plane.
Proof.
  intros Hall Hfirst Hfs HW Hrect out. subst out.
  split; [ now rewrite length_map | ].
  split.
  - apply Forall_map. eapply Forall_impl; [ | exact Hall ].
    intros kernel Hkernel. split; [ now rewrite length_map | ].
    apply Forall_map. eapply Forall_impl; [ | exact Hrect ].
    intros row Hrow. cbn beta in *.
    rewrite (correlate_row_length kernel pad row Hkernel) by lia.
    exact Hrow.
  - destruct fs as [ | f0 fs]; [ contradiction | ].
    cbn [map nth] in *. rewrite Hfirst.
    rewrite <- (map_id plane) at 2. apply map_ext_in.
    intros row Hin. apply correlate_identity.
    rewrite Forall_forall in Hrect. rewrite (Hrect row Hin). exact HW.
Qed.

(** C6, amended.  For every order [>= 0] and window [>= 1] the module can
    be built.  Without batching, on every non-empty rectangular input (H
    rows of W >= 1 entries, behind the leading axis of size one)
    [forward] returns [order + 1] channels of the same H x W shape; each
    output row is the input row of the same index cross-correlated with
    that channel's kernel under zero padding, so the bank runs along the
    last axis and the rows of the other axis never mix; channel 0 is the
    input itself.  With batching, on a non-empty batch of such planes,
    [forward] returns one such stack of [order + 1] channels for every
    entry of the batch. *)
Theorem delta_forward_last_axis (order w : Z) (plane : list (list R))
  (planes : list (list (list R))) (W : nat) :
  (0 <= order)%Z -> (1 <= w)%Z -> (1 <= W)%nat ->
  plane <> [] ->
  Forall (fun row => List.length row = W) plane ->
  planes <> [] ->
  Forall (fun p => p <> [] /\ Forall (fun row => List.length row = W) p)
         planes ->
  (exists self out,
      init order w false = Ok self
      /\ forward self [plane] = Ok (Unbatched out)
      /\ out = map (fun kernel =>
                      map (correlate_row kernel (snd (padding self))) plane)
                   (filters self)
      /\ List.length out = (Z.to_nat order + 1)%nat
      /\ Forall (fun ch => List.length ch = List.length plane
                           /\ Forall (fun row => List.length row = W) ch) out
      /\ nth 0 out [] = plane)
  /\ (exists self outs,
         init order w true = Ok self
         /\ forward self planes = Ok (Batched outs)
         /\ outs = map (fun p =>
                          map (fun kernel =>
                                 map (correlate_row kernel
                                                    (snd (padding self))) p)
                              (filters self))
                       planes
         /\ List.length outs = List.length planes
         /\ Forall (fun out => List.length out = (Z.to_nat order + 1)%nat)
                   outs).
Proof.
  intros Ho Hw HW Hne Hrect _ Hplanes. split.
  - destruct (init_bank order w false Ho Hw)
      as (self & Hinit & Hflag & Hpad & Hlen & Hall & Hfirst).
    assert (Hfs : filters self <> [])
      by (destruct (filters self); [ cbn in Hlen; lia | discriminate ]).
    exists self. eexists. split; [ exact Hinit | ].
    unfold forward. rewrite Hflag, Hpad. cbn [snd].
    rewrite (conv_bank (filters self) _ W plane) by assumption.
    cbn [bind]. split; [ reflexivity | ]. split; [ reflexivity | ].
    destruct (bank_output (filters self) _ W plane Hall Hfirst Hfs HW Hrect)
      as (Hl & Hshape & Hid).
    rewrite Hlen in Hl. repeat split; assumption.
  - destruct (init_bank order w true Ho Hw)
      as (self & Hinit & Hflag & Hpad & Hlen & Hall & Hfirst).
    assert (Hfs : filters self <> [])
      by (destruct (filters self); [ cbn in Hlen; lia | discriminate ]).
    exists self. eexists. split; [ exact Hinit | ].
    unfold forward. rewrite Hflag, Hpad. cbn [snd].
    rewrite (conv_bank_batch (filters self) _ W planes) by assumption.
    cbn [bind]. split; [ reflexivity | ]. split; [ reflexivity | ].
    split; [ now rewrite length_map | ].
    apply Forall_map, Forall_forall. intros p _.
    now rewrite length_map.
Qed.

Lemma delta_forward_last_axis_witness :
  (exists self out,
      init 1 2 false = Ok self
      /\ forward self [frames_by_feature] = Ok (Unbatched out)
      /\ List.length out = 2%nat
      /\ nth 0 out [] = frames_by_feature)
  /\ (exists self outs,
         init 1 2 true = Ok self
         /\ forward self [frames_by_feature; frames_by_feature]
            = Ok (Batched outs)
         /\ List.length outs = 2%nat).
Proof.
  destruct (delta_forward_last_axis 1 2 frames_by_feature
              [frames_by_feature; frames_by_feature] 3)
    as [(self & out & Hinit & Hrun & _ & Hlen & _ & Hid)
        (self' & outs & Hinit' & Hrun' & _ & Hlen' & _)].
  - lia.
  - lia.
  - lia.
  - discriminate.
  - repeat constructor.
  - discriminate.
  - repeat constructor; discriminate.
  - split.
    + exists self, out. repeat split; assumption.
    + exists self', outs. repeat split; assumption.
Defined.

End DeltaProps.
(** ** CMVN *)

Module CmvnProps.

Import Cmvn.

Lemma init_global (dim : Z) (eps : R) :
  init "global" dim eps = Ok {| mode := "global"; dim := dim; eps := eps |}.
Proof. reflexivity. Qed.

Lemma init_other (m : string) (dim : Z) (eps : R) :
  m <> "global"%string -> init m dim eps = Raise NotImplementedError.
Proof.
  intros Hne. unfold init.
  destruct (String.eqb_spec m "global") as [Heq | _]; [ contradiction | ].
  reflexivity.
Qed.

Lemma init_ok_mode (m : string) (dim : Z) (eps : R) (self : CMVN) :
  init m dim eps = Ok self ->
  m = "global"%string /\ mode self = "global"%string /\ eps = Cmvn.eps self.
Proof.
  unfold init. destruct (String.eqb_spec m "global") as [-> | Hne];
    cbn [negb]; [ | discriminate ].
  intros Hok. injection Hok as <-. repeat split.
Qed.

(** C9.  Building a CMVN with a mode other than "global" raises
    [NotImplementedError]; building it with "global" succeeds; and
    [forward] raises nothing for any module value and input: on a module
    that was built it returns the normalised lanes. *)
Theorem cmvn_mode_checked_at_construction :
  (forall (m : string) (dim : Z) (eps : R),
      m <> "global"%string -> init m dim eps = Raise NotImplementedError)
  /\ (forall (dim : Z) (eps : R),
         init "global" dim eps
         = Ok {| mode := "global"; dim := dim; eps := eps |})
  /\ (forall (self : CMVN) (x : list (list R)),
         exists v, forward self x = Ok v)
  /\ (forall (m : string) (dim : Z) (eps : R) (self : CMVN)
             (x : list (list R)),
         init m dim eps = Ok self ->
         forward self x = Ok (Some (map (normalize_lane eps) x))).
Proof.
  split; [ exact init_other | ].
  split; [ exact init_global | ].
  split.
  - intros self x. unfold forward.
    destruct (String.eqb (mode self) "global"); eexists; reflexivity.
  - intros m dim eps self x Hinit.
    destruct (init_ok_mode m dim eps self Hinit) as (_ & Hmode & ->).
    unfold forward. now rewrite Hmode.
Qed.

Lemma cmvn_mode_checked_at_construction_witness :
  init "utterance" 2 1e-10 = Raise NotImplementedError
  /\ forward {| mode := "global"; dim := 2; eps := 1e-10 |} [[1; 3]]
     = Ok (Some (map (normalize_lane 1e-10) [[1; 3]])).
Proof.
  destruct cmvn_mode_checked_at_construction as (Hother & _ & _ & Hrun).
  split.
  - apply (Hother "utterance"%string 2%Z 1e-10). discriminate.
  - apply (Hrun "global"%string 2%Z 1e-10). reflexivity.
Defined.

End CmvnProps.

(** ** Mel filterbank *)

Module MelProps.

Import FrequencyScale MelFilterbank.

Ltac eval_lists :=
  cbv - [Rplus Rminus Rmult Rdiv Rinv Ropp IZR Rmax Rmin sqrt ln exp
         hz_to_mel mel_to_hz Req_dec_T Rlt_dec Rle_dec].

Ltac solve_entries := repeat (f_equal; try lra).

Lemma hz_to_mel_below (f : R) :
  f < 1000 -> hz_to_mel f false = f / (200 / 3).
Proof.
  intros Hf. unfold hz_to_mel, min_log_hz, hz_to_mel_linear, f_min, f_sp.
  destruct (Rle_dec 1000 f); [ lra | ]. f_equal. ring.
Qed.

Lemma mel_to_hz_below (m : R) :
  m < 15 -> mel_to_hz m false = 200 / 3 * m.
Proof.
  intros Hm. unfold mel_to_hz. rewrite ScaleProps.min_log_mel_val.
  unfold f_min, f_sp. destruct (Rle_dec 15 m); [ lra | ]. ring.
Qed.

Example mel_f_800 : mel_frequencies 3 0 400 false = Ok [0; 200; 400].
Proof.
  unfold mel_frequencies. rewrite !hz_to_mel_below by lra.
  eval_lists. f_equal.
  repeat (f_equal; try (rewrite mel_to_hz_below; lra)).
Qed.

Lemma norm_one_supported :
  norm_unsupported (NormNum 1) = false /\ norm_is_one (NormNum 1) = true.
Proof.
  unfold norm_unsupported, norm_is_one.
  destruct (Req_dec_T 1 1); [ split; reflexivity | contradiction ].
Qed.

(** Evaluate [Rmin]/[Rmax] on closed arguments, innermost first. *)
Ltac eval_minmax :=
  repeat match goal with
         | |- context [Rmin ?a ?b] =>
             first [ rewrite (Rmin_left a b) by lra
                   | rewrite (Rmin_right a b) by lra ]
         | |- context [Rmax ?a ?b] =>
             first [ rewrite (Rmax_left a b) by lra
                   | rewrite (Rmax_right a b) by lra ]
         end.

(** Equality of two results holding matrices of closed real expressions. *)
Ltac row_eq := repeat (apply (f_equal2 (@cons R)); [ lra | ]); reflexivity.
Ltac rows_eq :=
  apply (f_equal (@Ok (list (list R))));
  repeat (apply (f_equal2 (@cons (list R))); [ row_eq | ]); reflexivity.

Example fft_frequencies_800 : fft_frequencies 800 4 = Ok [0; 200; 400].
Proof. eval_lists. solve_entries. Qed.

Example filterbank_800 :
  create_mel_filterbank 800 4 1 0 None false (NormNum 1)
  = Ok [[0; 1 / 200; 0]].
Proof.
  unfold create_mel_filterbank.
  destruct norm_one_supported as [-> ->].
  replace (800 / 2) with 400 by lra.
  change (1 + 2)%Z with 3%Z.
  rewrite mel_f_800, fft_frequencies_800.
  eval_lists.
  destruct (Req_dec_T 0 0) as [_ | Hne]; [ | contradiction ].
  eval_minmax. rows_eq.
Qed.

(** *** The structure of [create_mel_filterbank] *)

Lemma linspace_ok (a b : R) (num : Z) :
  (0 <= num)%Z ->
  exists l, linspace a b num = Ok l /\ List.length l = Z.to_nat num.
Proof.
  intros Hnum. unfold linspace.
  destruct (Z.ltb_spec num 0) as [Hneg | _]; [ lia | ].
  eexists. split; [ reflexivity | ].
  set (y := match (Z.to_nat num - 1)%nat with
            | O => _
            | S _ => _
            end).
  assert (Hy : List.length y = Z.to_nat num).
  { subst y. destruct (Z.to_nat num - 1)%nat;
      now rewrite length_map, length_seq. }
  destruct (Nat.ltb_spec 1 (Z.to_nat num)) as [Hgt | _]; [ | exact Hy ].
  rewrite length_app, length_removelast, Hy. cbn. lia.
Qed.

Lemma linspace_neg (a b : R) (num : Z) :
  (num < 0)%Z -> linspace a b num = Raise ValueError.
Proof.
  intros Hnum. unfold linspace.
  destruct (Z.ltb_spec num 0); [ reflexivity | lia ].
Qed.

Lemma set_row_prefix (k : nat) (row : list R) (done rest : list (list R))
  (old : list R) :
  List.length done = k ->
  set_row k row (done ++ old :: rest) = (done ++ [row]) ++ rest.
Proof.
  intros <-. unfold set_row.
  rewrite nth_error_app2 by lia. rewrite Nat.sub_diag. cbn [nth_error].
  rewrite firstn_app, firstn_all, Nat.sub_diag. cbn [firstn].
  rewrite app_nil_r.
  replace (S (List.length done)) with (List.length done + 1)%nat by lia.
  rewrite skipn_app, skipn_all2 by lia.
  replace (List.length done + 1 - List.length done)%nat with 1%nat by lia.
  cbn [skipn app]. now rewrite <- app_assoc.
Qed.

(** The loop over bands overwrites row [i] with the triangle of band [i],
    for every row of the zero matrix it starts from. *)
Lemma fill_rows_prefix (fdiff : list R) (ramps : list (list R)) (k : nat) :
  forall (w : list (list R)),
    (k <= List.length w)%nat ->
    fold_left (fun w i => set_row i (band_row fdiff ramps i) w) (seq 0 k) w
    = map (band_row fdiff ramps) (seq 0 k) ++ skipn k w.
Proof.
  induction k as [ | k IH]; intros w Hk.
  - reflexivity.
  - rewrite seq_S, fold_left_app, map_app. cbn [fold_left map Nat.add].
    rewrite IH by lia.
    destruct (skipn k w) as [ | old rest] eqn:Hskip.
    + apply (f_equal (@List.length _)) in Hskip.
      rewrite length_skipn in Hskip. cbn in Hskip. lia.
    + rewrite set_row_prefix by now rewrite length_map, length_seq.
      f_equal.
      replace (S k) with (1 + k)%nat by lia.
      rewrite <- skipn_skipn, Hskip. reflexivity.
Qed.

Lemma fill_rows_spec (fdiff : list R) (ramps : list (list R))
  (n : nat) (w : list (list R)) :
  List.length w = n ->
  fill_rows fdiff ramps n w = map (band_row fdiff ramps) (seq 0 n).
Proof.
  intros Hlen. unfold fill_rows.
  rewrite fill_rows_prefix by lia.
  rewrite skipn_all2 by lia. apply app_nil_r.
Qed.

Lemma combine_map_same {A B C : Type} (f : A -> B) (g : A -> C)
  (l : list A) :
  combine (map f l) (map g l) = map (fun x => (f x, g x)) l.
Proof. induction l as [ | x l IH]; cbn; [ | rewrite IH ]; reflexivity. Qed.

Lemma firstn_as_map (n : nat) :
  forall l : list R,
    (n <= List.length l)%nat ->
    firstn n l = map (fun i => nth i l 0) (seq 0 n).
Proof.
  induction n as [ | n IH]; intros l Hn; [ reflexivity | ].
  destruct l as [ | x l]; [ cbn in Hn; lia | ].
  cbn [firstn seq map nth]. f_equal.
  rewrite <- seq_shift, map_map. apply IH. cbn in Hn. lia.
Qed.

Lemma enorm_as_map (mel_f : list R) (n : nat) :
  (n + 2 <= List.length mel_f)%nat ->
  enorm mel_f n
  = map (fun i => 2 / (nth (i + 2) mel_f 0 - nth i mel_f 0)) (seq 0 n).
Proof.
  intros Hlen. unfold enorm.
  rewrite (firstn_as_map n mel_f) by lia.
  rewrite (firstn_as_map n (skipn 2 mel_f)) by (rewrite length_skipn; lia).
  rewrite combine_map_same, map_map. apply map_ext. intros i. cbn [fst snd].
  rewrite nth_skipn. now rewrite (Nat.add_comm 2 i).
Qed.

Lemma scale_rows_as_map (f : nat -> list R) (g : nat -> R) (n : nat) :
  scale_rows (map f (seq 0 n)) (map g (seq 0 n))
  = map (fun i => map (fun v => v * g i) (f i)) (seq 0 n).
Proof.
  unfold scale_rows. rewrite combine_map_same, map_map. reflexivity.
Qed.

Lemma nth_map_seq {A : Type} (f : nat -> A) (n i : nat) (d : A) :
  (i < n)%nat -> nth i (map f (seq 0 n)) d = f i.
Proof.
  intros Hi.
  rewrite (nth_indep _ d (f 0%nat)) by now rewrite length_map, length_seq.
  rewrite map_nth, seq_nth by lia. reflexivity.
Qed.

Lemma rsum_scale (c : R) (row : list R) :
  rsum (map (fun v => v * c) row) = rsum row * c.
Proof.
  induction row as [ | x row IH]; cbn; [ ring | ].
  unfold rsum in IH. rewrite IH. ring.
Qed.

(** Once the arguments pass the allocation, the weights are the triangles
    of the bands over the Hz grid [mel_f], scaled row by row under area
    normalisation; what is left is the reduction and the empty-channel
    test. *)
Lemma filterbank_run (sr : R) (n_fft n_mels : Z) (fmin : R)
  (fmax : option R) (htk : bool) (norm : norm_t) :
  norm_unsupported norm = false ->
  (0 <= n_mels)%Z -> (0 <= 1 + n_fft / 2)%Z ->
  exists fftfreqs mels,
    fft_frequencies sr n_fft = Ok fftfreqs
    /\ linspace (hz_to_mel fmin htk)
                (hz_to_mel (match fmax with None => sr / 2 | Some v => v end)
                           htk)
                (n_mels + 2) = Ok mels
    /\ List.length mels = (Z.to_nat n_mels + 2)%nat
    /\ create_mel_filterbank sr n_fft n_mels fmin fmax htk norm
       = (let mel_f := mel_to_hz_array mels htk in
          let tri := map (band_row (np_diff mel_f)
                                   (subtract_outer mel_f fftfreqs))
                         (seq 0 (Z.to_nat n_mels)) in
          let weights :=
            if norm_is_one norm
            then scale_rows tri (enorm mel_f (Z.to_nat n_mels))
            else tri in
          rowmax <- max_axis1 (1 + n_fft / 2) weights ;;
          if negb (no_empty_channel mel_f rowmax)
          then Raise (NameError "warnings")
          else Ok weights).
Proof.
  intros Hnorm Hmels Hcols.
  destruct (linspace_ok 0 (sr / 2) (1 + n_fft / 2) Hcols)
    as (fftfreqs & Hfft & _).
  change (fft_frequencies sr n_fft = Ok fftfreqs) in Hfft.
  destruct (linspace_ok
              (hz_to_mel fmin htk)
              (hz_to_mel (match fmax with None => sr / 2 | Some v => v end) htk)
              (n_mels + 2)) as (mels & Hlin & Hlen); [ lia | ].
  exists fftfreqs, mels. split; [ exact Hfft | ].
  split; [ exact Hlin | ]. split; [ rewrite Hlen; lia | ].
  unfold create_mel_filterbank. rewrite Hnorm.
  unfold np_zeros.
  destruct (Z.ltb_spec n_mels 0) as [Hneg | _]; [ lia | ].
  destruct (Z.ltb_spec (1 + n_fft / 2) 0) as [Hneg | _]; [ lia | ].
  cbn [orb bind]. rewrite Hfft. cbn [bind].
  unfold mel_frequencies. rewrite Hlin. cbn [bind].
  rewrite fill_rows_spec by apply repeat_length.
  reflexivity.
Qed.

(** With no bands the loop body never runs and the result is the empty
    matrix. *)
Lemma filterbank_zero_bands (sr : R) (n_fft : Z) (fmin : R)
  (fmax : option R) (htk : bool) (norm : norm_t) :
  norm_unsupported norm = false ->
  (0 <= n_fft)%Z ->
  create_mel_filterbank sr n_fft 0 fmin fmax htk norm = Ok [].
Proof.
  intros Hnorm Hfft.
  assert (Hcols : (1 <= 1 + n_fft / 2)%Z).
  { pose proof (Z.div_pos n_fft 2 Hfft). lia. }
  destruct (filterbank_run sr n_fft 0 fmin fmax htk norm Hnorm)
    as (fftfreqs & mels & _ & _ & _ & ->); try lia.
  cbn [Z.to_nat seq map scale_rows enorm firstn combine].
  replace (if norm_is_one norm then [] else []) with (@nil (list R))
    by now destruct (norm_is_one norm).
  unfold max_axis1.
  destruct (Z.eqb_spec (1 + n_fft / 2) 0) as [Heq | _]; [ lia | ].
  cbn [bind map]. unfold no_empty_channel.
  rewrite combine_nil. reflexivity.
Qed.

Lemma filterbank_negative_bands (sr : R) (n_fft : Z) (p : positive)
  (fmin : R) (fmax : option R) (htk : bool) (norm : norm_t) :
  norm_unsupported norm = false ->
  create_mel_filterbank sr n_fft (Z.neg p) fmin fmax htk norm
  = Raise ValueError.
Proof. intros Hnorm. unfold create_mel_filterbank. now rewrite Hnorm. Qed.

(** *** Area normalisation *)

Example filterbank_800_peak :
  create_mel_filterbank 800 4 1 0 None false NormNone = Ok [[0; 1; 0]].
Proof.
  unfold create_mel_filterbank. cbn [norm_unsupported norm_is_one].
  replace (800 / 2) with 400 by lra.
  change (1 + 2)%Z with 3%Z.
  rewrite mel_f_800, fft_frequencies_800.
  eval_lists.
  destruct (Req_dec_T 0 0) as [_ | Hne]; [ | contradiction ].
  eval_minmax. rows_eq.
Qed.

Example mel_domain_enorm_800 :
  SpecWords.mel_domain_enorm 1 0 400 false = Ok [2 / 6].
Proof.
  unfold SpecWords.mel_domain_enorm. rewrite !hz_to_mel_below by lra.
  eval_lists. apply (f_equal (@Ok (list R))).
  apply (f_equal2 (@cons R)); [ lra | reflexivity ].
Qed.

(** C5, as stated, fails.  For [sr = 800], [n_fft = 4] and one band the
    band edges are 0 and 400 Hz, that is 0 and 6 mel.  The area-normalised
    row is the triangle [0, 1, 0] times [2/400], not times the mel-domain
    factor [2/6], and its sum times the mel bandwidth is [6/200], not 2. *)
Lemma area_norm_not_mel_width :
  create_mel_filterbank 800 4 1 0 None false (NormNum 1)
  = Ok [[0; 1 / 200; 0]]
  /\ create_mel_filterbank 800 4 1 0 None false NormNone = Ok [[0; 1; 0]]
  /\ hz_to_mel 400 false - hz_to_mel 0 false = 6
  /\ SpecWords.mel_domain_enorm 1 0 400 false = Ok [2 / 6]
  /\ scale_rows [[0; 1; 0]] [2 / 6] <> [[0; 1 / 200; 0]]
  /\ rsum [0; 1 / 200; 0] * (hz_to_mel 400 false - hz_to_mel 0 false) <> 2.
Proof.
  split; [ exact filterbank_800 | ].
  split; [ exact filterbank_800_peak | ].
  split; [ rewrite !hz_to_mel_below by lra; lra | ].
  split; [ exact mel_domain_enorm_800 | ].
  split.
  - cbn. intros Heq. injection Heq as _ Heq _. lra.
  - rewrite !hz_to_mel_below by lra. cbn. lra.
Qed.

(** C5, amended.  Whenever [create_mel_filterbank] returns under area
    normalisation, row [i] of the result is the triangle of band [i]
    scaled by [2 / (right - left)], where [left] and [right] are the
    band's edge frequencies in Hz: points [i] and [i + 2] of the uniform
    mel grid after conversion back to Hz.  Hence the row's sum times the
    band's width in Hz is twice the sum of the unscaled triangle. *)
Theorem area_norm_scales_by_hz_width (sr : R) (n_fft n_mels : Z) (fmin : R)
  (fmax : option R) (htk : bool) (w : list (list R)) :
  create_mel_filterbank sr n_fft n_mels fmin fmax htk (NormNum 1) = Ok w ->
  exists fftfreqs mels,
    fft_frequencies sr n_fft = Ok fftfreqs
    /\ linspace (hz_to_mel fmin htk)
                (hz_to_mel (match fmax with None => sr / 2 | Some v => v end)
                           htk)
                (n_mels + 2) = Ok mels
    /\ List.length w = Z.to_nat n_mels
    /\ forall i : nat,
         (i < Z.to_nat n_mels)%nat ->
         let mel_f := mel_to_hz_array mels htk in
         let triangle :=
           band_row (np_diff mel_f) (subtract_outer mel_f fftfreqs) i in
         let left := mel_to_hz (nth i mels 0) htk in
         let right := mel_to_hz (nth (i + 2) mels 0) htk in
         nth i w [] = map (fun v => v * (2 / (right - left))) triangle
         /\ (right <> left ->
             rsum (nth i w []) * (right - left) = 2 * rsum triangle).
Proof.
  intros Hrun.
  destruct norm_one_supported as [Hsup Hone].
  assert (Hmels : (0 <= n_mels)%Z).
  { destruct (Z.ltb_spec n_mels 0) as [Hneg | ]; [ | assumption ].
    unfold create_mel_filterbank in Hrun. rewrite Hsup in Hrun.
    unfold np_zeros in Hrun.
    destruct (Z.ltb_spec n_mels 0); [ discriminate | lia ]. }
  assert (Hcols : (0 <= 1 + n_fft / 2)%Z).
  { destruct (Z.ltb_spec (1 + n_fft / 2) 0) as [Hneg | ]; [ | assumption ].
    unfold create_mel_filterbank in Hrun. rewrite Hsup in Hrun.
    unfold np_zeros in Hrun.
    destruct (Z.ltb_spec (1 + n_fft / 2) 0); [ | lia ].
    rewrite orb_true_r in Hrun. discriminate. }
  destruct (filterbank_run sr n_fft n_mels fmin fmax htk (NormNum 1)
              Hsup Hmels Hcols)
    as (fftfreqs & mels & Hfft & Hlin & Hlen & Heq).
  rewrite Heq, Hone in Hrun. cbv zeta in Hrun.
  exists fftfreqs, mels. split; [ exact Hfft | ]. split; [ exact Hlin | ].
  set (mel_f := mel_to_hz_array mels htk) in *.
  assert (Hlen_f : List.length mel_f = (Z.to_nat n_mels + 2)%nat)
    by (subst mel_f; unfold mel_to_hz_array; now rewrite length_map).
  rewrite enorm_as_map, scale_rows_as_map in Hrun by lia.
  destruct (max_axis1 _ _) as [rowmax | e]; cbn [bind] in Hrun;
    [ | discriminate ].
  destruct (negb _); [ discriminate | ].
  injection Hrun as <-.
  split; [ now rewrite length_map, length_seq | ].
  intros i Hi. cbv zeta.
  assert (Hnth : forall k, (k < Z.to_nat n_mels + 2)%nat ->
                           nth k mel_f 0 = mel_to_hz (nth k mels 0) htk).
  { intros k Hk. subst mel_f. unfold mel_to_hz_array.
    rewrite (nth_indep _ 0 (mel_to_hz 0 htk)) by (rewrite length_map; lia).
    apply (map_nth (fun m => mel_to_hz m htk)). }
  rewrite nth_map_seq by exact Hi.
  rewrite !Hnth by lia.
  split; [ reflexivity | ].
  intros Hne. rewrite rsum_scale. field. lra.
Qed.

Lemma area_norm_scales_by_hz_width_witness :
  exists fftfreqs mels,
    fft_frequencies 800 4 = Ok fftfreqs
    /\ linspace (hz_to_mel 0 false) (hz_to_mel (800 / 2) false) (1 + 2)
       = Ok mels
    /\ List.length [[0; 1 / 200; 0]] = Z.to_nat 1.
Proof.
  destruct (area_norm_scales_by_hz_width 800 4 1 0 None false
              [[0; 1 / 200; 0]] filterbank_800)
    as (fftfreqs & mels & Hfft & Hlin & Hlen & _).
  exists fftfreqs, mels. repeat split; assumption.
Defined.

(** *** Arguments that are not checked *)

Example filterbank_inverted_range :
  create_mel_filterbank 800 4 1 400 (Some 0) false NormNone
  = Ok [[0; 1; 0]].
Proof.
  unfold create_mel_filterbank. cbn [norm_unsupported norm_is_one].
  change (1 + 2)%Z with 3%Z.
  rewrite fft_frequencies_800. unfold mel_frequencies.
  rewrite !hz_to_mel_below by lra.
  eval_lists.
  repeat (rewrite mel_to_hz_below by lra).
  eval_minmax.
  destruct (Req_dec_T _ 0) as [Heq | _]; [ lra | ].
  destruct (Rlt_dec 0 _) as [_ | Hn]; [ | exfalso; apply Hn; lra ].
  cbn. rows_eq.
Qed.

(** Under the default area normalisation the same inverted range makes
    every weight non-positive, the empty-channel test fires, and the
    warning it wants to emit goes through the unbound name [warnings]. *)
Example filterbank_inverted_range_area :
  create_mel_filterbank 800 4 1 400 (Some 0) false (NormNum 1)
  = Raise (NameError "warnings").
Proof.
  unfold create_mel_filterbank.
  destruct norm_one_supported as [-> ->].
  change (1 + 2)%Z with 3%Z.
  rewrite fft_frequencies_800. unfold mel_frequencies.
  rewrite !hz_to_mel_below by lra.
  eval_lists.
  repeat (rewrite mel_to_hz_below by lra).
  eval_minmax.
  destruct (Req_dec_T _ 0) as [Heq | _]; [ lra | ].
  destruct (Rlt_dec 0 _) as [Hpos | _]; [ lra | ].
  reflexivity.
Qed.

(** C8, as stated, fails: the extractor's own call with zero mel bins
    returns the empty matrix, and an inverted frequency range returns a
    filterbank; neither raises. *)
Lemma degenerate_filterbank_not_rejected :
  create_mel_filterbank 16000 1025 0 0 None false (NormNum 1) = Ok []
  /\ create_mel_filterbank 800 4 1 400 (Some 0) false NormNone
     = Ok [[0; 1; 0]].
Proof.
  split.
  - apply filterbank_zero_bands; [ apply norm_one_supported | lia ].
  - exact filterbank_inverted_range.
Qed.

(** C8, amended.  [create_mel_filterbank] has no check of its own on the
    band count or on the frequency range.  With a supported [norm] and
    [n_fft >= 0], a band count of zero returns the empty matrix; a
    negative band count raises [ValueError] when the weight array is
    allocated; and a range with [fmin > fmax] can return a filterbank. *)
Theorem filterbank_arguments_unchecked :
  (forall (sr : R) (n_fft : Z) (fmin : R) (fmax : option R) (htk : bool)
          (norm : norm_t),
      norm_unsupported norm = false ->
      (0 <= n_fft)%Z ->
      create_mel_filterbank sr n_fft 0 fmin fmax htk norm = Ok [])
  /\ (forall (sr : R) (n_fft n_mels : Z) (fmin : R) (fmax : option R)
             (htk : bool) (norm : norm_t),
         norm_unsupported norm = false ->
         (n_mels < 0)%Z ->
         create_mel_filterbank sr n_fft n_mels fmin fmax htk norm
         = Raise ValueError)
  /\ create_mel_filterbank 800 4 1 400 (Some 0) false NormNone
     = Ok [[0; 1; 0]].
Proof.
  split; [ exact filterbank_zero_bands | ].
  split; [ | exact filterbank_inverted_range ].
  intros sr n_fft n_mels fmin fmax htk norm Hnorm Hneg.
  destruct n_mels as [ | p | p]; try lia.
  now apply filterbank_negative_bands.
Qed.

Lemma filterbank_arguments_unchecked_witness :
  create_mel_filterbank 16000 1025 0 0 None false NormNone = Ok []
  /\ create_mel_filterbank 16000 1025 (-1) 0 None false NormNone
     = Raise ValueError.
Proof.
  destruct filterbank_arguments_unchecked as (Hzero & Hneg & _).
  split.
  - apply (Hzero 16000 1025%Z 0 None false NormNone); [ reflexivity | lia ].
  - apply (Hneg 16000 1025%Z (-1)%Z 0 None false NormNone);
      [ reflexivity | lia ].
Defined.

End MelProps.
(* ================================================================== *)
(** * Further properties of the components *)
(* ================================================================== *)

(** ** Frequency scale: order and the other round trip *)

Module ScaleOrder.

Import FrequencyScale.

Lemma ln_ratio_nonneg (f : R) : 1000 <= f -> 0 <= ln (f / 1000).
Proof.
  intros Hf. rewrite <- ln_1. destruct (Req_dec f 1000) as [-> | Hne].
  - right. f_equal. field.
  - left. apply ln_increasing; lra.
Qed.

Lemma hz_to_mel_at_least_knee (f : R) :
  1000 <= f -> hz_to_mel f false = hz_to_mel_log f /\ 15 <= hz_to_mel_log f.
Proof.
  intros Hf. unfold hz_to_mel, min_log_hz.
  destruct (Rle_dec 1000 f) as [_ | Hlt]; [ | lra ].
  split; [ reflexivity | ].
  unfold hz_to_mel_log, min_log_hz. rewrite ScaleProps.min_log_mel_val.
  pose proof ScaleProps.logstep_pos as Hstep.
  pose proof (ln_ratio_nonneg f Hf) as Hln.
  assert (0 <= ln (f / 1000) / logstep).
  { apply Rmult_le_pos; [ exact Hln | left; now apply Rinv_0_lt_compat ]. }
  lra.
Qed.

Lemma hz_to_mel_slaney_increasing (f1 f2 : R) :
  f1 < f2 -> hz_to_mel f1 false < hz_to_mel f2 false.
Proof.
  intros Hlt.
  destruct (Rlt_le_dec f2 1000) as [H2 | H2].
  - rewrite !MelProps.hz_to_mel_below by lra. lra.
  - destruct (hz_to_mel_at_least_knee f2 H2) as [-> Hge2].
    destruct (Rlt_le_dec f1 1000) as [H1 | H1].
    + rewrite MelProps.hz_to_mel_below by lra. lra.
    + destruct (hz_to_mel_at_least_knee f1 H1) as [-> _].
      unfold hz_to_mel_log, min_log_hz.
      pose proof ScaleProps.logstep_pos as Hstep.
      assert (Hln : ln (f1 / 1000) < ln (f2 / 1000))
        by (apply ln_increasing; lra).
      apply Rplus_lt_compat_l. unfold Rdiv.
      apply Rmult_lt_compat_r; [ now apply Rinv_0_lt_compat | exact Hln ].
Qed.

Lemma hz_to_mel_htk_increasing (f1 f2 : R) :
  -700 < f1 -> f1 < f2 -> hz_to_mel f1 true < hz_to_mel f2 true.
Proof.
  intros Hdom Hlt. unfold hz_to_mel, log10.
  pose proof ScaleProps.ln10_pos as H10.
  assert (Hln : ln (1 + f1 / 700) < ln (1 + f2 / 700))
    by (apply ln_increasing; lra).
  apply Rmult_lt_compat_l; [ lra | ]. unfold Rdiv.
  apply Rmult_lt_compat_r; [ now apply Rinv_0_lt_compat | exact Hln ].
Qed.

Lemma hz_to_mel_lt (htk : bool) (f1 f2 : R) :
  0 <= f1 -> f1 < f2 -> hz_to_mel f1 htk < hz_to_mel f2 htk.
Proof.
  intros Hdom Hlt. destruct htk.
  - apply hz_to_mel_htk_increasing; lra.
  - now apply hz_to_mel_slaney_increasing.
Qed.

(** X1.  [hz_to_mel] is strictly increasing on the non-negative
    frequencies, in the HTK and in the Slaney scheme, across the 1000 Hz
    knee included; the Slaney map is strictly increasing on all reals. *)
Theorem hz_to_mel_increasing (htk : bool) (f1 f2 : R) :
  f1 < f2 ->
  (0 <= f1 -> hz_to_mel f1 htk < hz_to_mel f2 htk)
  /\ hz_to_mel f1 false < hz_to_mel f2 false.
Proof.
  intros Hlt. split.
  - intros Hdom. now apply hz_to_mel_lt.
  - now apply hz_to_mel_slaney_increasing.
Qed.

Lemma hz_to_mel_increasing_witness :
  hz_to_mel 900 false < hz_to_mel 1100 false
  /\ hz_to_mel 900 true < hz_to_mel 1100 true.
Proof.
  split.
  - apply (hz_to_mel_increasing false 900 1100); lra.
  - apply (proj1 (hz_to_mel_increasing true 900 1100 ltac:(lra))); lra.
Defined.

Lemma mel_to_hz_above_knee (m : R) :
  15 <= m ->
  mel_to_hz m false = 1000 * exp (logstep * (m - 15)) /\ 1000 <= mel_to_hz m false.
Proof.
  intros Hm. unfold mel_to_hz. rewrite ScaleProps.min_log_mel_val.
  destruct (Rle_dec 15 m) as [_ | Hlt]; [ | lra ].
  unfold min_log_hz. split; [ reflexivity | ].
  pose proof ScaleProps.logstep_pos as Hstep.
  assert (Hexp : 1 <= exp (logstep * (m - 15))).
  { rewrite <- exp_0. destruct (Req_dec m 15) as [-> | Hne].
    - right. f_equal. ring.
    - left. apply exp_increasing. apply Rmult_lt_0_compat; lra. }
  lra.
Qed.

Lemma mel_to_hz_lt (htk : bool) (m1 m2 : R) :
  m1 < m2 -> mel_to_hz m1 htk < mel_to_hz m2 htk.
Proof.
  intros Hlt. destruct htk.
  - unfold mel_to_hz, pow10, Rpower.
    pose proof ScaleProps.ln10_pos as H10.
    assert (exp (m1 / 2595 * ln 10) < exp (m2 / 2595 * ln 10)).
    { apply exp_increasing. apply Rmult_lt_compat_r; lra. }
    lra.
  - destruct (Rlt_le_dec m2 15) as [H2 | H2].
    + rewrite !MelProps.mel_to_hz_below by lra. lra.
    + destruct (mel_to_hz_above_knee m2 H2) as [Heq2 Hge2].
      destruct (Rlt_le_dec m1 15) as [H1 | H1].
      * rewrite MelProps.mel_to_hz_below by lra. lra.
      * destruct (mel_to_hz_above_knee m1 H1) as [-> _]. rewrite Heq2.
        pose proof ScaleProps.logstep_pos as Hstep.
        assert (exp (logstep * (m1 - 15)) < exp (logstep * (m2 - 15))).
        { apply exp_increasing. apply Rmult_lt_compat_l; lra. }
        lra.
Qed.

(** X2.  [mel_to_hz] is strictly increasing on all mel values, in both
    schemes, and so never maps two mel values to one frequency. *)
Theorem mel_to_hz_increasing (htk : bool) (m1 m2 : R) :
  (m1 < m2 -> mel_to_hz m1 htk < mel_to_hz m2 htk)
  /\ (mel_to_hz m1 htk = mel_to_hz m2 htk -> m1 = m2).
Proof.
  split; [ apply mel_to_hz_lt | ].
  intros Heq. destruct (Rtotal_order m1 m2) as [Hlt | [Heq' | Hgt]].
  - apply (mel_to_hz_lt htk) in Hlt. lra.
  - exact Heq'.
  - apply (mel_to_hz_lt htk) in Hgt. lra.
Qed.

Lemma mel_to_hz_increasing_witness :
  mel_to_hz 14 false < mel_to_hz 16 false.
Proof. apply (proj1 (mel_to_hz_increasing false 14 16)). lra. Defined.

(** X3.  The round trip in the other direction holds for every mel value:
    [hz_to_mel (mel_to_hz m) = m], in both schemes, so the two maps are
    inverse bijections between the frequencies from 0 Hz up and the mel
    values from 0 up. *)
Theorem hz_of_mel_roundtrip (htk : bool) (m : R) :
  hz_to_mel (mel_to_hz m htk) htk = m.
Proof.
  destruct htk.
  - unfold mel_to_hz, hz_to_mel, pow10, log10, Rpower.
    replace (1 + 700 * (exp (m / 2595 * ln 10) - 1) / 700)
      with (exp (m / 2595 * ln 10)) by field.
    rewrite ln_exp. field. apply Rgt_not_eq, ScaleProps.ln10_pos.
  - destruct (Rlt_le_dec m 15) as [Hm | Hm].
    + rewrite MelProps.mel_to_hz_below by lra.
      rewrite MelProps.hz_to_mel_below by lra. field.
    + destruct (mel_to_hz_above_knee m Hm) as [Heq Hge].
      destruct (hz_to_mel_at_least_knee _ Hge) as [-> _].
      rewrite Heq. unfold hz_to_mel_log, min_log_hz.
      rewrite ScaleProps.min_log_mel_val.
      replace (1000 * exp (logstep * (m - 15)) / 1000)
        with (exp (logstep * (m - 15))) by field.
      rewrite ln_exp. field. apply Rgt_not_eq, ScaleProps.logstep_pos.
Qed.

End ScaleOrder.

(** ** Feature extractor: the scalar stages and their inverses *)

Module StageInverses.

Import Feature Examples.

(** *** Pre-emphasis and de-emphasis *)

Lemma removelast_cons2 {A : Type} (a b : A) (l : list A) :
  removelast (a :: b :: l) = a :: removelast (b :: l).
Proof. reflexivity. Qed.

Lemma lfilter_undoes_differences (c : R) (t : wave) :
  forall prev : R,
    lfilter_pole c prev
      (map (fun p => fst p - c * snd p) (combine t (removelast (prev :: t))))
    = t.
Proof.
  induction t as [ | a t IH]; intros prev; [ reflexivity | ].
  rewrite removelast_cons2. cbn [combine map lfilter_pole fst snd].
  replace (a - c * prev + c * prev) with a by ring.
  now rewrite IH.
Qed.

Lemma differences_undo_lfilter (c : R) (t : wave) :
  forall prev : R,
    map (fun p => fst p - c * snd p)
        (combine (lfilter_pole c prev t)
                 (removelast (prev :: lfilter_pole c prev t)))
    = t.
Proof.
  induction t as [ | a t IH]; intros prev; [ reflexivity | ].
  cbn [lfilter_pole]. rewrite removelast_cons2.
  cbn [combine map fst snd]. rewrite IH. f_equal. ring.
Qed.

Lemma preemphasis_row_length (c : R) (w : wave) :
  List.length (preemphasis_row c w) = List.length w.
Proof.
  unfold preemphasis_row. destruct w as [ | x t]; [ reflexivity | ].
  cbn [firstn skipn app List.length]. f_equal.
  rewrite length_map, length_combine, length_removelast. cbn [List.length].
  lia.
Qed.

Lemma lfilter_pole_length (c : R) (w : wave) :
  forall prev : R, List.length (lfilter_pole c prev w) = List.length w.
Proof.
  induction w as [ | x t IH]; intros prev; [ reflexivity | ].
  cbn [lfilter_pole List.length]. now rewrite IH.
Qed.

(** X4.  De-emphasis undoes pre-emphasis and pre-emphasis undoes
    de-emphasis, sample for sample, for every waveform (the empty one
    included) and every coefficient; pre-emphasis keeps the number of
    samples. *)
Theorem preemphasis_inverse (self : ExtractAudioFeature) (wav : wave) :
  _inv_preemphasis self (preemphasis_row (preemphasis_coeff self) wav) = wav
  /\ preemphasis_row (preemphasis_coeff self) (_inv_preemphasis self wav) = wav
  /\ List.length (preemphasis_row (preemphasis_coeff self) wav)
     = List.length wav.
Proof.
  split; [ | split ].
  - unfold _inv_preemphasis, preemphasis_row.
    destruct wav as [ | x t]; [ reflexivity | ].
    cbn [firstn skipn app lfilter_pole].
    replace (x + preemphasis_coeff self * 0) with x by ring.
    now rewrite lfilter_undoes_differences.
  - unfold _inv_preemphasis, preemphasis_row.
    destruct wav as [ | x t]; [ reflexivity | ].
    cbn [lfilter_pole firstn skipn app].
    rewrite differences_undo_lfilter. f_equal. ring.
  - apply preemphasis_row_length.
Qed.

(** *** Decibels *)

Lemma log10_pow10 (y : R) : FrequencyScale.log10 (FrequencyScale.pow10 y) = y.
Proof.
  unfold FrequencyScale.log10, FrequencyScale.pow10, Rpower.
  rewrite ln_exp. field. apply Rgt_not_eq, ScaleProps.ln10_pos.
Qed.

Lemma pow10_pos (y : R) : 0 < FrequencyScale.pow10 y.
Proof. unfold FrequencyScale.pow10, Rpower. apply exp_pos. Qed.

Lemma db_to_amp_of_db (x minimum : R) :
  0 < minimum -> _db_to_amp (_amp_to_db x minimum) = Rmax x minimum.
Proof.
  intros Hmin. unfold _db_to_amp, _amp_to_db, amp_floor, clamp_min.
  replace (0.05 * (20 * FrequencyScale.log10 (Rmax x minimum)))
    with (FrequencyScale.log10 (Rmax x minimum)) by lra.
  apply ScaleProps.pow10_log10.
  eapply Rlt_le_trans; [ exact Hmin | apply Rmax_r ].
Qed.

(** X5.  [_db_to_amp] inverts [_amp_to_db] up to the floor: for a positive
    floor, [_db_to_amp (_amp_to_db x)] is [max(x, minimum)], hence [x]
    itself from the floor on; and [_amp_to_db (_db_to_amp d)] is [d]
    whenever the amplitude of [d] is not below the floor. *)
Theorem db_amp_roundtrip (x d minimum : R) :
  0 < minimum ->
  _db_to_amp (_amp_to_db x minimum) = Rmax x minimum
  /\ (minimum <= x -> _db_to_amp (_amp_to_db x minimum) = x)
  /\ (minimum <= _db_to_amp d -> _amp_to_db (_db_to_amp d) minimum = d).
Proof.
  intros Hmin.
  pose proof (db_to_amp_of_db x minimum Hmin) as Hfwd.
  split; [ exact Hfwd | split ].
  - intros Hx. rewrite Hfwd. now apply Rmax_left.
  - intros Hd. unfold _amp_to_db, amp_floor, clamp_min.
    rewrite Rmax_left by exact Hd.
    unfold _db_to_amp. rewrite log10_pow10. lra.
Qed.

Lemma db_amp_roundtrip_witness :
  _db_to_amp (_amp_to_db 0 1e-5) = Rmax 0 1e-5.
Proof. apply (db_amp_roundtrip 0 0 1e-5). lra. Defined.

(** *** Normalisation *)

Lemma denormalize_normalize_clamp (self : ExtractAudioFeature) (feat : R) :
  min_level_db self < 0 ->
  _denormalize self (_normalize self feat) = clamp feat (min_level_db self) 0.
Proof.
  intros Hmin. unfold _denormalize, _normalize.
  set (m := min_level_db self) in *.
  set (v := (feat - m) / - m).
  assert (Hv : v * - m = feat - m) by (subst v; field; lra).
  rewrite (clamp_id (clamp v 0 1) 0 1) by (apply clamp_bounds; lra).
  unfold clamp, Rmin, Rmax.
  repeat destruct Rle_dec; nra.
Qed.

(** X6.  With a negative floor, de-normalising a normalised level gives
    the level clamped into [[min_level_db, 0]]: levels in that range come
    back unchanged, everything below collapses to the floor and
    everything above to 0. *)
Theorem denormalize_normalize (self : ExtractAudioFeature) (feat : R) :
  min_level_db self < 0 ->
  _denormalize self (_normalize self feat) = clamp feat (min_level_db self) 0
  /\ (min_level_db self <= feat <= 0 ->
      _denormalize self (_normalize self feat) = feat).
Proof.
  intros Hmin.
  pose proof (denormalize_normalize_clamp self feat Hmin) as Hgen.
  split; [ exact Hgen | ].
  intros Hrange. rewrite Hgen. now apply clamp_id.
Qed.

Lemma denormalize_normalize_witness :
  _denormalize toy_extractor (_normalize toy_extractor (-150))
  = clamp (-150) (min_level_db toy_extractor) 0.
Proof.
  apply (denormalize_normalize toy_extractor (-150)). simpl. lra.
Defined.

(** X7.  The de-log step of the inverse path undoes the log-amplitude
    stage of the forward path on every amplitude whose level sits between
    the floor and the reference: for [min_level_db < 0], [x >= 1e-5] and
    [min_level_db <= 20*log10(x) - ref_level_db <= 0],
    [_db_to_amp (_denormalize (log_normalize x) + ref_level_db) = x]. *)
Theorem delog_inverts_log_normalize (self : ExtractAudioFeature) (x : R) :
  min_level_db self < 0 ->
  1e-5 <= x ->
  min_level_db self
  <= 20 * FrequencyScale.log10 x - ref_level_db self <= 0 ->
  _db_to_amp (_denormalize self (log_normalize self x) + ref_level_db self)
  = x.
Proof.
  intros Hmin Hx Hrange.
  assert (Hdb : _amp_to_db x 1e-5 = 20 * FrequencyScale.log10 x).
  { unfold _amp_to_db, amp_floor, clamp_min. now rewrite Rmax_left. }
  unfold log_normalize.
  rewrite denormalize_normalize_clamp by exact Hmin.
  rewrite clamp_id by (rewrite Hdb; exact Hrange).
  replace (_amp_to_db x 1e-5 - ref_level_db self + ref_level_db self)
    with (_amp_to_db x 1e-5) by ring.
  rewrite db_to_amp_of_db by lra. now apply Rmax_left.
Qed.

Lemma delog_inverts_log_normalize_witness :
  _db_to_amp (_denormalize toy_extractor (log_normalize toy_extractor 1)
              + ref_level_db toy_extractor) = 1.
Proof.
  apply (delog_inverts_log_normalize toy_extractor 1).
  - simpl. lra.
  - lra.
  - simpl. unfold FrequencyScale.log10. rewrite ln_1. lra.
Defined.

End StageInverses.

(** ** Inverse path: spectra of Griffin-Lim and the final clip *)

Module InversePath.

Import Feature Examples.

Lemma polar_modulus (m p : R) : magnitude (m * cos p, m * sin p) = Rabs m.
Proof.
  unfold magnitude. cbn [fst snd].
  replace (m * cos p * (m * cos p) + m * sin p * (m * sin p))
    with (Rsqr m * (Rsqr (sin p) + Rsqr (cos p))) by (unfold Rsqr; ring).
  rewrite sin2_cos2, Rmult_1_r. apply sqrt_Rsqr_abs.
Qed.

Lemma zip2_left {A B C : Type} (f : A -> C) (a : list (list A)) :
  forall b : list (list B),
    map (@List.length A) a = map (@List.length B) b ->
    zip2 (fun x _ => f x) a b = tmap2 f a.
Proof.
  unfold zip2, tmap2.
  induction a as [ | ra a IH]; intros b Hshape.
  - reflexivity.
  - destruct b as [ | rb b]; [ discriminate | ].
    cbn [map] in Hshape. injection Hshape as Hrow Hrest.
    cbn [combine map fst snd]. rewrite <- (IH b Hrest). f_equal.
    clear - Hrow. revert rb Hrow.
    induction ra as [ | x ra IHr]; intros rb Hrow; [ reflexivity | ].
    destruct rb as [ | y rb]; [ discriminate | ].
    cbn [List.length] in Hrow. injection Hrow as Hrow.
    cbn [combine map fst snd]. now rewrite IHr.
Qed.

Lemma to_complex_modulus (mag phase : matrix) :
  tmap2 magnitude (_to_complex mag phase)
  = zip2 (fun m _ => Rabs m) mag phase.
Proof.
  unfold _to_complex, zip2, tmap2.
  rewrite map_map. apply map_ext. intros [rm rp]. cbn [fst snd].
  rewrite map_map. apply map_ext. intros [m p]. cbn [fst snd].
  apply polar_modulus.
Qed.

(** X8.  The fake complex tensor [_to_complex] builds has, bin for bin,
    the absolute value of the given magnitude as its modulus, whatever the
    phase; for a magnitude and a phase of the same shape its modulus
    tensor is the absolute magnitude tensor. *)
Theorem to_complex_keeps_magnitude (mag phase : matrix) :
  map (@List.length R) mag = map (@List.length R) phase ->
  tmap2 magnitude (_to_complex mag phase) = tmap2 Rabs mag.
Proof.
  intros Hshape. rewrite to_complex_modulus. now apply zip2_left.
Qed.

Lemma to_complex_keeps_magnitude_witness :
  tmap2 magnitude (_to_complex [[3; -4]] [[0; PI]]) = tmap2 Rabs [[3; -4]].
Proof. apply (to_complex_keeps_magnitude [[3; -4]] [[0; PI]]). reflexivity. Defined.

Lemma tmap2_shape {A B : Type} (f : A -> B) (m : list (list A)) :
  map (@List.length B) (tmap2 f m) = map (@List.length A) m.
Proof.
  unfold tmap2. rewrite map_map. apply map_ext. intros row.
  apply length_map.
Qed.

Lemma tmap2_tmap2 {A B C : Type} (f : A -> B) (g : B -> C)
  (m : list (list A)) :
  tmap2 g (tmap2 f m) = tmap2 (fun a => g (f a)) m.
Proof.
  unfold tmap2. rewrite map_map. apply map_ext. intros row.
  apply map_map.
Qed.

(** X9.  Griffin-Lim never changes the magnitude it is given: the
    spectrum it starts from and, whenever the forward transform returns
    as many bins as the target has, the spectrum after a transition have
    the modulus [|specgram|] in every bin; only the phase is
    re-estimated. *)
Theorem griffin_lim_keeps_magnitude (lib : torch_lib)
  (self : ExtractAudioFeature) (rand specgram : matrix) (s : gl_state) :
  (map (@List.length R) specgram = map (@List.length R) rand ->
   tmap2 magnitude (fst (fst (gl_start lib self rand specgram)))
   = tmap2 Rabs specgram)
  /\ (map (@List.length R) specgram
      = map (@List.length complex)
            (torch_stft lib (n_fft self) (hop_length self) (win_length self)
                        (snd s)) ->
      tmap2 magnitude
            (fst (fst (gl_step lib self (tmap2 Rabs specgram) s)))
      = tmap2 Rabs specgram).
Proof.
  assert (Habs : tmap2 Rabs (tmap2 Rabs specgram) = tmap2 Rabs specgram).
  { rewrite tmap2_tmap2. unfold tmap2. apply map_ext. intros row.
    apply map_ext. intros v. apply Rabs_Rabsolu. }
  split.
  - intros Hshape. unfold gl_start. cbn [fst].
    rewrite to_complex_modulus, zip2_left by now rewrite !tmap2_shape.
    exact Habs.
  - intros Hshape. destruct s as [[y phases] x]. cbn [snd] in Hshape.
    unfold gl_step, gl_body, _stft, _istft, tbind, tret, _get_phase.
    cbn [fst snd].
    rewrite to_complex_modulus, zip2_left by now rewrite !tmap2_shape.
    exact Habs.
Qed.

Lemma griffin_lim_keeps_magnitude_witness :
  tmap2 magnitude (fst (fst (gl_start toy_lib toy_extractor [[0]] [[-3]])))
  = tmap2 Rabs [[-3]].
Proof.
  apply (proj1 (griffin_lim_keeps_magnitude toy_lib toy_extractor
                  [[0]] [[-3]] ([], [], []))).
  reflexivity.
Defined.

Lemma clamp_all (lo hi : R) (w : wave) :
  lo <= hi ->
  Forall (fun v => lo <= v <= hi) (map (fun v => clamp v lo hi) w).
Proof.
  intros Hle. apply Forall_map, Forall_forall. intros v _.
  now apply clamp_bounds.
Qed.

(** X10.  [specgram_to_waveform] returns, for every input, a waveform
    whose samples all lie in [[-1, 1]] and which has as many samples as
    the Griffin-Lim output, with or without de-emphasis; the run it
    performs is the 30-transition Griffin-Lim run and nothing more. *)
Theorem specgram_to_waveform_clipped (lib : torch_lib)
  (self : ExtractAudioFeature) (rand specgram : matrix) (inv : bool) :
  Forall (fun v => -1 <= v <= 1)
         (fst (specgram_to_waveform lib self rand specgram inv))
  /\ List.length (fst (specgram_to_waveform lib self rand specgram inv))
     = List.length (fst (_griffin_lim lib self rand specgram))
  /\ snd (specgram_to_waveform lib self rand specgram inv)
     = snd (_griffin_lim lib self rand specgram)
  /\ (Forall (fun v => -1 <= v <= 1)
             (fst (_griffin_lim lib self rand specgram)) ->
      specgram_to_waveform lib self rand specgram false
      = _griffin_lim lib self rand specgram).
Proof.
  unfold specgram_to_waveform.
  destruct (_griffin_lim lib self rand specgram) as [wav t] eqn:Hrun.
  unfold tbind, tret. cbn [fst snd].
  split; [ apply clamp_all; lra | ].
  split.
  - rewrite length_map. destruct inv; [ | reflexivity ].
    unfold _inv_preemphasis. apply StageInverses.lfilter_pole_length.
  - split; [ now rewrite app_nil_r | ].
    intros Hin. rewrite app_nil_r. apply (f_equal (fun w => (w, t))).
    transitivity (map (fun v : R => v) wav); [ | apply map_id ].
    apply map_ext_in. intros v Hv.
    rewrite Forall_forall in Hin. apply clamp_id. now apply Hin.
Qed.

Lemma toy_griffin_lim_output :
  fst (_griffin_lim toy_lib toy_extractor [[0]] [[1]]) = [0].
Proof. reflexivity. Qed.

Lemma specgram_to_waveform_clipped_witness :
  specgram_to_waveform toy_lib toy_extractor [[0]] [[1]] false
  = _griffin_lim toy_lib toy_extractor [[0]] [[1]].
Proof.
  apply (specgram_to_waveform_clipped toy_lib toy_extractor [[0]] [[1]] false).
  rewrite toy_griffin_lim_output. repeat constructor; lra.
Defined.

End InversePath.

(** ** Mel filterbank: grids, shape, sign and failure modes *)

Module MelGrid.

Import FrequencyScale MelFilterbank.

Lemma nth_removelast {A : Type} (l : list A) (d : A) :
  forall i : nat,
    (i < List.length l - 1)%nat -> nth i (removelast l) d = nth i l d.
Proof.
  induction l as [ | a l IH]; intros i Hi; [ cbn in Hi; lia | ].
  destruct l as [ | b l]; [ cbn in Hi; lia | ].
  rewrite StageInverses.removelast_cons2.
  destruct i as [ | i]; [ reflexivity | ].
  cbn [nth]. apply IH. cbn [List.length] in *. lia.
Qed.

(** The samples of [np.linspace] for two points or more. *)
Lemma linspace_nth (a b : R) (num : Z) (l : list R) :
  (2 <= num)%Z ->
  linspace a b num = Ok l ->
  List.length l = Z.to_nat num
  /\ forall i : nat,
       (i < Z.to_nat num)%nat ->
       nth i l 0 = INR i * ((b - a) / INR (Z.to_nat num - 1)) + a.
Proof.
  intros Hnum. unfold linspace.
  destruct (Z.ltb_spec num 0) as [Hneg | _]; [ lia | ].
  cbv zeta. set (n := Z.to_nat num).
  assert (Hn : (2 <= n)%nat) by (subst n; lia).
  destruct (n - 1)%nat as [ | d] eqn:Hdiv; [ lia | ].
  destruct (Nat.ltb_spec 1 n) as [_ | Hle]; [ | lia ].
  intros Hl. injection Hl as <-.
  change (match d with O => 1 | S _ => INR d + 1 end) with (INR (S d)).
  set (y := map (fun i => INR i * ((b - a) / INR (S d)) + a) (seq 0 n)).
  assert (Hy : List.length y = n) by (subst y; now rewrite length_map, length_seq).
  split.
  - rewrite length_app, length_removelast, Hy. cbn. lia.
  - intros i Hi.
    destruct (Nat.lt_ge_cases i (n - 1)) as [Hlt | Hge].
    + rewrite app_nth1 by (rewrite length_removelast, Hy; lia).
      rewrite nth_removelast by (rewrite Hy; lia).
      subst y. rewrite MelProps.nth_map_seq by lia. reflexivity.
    + rewrite app_nth2 by (rewrite length_removelast, Hy; lia).
      rewrite length_removelast, Hy.
      replace (i - (n - 1))%nat with 0%nat by lia. cbn [nth].
      replace i with (S d) by lia.
      assert (INR (S d) <> 0) by (apply not_0_INR; lia).
      field. assumption.
Qed.

Lemma linspace_two_or_more (a b : R) (num : Z) :
  (2 <= num)%Z ->
  exists l,
    linspace a b num = Ok l
    /\ List.length l = Z.to_nat num
    /\ nth 0 l 0 = a
    /\ nth (Z.to_nat num - 1) l 0 = b
    /\ forall i : nat,
         (i < Z.to_nat num)%nat ->
         nth i l 0 = INR i * ((b - a) / INR (Z.to_nat num - 1)) + a.
Proof.
  intros Hnum.
  destruct (MelProps.linspace_ok a b num) as (l & Hl & _); [ lia | ].
  destruct (linspace_nth a b num l Hnum Hl) as [Hlen Hnth].
  exists l. split; [ exact Hl | ]. split; [ exact Hlen | ].
  assert (Hd : INR (Z.to_nat num - 1) <> 0) by (apply not_0_INR; lia).
  repeat split.
  - rewrite Hnth by lia. cbn [INR]. ring.
  - rewrite Hnth by lia. field. exact Hd.
  - exact Hnth.
Qed.

(** X11.  For an FFT size of at least 2, [fft_frequencies] returns the
    [1 + n_fft // 2] bin frequencies [k * (sr/2) / (n_fft // 2)]: evenly
    spaced, starting at 0 and ending exactly at [sr / 2]. *)
Theorem fft_frequencies_grid (sr : R) (n_fft : Z) :
  (2 <= n_fft)%Z ->
  exists freqs,
    fft_frequencies sr n_fft = Ok freqs
    /\ List.length freqs = Z.to_nat (1 + n_fft / 2)
    /\ nth 0 freqs 0 = 0
    /\ nth (Z.to_nat (n_fft / 2)) freqs 0 = sr / 2
    /\ forall k : nat,
         (k <= Z.to_nat (n_fft / 2))%nat ->
         nth k freqs 0 = INR k * (sr / 2) / INR (Z.to_nat (n_fft / 2)).
Proof.
  intros Hfft.
  assert (Hbins : (1 <= n_fft / 2)%Z)
    by (apply Z.div_le_lower_bound; lia).
  destruct (linspace_two_or_more 0 (sr / 2) (1 + n_fft / 2))
    as (l & Hl & Hlen & Hfirst & Hlast & Hnth); [ lia | ].
  replace (Z.to_nat (1 + n_fft / 2) - 1)%nat with (Z.to_nat (n_fft / 2))
    in * by lia.
  exists l. unfold fft_frequencies.
  repeat split; try assumption.
  intros k Hk. rewrite Hnth by lia.
  assert (INR (Z.to_nat (n_fft / 2)) <> 0) by (apply not_0_INR; lia).
  field. assumption.
Qed.

Lemma fft_frequencies_grid_witness :
  exists freqs,
    fft_frequencies 16000 1025 = Ok freqs
    /\ List.length freqs = 513%nat
    /\ nth 512 freqs 0 = 16000 / 2.
Proof.
  destruct (fft_frequencies_grid 16000 1025) as (l & Hl & Hlen & _ & Hlast & _).
  - lia.
  - exists l. repeat split; assumption.
Defined.

Lemma mel_grid_lt (n_mels : Z) (fmin fmax : R) (htk : bool) (freqs : list R) :
  (2 <= n_mels)%Z -> 0 <= fmin -> fmin < fmax ->
  mel_frequencies n_mels fmin fmax htk = Ok freqs ->
  forall i j : nat,
    (i < j)%nat -> (j < Z.to_nat n_mels)%nat ->
    nth i freqs 0 < nth j freqs 0.
Proof.
  intros Hn Hmin Hlt Hrun i j Hij Hj.
  destruct (linspace_two_or_more (hz_to_mel fmin htk) (hz_to_mel fmax htk)
              n_mels Hn)
    as (mels & Hl & Hlen & _ & _ & Hnth).
  unfold mel_frequencies in Hrun. rewrite Hl in Hrun. cbn [bind] in Hrun.
  injection Hrun as <-. unfold mel_to_hz_array.
  rewrite (nth_indep _ 0 (mel_to_hz 0 htk)) by (rewrite length_map; lia).
  rewrite (nth_indep _ 0 (mel_to_hz 0 htk) (n := j))
    by (rewrite length_map; lia).
  rewrite !(map_nth (fun m => mel_to_hz m htk)), !Hnth by lia.
  apply ScaleOrder.mel_to_hz_lt.
  pose proof (ScaleOrder.hz_to_mel_lt htk fmin fmax Hmin Hlt) as Hmel.
  assert (Hd : 0 < INR (Z.to_nat n_mels - 1)) by (apply lt_0_INR; lia).
  assert (Hstep : 0 < (hz_to_mel fmax htk - hz_to_mel fmin htk)
                      / INR (Z.to_nat n_mels - 1)).
  { apply Rdiv_lt_0_compat; lra. }
  assert (Hij' : INR i < INR j) by now apply lt_INR.
  nra.
Qed.

(** X12.  For at least two points and non-negative limits,
    [mel_frequencies] returns that many frequencies, the first being
    [fmin] and the last [fmax], each the Hz value of a point of the
    uniform mel grid; for [fmin < fmax] they are strictly increasing. *)
Theorem mel_frequencies_grid (n_mels : Z) (fmin fmax : R) (htk : bool) :
  (2 <= n_mels)%Z -> 0 <= fmin -> 0 <= fmax ->
  exists freqs,
    mel_frequencies n_mels fmin fmax htk = Ok freqs
    /\ List.length freqs = Z.to_nat n_mels
    /\ nth 0 freqs 0 = fmin
    /\ nth (Z.to_nat n_mels - 1) freqs 0 = fmax
    /\ (forall i : nat,
           (i < Z.to_nat n_mels)%nat ->
           nth i freqs 0
           = mel_to_hz (INR i * ((hz_to_mel fmax htk - hz_to_mel fmin htk)
                                 / INR (Z.to_nat n_mels - 1))
                        + hz_to_mel fmin htk) htk)
    /\ (fmin < fmax ->
        forall i j : nat,
          (i < j)%nat -> (j < Z.to_nat n_mels)%nat ->
          nth i freqs 0 < nth j freqs 0).
Proof.
  intros Hn Hmin Hmax.
  destruct (linspace_two_or_more (hz_to_mel fmin htk) (hz_to_mel fmax htk)
              n_mels Hn)
    as (mels & Hl & Hlen & Hfirst & Hlast & Hnth).
  unfold mel_frequencies. rewrite Hl. cbn [bind].
  eexists. split; [ reflexivity | ].
  assert (Hentry : forall i, (i < Z.to_nat n_mels)%nat ->
                             nth i (mel_to_hz_array mels htk) 0
                             = mel_to_hz (nth i mels 0) htk).
  { intros i Hi. unfold mel_to_hz_array.
    rewrite (nth_indep _ 0 (mel_to_hz 0 htk)) by (rewrite length_map; lia).
    apply (map_nth (fun m => mel_to_hz m htk)). }
  split; [ unfold mel_to_hz_array; now rewrite length_map | ].
  split; [ rewrite Hentry, Hfirst by lia; now apply ScaleProps.roundtrip | ].
  split; [ rewrite Hentry, Hlast by lia; now apply ScaleProps.roundtrip | ].
  split.
  - intros i Hi. rewrite Hentry, Hnth by lia. reflexivity.
  - intros Hlt i j Hij Hj. rewrite !Hentry, !Hnth by lia.
    apply ScaleOrder.mel_to_hz_lt.
    pose proof (ScaleOrder.hz_to_mel_lt htk fmin fmax Hmin Hlt) as Hmel.
    assert (Hd : 0 < INR (Z.to_nat n_mels - 1)) by (apply lt_0_INR; lia).
    assert (Hstep : 0 < (hz_to_mel fmax htk - hz_to_mel fmin htk)
                        / INR (Z.to_nat n_mels - 1)).
    { apply Rdiv_lt_0_compat; lra. }
    assert (Hij' : INR i < INR j) by now apply lt_INR.
    nra.
Qed.

Lemma mel_frequencies_grid_witness :
  exists freqs,
    mel_frequencies 82 0 8000 false = Ok freqs
    /\ nth 0 freqs 0 = 0 /\ nth 81 freqs 0 = 8000
    /\ nth 40 freqs 0 < nth 41 freqs 0.
Proof.
  destruct (mel_frequencies_grid 82 0 8000 false)
    as (l & Hl & _ & Hfirst & Hlast & _ & Hinc); try lra; try lia.
  exists l. repeat split; try assumption.
  apply Hinc; [ lra | lia | lia ].
Defined.

End MelGrid.

Module MelBank.

Import FrequencyScale MelFilterbank.

(** *** Entries of the weight matrix *)

Lemma np_diff_nth (l : list R) :
  forall i : nat,
    (i + 1 < List.length l)%nat ->
    nth i (np_diff l) 0 = nth (i + 1) l 0 - nth i l 0.
Proof.
  induction l as [ | a l IH]; intros i Hi; [ cbn in Hi; lia | ].
  destruct l as [ | b l]; [ cbn in Hi; lia | ].
  destruct i as [ | i].
  - reflexivity.
  - cbn [np_diff nth Nat.add]. apply IH. cbn [List.length] in *. lia.
Qed.

Lemma nth_map_in_range {A B : Type} (f : A -> B) (l : list A) (i : nat)
  (d : B) (d' : A) :
  (i < List.length l)%nat -> nth i (map f l) d = f (nth i l d').
Proof.
  intros Hi. rewrite (nth_indep _ d (f d')) by now rewrite length_map.
  apply map_nth.
Qed.

(** The triangle of one band at one frequency, as the loop body computes
    it from the band's left edge, centre and right edge. *)
Lemma band_row_formula (mel_f fftfreqs : list R) (i : nat) :
  (i + 2 < List.length mel_f)%nat ->
  band_row (np_diff mel_f) (subtract_outer mel_f fftfreqs) i
  = map (fun f =>
           Rmax 0 (Rmin (- (nth i mel_f 0 - f)
                         / (nth (i + 1) mel_f 0 - nth i mel_f 0))
                        ((nth (i + 2) mel_f 0 - f)
                         / (nth (i + 2) mel_f 0 - nth (i + 1) mel_f 0))))
        fftfreqs.
Proof.
  intros Hi. unfold band_row, subtract_outer.
  rewrite (nth_map_in_range _ mel_f i [] 0) by lia.
  rewrite (nth_map_in_range _ mel_f (i + 2) [] 0) by lia.
  rewrite !map_map, MelProps.combine_map_same, map_map.
  apply map_ext. intros f. cbn [fst snd].
  rewrite !np_diff_nth by lia.
  now replace (i + 1 + 1)%nat with (i + 2)%nat by lia.
Qed.

Lemma triangle_facts (L C R f : R) :
  L < C -> C < R ->
  let t := Rmax 0 (Rmin (- (L - f) / (C - L)) ((R - f) / (R - C))) in
  0 <= t <= 1
  /\ (f <= L -> t = 0)
  /\ (R <= f -> t = 0)
  /\ (f = C -> t = 1)
  /\ (L < f < R -> 0 < t).
Proof.
  intros HLC HCR.
  set (lo := - (L - f) / (C - L)).
  set (up := (R - f) / (R - C)).
  assert (Hlo : lo * (C - L) = f - L) by (subst lo; field; lra).
  assert (Hup : up * (R - C) = R - f) by (subst up; field; lra).
  cbv zeta. unfold Rmax, Rmin.
  repeat split; repeat destruct Rle_dec; try intros; try nra.
Qed.

(** What a successful call has computed. *)
Lemma filterbank_ok_inv (sr : R) (n_fft n_mels : Z) (fmin : R)
  (fmax : option R) (htk : bool) (norm : norm_t) (w : list (list R)) :
  create_mel_filterbank sr n_fft n_mels fmin fmax htk norm = Ok w ->
  exists fftfreqs mel_f,
    fft_frequencies sr n_fft = Ok fftfreqs
    /\ List.length fftfreqs = Z.to_nat (1 + n_fft / 2)
    /\ mel_frequencies (n_mels + 2) fmin
         (match fmax with None => sr / 2 | Some v => v end) htk = Ok mel_f
    /\ List.length mel_f = (Z.to_nat n_mels + 2)%nat
    /\ (0 <= n_mels)%Z /\ (1 <= 1 + n_fft / 2)%Z
    /\ norm_unsupported norm = false
    /\ w = (let tri := map (band_row (np_diff mel_f)
                                     (subtract_outer mel_f fftfreqs))
                           (seq 0 (Z.to_nat n_mels)) in
            if norm_is_one norm
            then scale_rows tri (enorm mel_f (Z.to_nat n_mels))
            else tri)
    /\ no_empty_channel mel_f (map row_max w) = true.
Proof.
  intros Hrun.
  assert (Hsup : norm_unsupported norm = false).
  { unfold create_mel_filterbank in Hrun.
    destruct (norm_unsupported norm); [ discriminate | reflexivity ]. }
  assert (Hmels : (0 <= n_mels)%Z).
  { destruct (Z.ltb_spec n_mels 0) as [Hneg | ]; [ | assumption ].
    unfold create_mel_filterbank in Hrun. rewrite Hsup in Hrun.
    unfold np_zeros in Hrun.
    destruct (Z.ltb_spec n_mels 0); [ discriminate | lia ]. }
  assert (Hcols : (0 <= 1 + n_fft / 2)%Z).
  { destruct (Z.ltb_spec (1 + n_fft / 2) 0) as [Hneg | ]; [ | assumption ].
    unfold create_mel_filterbank in Hrun. rewrite Hsup in Hrun.
    unfold np_zeros in Hrun.
    destruct (Z.ltb_spec (1 + n_fft / 2) 0); [ | lia ].
    rewrite orb_true_r in Hrun. discriminate. }
  destruct (MelProps.filterbank_run sr n_fft n_mels fmin fmax htk norm
              Hsup Hmels Hcols)
    as (fftfreqs & mels & Hfft & Hlin & Hlen & Heq).
  rewrite Heq in Hrun. cbv zeta in Hrun.
  destruct (MelProps.linspace_ok 0 (sr / 2) (1 + n_fft / 2) Hcols)
    as (l & Hl & Hllen).
  change (fft_frequencies sr n_fft = Ok l) in Hl.
  rewrite Hfft in Hl. injection Hl as <-.
  exists fftfreqs, (mel_to_hz_array mels htk).
  split; [ exact Hfft | ]. split; [ exact Hllen | ].
  split; [ unfold mel_frequencies; now rewrite Hlin | ].
  split; [ unfold mel_to_hz_array; now rewrite length_map | ].
  split; [ exact Hmels | ].
  unfold max_axis1 in Hrun.
  destruct (Z.eqb_spec (1 + n_fft / 2) 0) as [Hz | Hnz];
    [ discriminate | ].
  cbn [bind] in Hrun.
  destruct (no_empty_channel _ _) eqn:Hcheck; cbn [negb] in Hrun;
    [ | discriminate ].
  injection Hrun as <-.
  split; [ lia | ]. split; [ exact Hsup | ].
  split; [ reflexivity | exact Hcheck ].
Qed.

Lemma band_rows_in_seq (mel_f fftfreqs : list R) (n : nat) (P : list R -> Prop) :
  List.length mel_f = (n + 2)%nat ->
  (forall i, (i < n)%nat ->
             P (band_row (np_diff mel_f) (subtract_outer mel_f fftfreqs) i)) ->
  Forall P (map (band_row (np_diff mel_f) (subtract_outer mel_f fftfreqs))
                (seq 0 n)).
Proof.
  intros Hlen HP. apply Forall_map, Forall_forall. intros i Hi.
  apply in_seq in Hi. apply HP. lia.
Qed.

(** X13.  Whenever [create_mel_filterbank] returns, the matrix has
    [n_mels] rows of [1 + n_fft // 2] entries each; and for
    [0 <= fmin < fmax] all its entries are non-negative, with and without
    area normalisation. *)
Theorem filterbank_shape_and_sign (sr : R) (n_fft n_mels : Z) (fmin : R)
  (fmax : option R) (htk : bool) (norm : norm_t) (w : list (list R)) :
  create_mel_filterbank sr n_fft n_mels fmin fmax htk norm = Ok w ->
  List.length w = Z.to_nat n_mels
  /\ Forall (fun row => List.length row = Z.to_nat (1 + n_fft / 2)) w
  /\ (0 <= fmin < match fmax with None => sr / 2 | Some v => v end ->
      Forall (Forall (fun v => 0 <= v)) w).
Proof.
  intros Hrun.
  destruct (filterbank_ok_inv _ _ _ _ _ _ _ _ Hrun)
    as (fftfreqs & mel_f & _ & Hflen & Hmel & Hmlen & Hn & _ & _ & -> & _).
  set (n := Z.to_nat n_mels) in *.
  assert (Hrowlen : forall i, (i < n)%nat ->
            List.length (band_row (np_diff mel_f)
                                  (subtract_outer mel_f fftfreqs) i)
            = Z.to_nat (1 + n_fft / 2)).
  { intros i Hi. rewrite band_row_formula by lia.
    now rewrite length_map. }
  assert (Hrowpos : forall i, (i < n)%nat ->
            Forall (fun v => 0 <= v)
                   (band_row (np_diff mel_f)
                             (subtract_outer mel_f fftfreqs) i)).
  { intros i Hi. rewrite band_row_formula by lia.
    apply Forall_map, Forall_forall. intros f _. apply Rmax_l. }
  cbv zeta.
  destruct (norm_is_one norm) eqn:Hone.
  - rewrite MelProps.enorm_as_map, MelProps.scale_rows_as_map by lia.
    split; [ now rewrite length_map, length_seq | ].
    split.
    + apply Forall_map, Forall_forall. intros i Hi. apply in_seq in Hi.
      rewrite length_map. apply Hrowlen. lia.
    + intros Hrange.
      apply Forall_map, Forall_forall. intros i Hi. apply in_seq in Hi.
      assert (Hlt : nth i mel_f 0 < nth (i + 2) mel_f 0).
      { apply (MelGrid.mel_grid_lt (n_mels + 2) fmin
                 (match fmax with None => sr / 2 | Some v => v end)
                 htk mel_f); try lia; try lra; exact Hmel. }
      apply Forall_map. eapply Forall_impl; [ | apply Hrowpos; lia ].
      intros v Hv. cbn beta. apply Rmult_le_pos; [ exact Hv | ].
      apply Rlt_le, Rdiv_lt_0_compat; lra.
  - split; [ now rewrite length_map, length_seq | ].
    split.
    + now apply band_rows_in_seq.
    + intros _. now apply band_rows_in_seq.
Qed.

Lemma filterbank_shape_and_sign_witness :
  List.length [[0; 1 / 200; 0]] = Z.to_nat 1
  /\ Forall (fun row => List.length row = Z.to_nat (1 + 4 / 2))
            [[0; 1 / 200; 0]]
  /\ Forall (Forall (fun v => 0 <= v)) [[0; 1 / 200; 0]].
Proof.
  destruct (filterbank_shape_and_sign 800 4 1 0 None false (NormNum 1)
              [[0; 1 / 200; 0]] MelProps.filterbank_800)
    as (Hlen & Hrows & Hsign).
  split; [ exact Hlen | ]. split; [ exact Hrows | ].
  apply Hsign. lra.
Defined.

Lemma row_max_attained (row : list R) :
  row <> [] -> In (row_max row) row.
Proof.
  destruct row as [ | x t]; [ contradiction | ]. intros _.
  unfold row_max. revert x.
  induction t as [ | y t IH]; intros x; cbn [fold_left].
  - now left.
  - destruct (IH (Rmax x y)) as [Heq | Hin].
    + rewrite <- Heq. unfold Rmax. destruct (Rle_dec x y).
      * right. now left.
      * now left.
    + right. now right.
Qed.

Lemma no_empty_channel_nth (mel_f rowmax : list R) (n i : nat) :
  List.length mel_f = (n + 2)%nat -> List.length rowmax = n ->
  no_empty_channel mel_f rowmax = true ->
  (i < n)%nat ->
  nth i mel_f 0 = 0 \/ 0 < nth i rowmax 0.
Proof.
  intros Hm Hr Hcheck Hi. unfold no_empty_channel in Hcheck.
  rewrite forallb_forall in Hcheck.
  specialize (Hcheck (nth i mel_f 0, nth i rowmax 0)).
  rewrite Hm in Hcheck. replace (n + 2 - 2)%nat with n in Hcheck by lia.
  assert (Hin : In (nth i mel_f 0, nth i rowmax 0)
                   (combine (firstn n mel_f) rowmax)).
  { assert (Hf : List.length (firstn n mel_f) = n)
      by (rewrite length_firstn; lia).
    assert (Hnth : nth i (firstn n mel_f) 0 = nth i mel_f 0).
    { rewrite nth_firstn. destruct (Nat.ltb_spec i n); [ reflexivity | lia ]. }
    rewrite <- Hnth, <- combine_nth by lia.
    apply nth_In. rewrite length_combine. lia. }
  specialize (Hcheck Hin). cbn [fst snd] in Hcheck.
  destruct (Req_dec_T (nth i mel_f 0) 0); [ now left | ].
  destruct (Rlt_dec 0 (nth i rowmax 0)); [ now right | discriminate ].
Qed.

(** X14.  Once the norm is supported and the sizes are valid
    ([n_mels >= 0], [n_fft >= 0]), [create_mel_filterbank] either returns
    a matrix or fails through the unbound name [warnings]; it raises no
    other error.  A matrix it returns has no empty band above 0 Hz: every
    band either has its left edge at 0 Hz or carries a positive
    weight. *)
Theorem filterbank_failure_modes (sr : R) (n_fft n_mels : Z) (fmin : R)
  (fmax : option R) (htk : bool) (norm : norm_t) :
  norm_unsupported norm = false -> (0 <= n_mels)%Z -> (0 <= n_fft)%Z ->
  (create_mel_filterbank sr n_fft n_mels fmin fmax htk norm
   = Raise (NameError "warnings")
   \/ exists w,
        create_mel_filterbank sr n_fft n_mels fmin fmax htk norm = Ok w)
  /\ forall w mel_f,
       create_mel_filterbank sr n_fft n_mels fmin fmax htk norm = Ok w ->
       mel_frequencies (n_mels + 2) fmin
         (match fmax with None => sr / 2 | Some v => v end) htk = Ok mel_f ->
       forall i : nat,
         (i < Z.to_nat n_mels)%nat ->
         nth i mel_f 0 = 0 \/ exists v, In v (nth i w []) /\ 0 < v.
Proof.
  intros Hsup Hn Hfft.
  assert (Hcols : (1 <= 1 + n_fft / 2)%Z).
  { pose proof (Z.div_pos n_fft 2 Hfft). lia. }
  split.
  - destruct (MelProps.filterbank_run sr n_fft n_mels fmin fmax htk norm
                Hsup Hn) as (fftfreqs & mels & _ & _ & _ & ->); [ lia | ].
    cbv zeta. unfold max_axis1.
    destruct (Z.eqb_spec (1 + n_fft / 2) 0) as [Hz | _]; [ lia | ].
    cbn [bind]. destruct (negb _); [ now left | right; eexists; reflexivity ].
  - intros w mel_f Hrun Hmel i Hi.
    destruct (filterbank_ok_inv _ _ _ _ _ _ _ _ Hrun)
      as (fftfreqs & mel_f' & _ & _ & Hmel' & Hmlen & _ & _ & _ & Hw & Hcheck).
    rewrite Hmel in Hmel'. injection Hmel' as <-.
    assert (Hwlen : List.length w = Z.to_nat n_mels).
    { rewrite Hw. cbv zeta. destruct (norm_is_one norm).
      - rewrite MelProps.enorm_as_map, MelProps.scale_rows_as_map by lia.
        now rewrite length_map, length_seq.
      - now rewrite length_map, length_seq. }
    destruct (no_empty_channel_nth mel_f (map row_max w) (Z.to_nat n_mels) i)
      as [Hzero | Hpos]; try assumption.
    + now rewrite length_map.
    + now left.
    + right. rewrite (nth_map_in_range row_max w i 0 []) in Hpos by lia.
      exists (row_max (nth i w [])). split; [ | exact Hpos ].
      apply row_max_attained. intros Hnil. rewrite Hnil in Hpos.
      cbn in Hpos. lra.
Qed.

Lemma filterbank_failure_modes_witness :
  create_mel_filterbank 800 4 1 400 (Some 0) false (NormNum 1)
  = Raise (NameError "warnings")
  \/ exists w,
       create_mel_filterbank 800 4 1 400 (Some 0) false (NormNum 1) = Ok w.
Proof.
  apply (filterbank_failure_modes 800 4 1 400 (Some 0) false (NormNum 1));
    [ apply MelProps.norm_one_supported | lia | lia ].
Defined.

(** X15.  Without area normalisation and for [0 <= fmin < fmax], every
    entry of the filterbank is the value of its band's triangle at its
    bin frequency: the band edges satisfy [left < centre < right], the
    weight lies in [[0, 1]], is 0 at and outside the edges, positive
    strictly between them, and 1 at the centre. *)
Theorem peak_filters_are_triangles (sr : R) (n_fft n_mels : Z) (fmin : R)
  (fmax : option R) (htk : bool) (w : list (list R))
  (mel_f fftfreqs : list R) (i k : nat) :
  create_mel_filterbank sr n_fft n_mels fmin fmax htk NormNone = Ok w ->
  mel_frequencies (n_mels + 2) fmin
    (match fmax with None => sr / 2 | Some v => v end) htk = Ok mel_f ->
  fft_frequencies sr n_fft = Ok fftfreqs ->
  0 <= fmin < match fmax with None => sr / 2 | Some v => v end ->
  (i < Z.to_nat n_mels)%nat -> (k < Z.to_nat (1 + n_fft / 2))%nat ->
  let left := nth i mel_f 0 in
  let centre := nth (i + 1) mel_f 0 in
  let right := nth (i + 2) mel_f 0 in
  let f := nth k fftfreqs 0 in
  let weight := nth k (nth i w []) 0 in
  left < centre < right
  /\ 0 <= weight <= 1
  /\ (f <= left \/ right <= f -> weight = 0)
  /\ (left < f < right -> 0 < weight)
  /\ (f = centre -> weight = 1).
Proof.
  intros Hrun Hmel Hfft Hrange Hi Hk.
  destruct (filterbank_ok_inv _ _ _ _ _ _ _ _ Hrun)
    as (fftfreqs' & mel_f' & Hfft' & Hflen & Hmel' & Hmlen & Hn & _ & _
        & -> & _).
  rewrite Hmel in Hmel'. injection Hmel' as <-.
  rewrite Hfft in Hfft'. injection Hfft' as <-.
  cbn [norm_is_one]. cbv zeta.
  assert (Hlc : nth i mel_f 0 < nth (i + 1) mel_f 0).
  { apply (MelGrid.mel_grid_lt (n_mels + 2) fmin
             (match fmax with None => sr / 2 | Some v => v end)
             htk mel_f); try lia; try lra; exact Hmel. }
  assert (Hcr : nth (i + 1) mel_f 0 < nth (i + 2) mel_f 0).
  { apply (MelGrid.mel_grid_lt (n_mels + 2) fmin
             (match fmax with None => sr / 2 | Some v => v end)
             htk mel_f); try lia; try lra; exact Hmel. }
  rewrite MelProps.nth_map_seq by exact Hi.
  rewrite band_row_formula by lia.
  rewrite (nth_map_in_range _ fftfreqs k 0 0) by lia.
  destruct (triangle_facts (nth i mel_f 0) (nth (i + 1) mel_f 0)
              (nth (i + 2) mel_f 0) (nth k fftfreqs 0) Hlc Hcr)
    as (Hb & Hl & Hr & Hc & Hin).
  split; [ split; assumption | ].
  split; [ exact Hb | ].
  split; [ intros [H | H]; [ now apply Hl | now apply Hr ] | ].
  split; assumption.
Qed.

Lemma peak_filters_are_triangles_witness :
  nth 0 [0; 200; 400] 0 < nth 1 [0; 200; 400] 0 < nth 2 [0; 200; 400] 0
  /\ 0 <= nth 1 (nth 0 [[0; 1; 0]] []) 0 <= 1.
Proof.
  destruct (peak_filters_are_triangles 800 4 1 0 None false [[0; 1; 0]]
              [0; 200; 400] [0; 200; 400] 0 1
              MelProps.filterbank_800_peak)
    as (Hedges & Hb & _).
  - replace (800 / 2) with 400 by lra. exact MelProps.mel_f_800.
  - exact MelProps.fft_frequencies_800.
  - lra.
  - simpl. lia.
  - simpl. lia.
  - split; assumption.
Defined.

End MelBank.

(** ** Delta: the synthesised kernels *)

Module DeltaKernels.

Import DeltaBank Examples.

Lemma build_scales_raise (n : nat) (scales : list (list R)) (lst : list R) :
  next_scale 0 lst = Raise ZeroDivisionError ->
  build_scales (S n) 0 scales lst = Raise ZeroDivisionError.
Proof. intros Hnext. cbn [build_scales]. now rewrite Hnext. Qed.

Lemma next_scale_zero_window : next_scale 0 [1] = Raise ZeroDivisionError.
Proof. reflexivity. Qed.

(** X16.  The filter bank of [Delta]: an order below one gives the single
    identity kernel [[1]] whatever the window; an order of at least one
    with a window of zero frames fails with [ZeroDivisionError] (the
    regression normaliser is zero); and for a window of at least one
    frame there are [order + 1] kernels, all of the odd length
    [2 * window_size * order + 1], the first being the centred
    identity. *)
Theorem create_filters_cases (order w : Z) :
  ((order <= 0)%Z -> _create_filters order w = Ok [[1]])
  /\ ((1 <= order)%Z -> _create_filters order 0 = Raise ZeroDivisionError)
  /\ ((0 <= order)%Z -> (1 <= w)%Z ->
      let pad := (Z.to_nat w * Z.to_nat order)%nat in
      exists filters,
        _create_filters order w = Ok filters
        /\ List.length filters = (Z.to_nat order + 1)%nat
        /\ Forall (fun f => List.length f = (2 * pad + 1)%nat) filters
        /\ nth 0 filters [] = repeat 0 pad ++ [1] ++ repeat 0 pad).
Proof.
  split; [ | split ].
  - intros Hle. unfold _create_filters.
    replace (Z.to_nat order) with 0%nat by lia. reflexivity.
  - intros Hge. unfold _create_filters.
    destruct (Z.to_nat order) as [ | n] eqn:Hn; [ lia | ].
    rewrite build_scales_raise by apply next_scale_zero_window.
    reflexivity.
  - intros Ho Hw. now apply DeltaProps.create_filters_spec.
Qed.

Lemma create_filters_cases_witness :
  _create_filters 0 5 = Ok [[1]]
  /\ _create_filters 2 0 = Raise ZeroDivisionError
  /\ exists filters,
       _create_filters 2 3 = Ok filters
       /\ List.length filters = 3%nat
       /\ Forall (fun f => List.length f = 13%nat) filters.
Proof.
  destruct (create_filters_cases 0 5) as (Hzero & _ & _).
  destruct (create_filters_cases 2 0) as (_ & Hraise & _).
  destruct (create_filters_cases 2 3) as (_ & _ & Hbank).
  split; [ apply Hzero; lia | ].
  split; [ apply Hraise; lia | ].
  destruct Hbank as (filters & Hrun & Hlen & Hall & _); try lia.
  exists filters. repeat split; assumption.
Defined.

(** *** The first-order kernel *)

Lemma add_at_prefix (v x : R) (done rest : list R) :
  add_at (List.length done) v (done ++ x :: rest) = done ++ (x + v) :: rest.
Proof.
  unfold add_at. rewrite nth_error_app2 by lia.
  rewrite Nat.sub_diag. cbn [nth_error].
  rewrite firstn_app, firstn_all, Nat.sub_diag. cbn [firstn].
  rewrite app_nil_r.
  replace (S (List.length done)) with (List.length done + 1)%nat by lia.
  rewrite skipn_app, skipn_all2 by lia.
  replace (List.length done + 1 - List.length done)%nat with 1%nat by lia.
  reflexivity.
Qed.

(** When the previous kernel has one tap, pass [i] of the outer loop
    writes entry [i] of [curr] and adds [j * j] to the normaliser. *)
Lemma outer_loop_fill (f : Z -> Z -> nat) (g : Z -> Z -> R) (k0 : Z)
  (jf : nat -> Z) (n : nat) :
  forall (m : nat) (a : Z),
    (m <= n)%nat ->
    (forall i, (i < m)%nat -> f (jf i) k0 = i) ->
    fold_left
      (fun (st : list R * Z) (j : Z) =>
         let '(curr, normalizer) := st in
         let normalizer := (normalizer + j * j)%Z in
         let curr := fold_left (fun c k => add_at (f j k) (g j k) c) [k0] curr in
         (curr, normalizer))
      (map jf (seq 0 m)) (repeat 0 n, a)
    = (map (fun i => 0 + g (jf i) k0) (seq 0 m) ++ repeat 0 (n - m),
       fold_left (fun s j => (s + j * j)%Z) (map jf (seq 0 m)) a).
Proof.
  induction m as [ | m IH]; intros a Hm Hidx.
  - cbn. now rewrite Nat.sub_0_r.
  - rewrite seq_S, !map_app, !fold_left_app.
    rewrite IH by (try lia; intros i Hi; apply Hidx; lia).
    cbn [map fold_left Nat.add].
    rewrite Hidx by lia.
    replace (n - m)%nat with (S (n - S m)) by lia. cbn [repeat].
    pose proof (add_at_prefix (g (jf m) k0) 0
                  (map (fun i => 0 + g (jf i) k0) (seq 0 m))
                  (repeat 0 (n - S m))) as Hadd.
    rewrite length_map, length_seq in Hadd. rewrite Hadd.
    now rewrite <- app_assoc.
Qed.

Lemma sum_squares_closed (lo : Z) (m : nat) :
  forall a : Z,
    (6 * (fold_left (fun s j => s + j * j)
                    (map (fun i => lo + Z.of_nat i) (seq 0 m)) a - a)
     = (lo + Z.of_nat m - 1) * (lo + Z.of_nat m)
       * (2 * (lo + Z.of_nat m) - 1)
       - (lo - 1) * lo * (2 * lo - 1))%Z.
Proof.
  induction m as [ | m IH]; intros a.
  - cbn [seq map fold_left]. replace (lo + Z.of_nat 0)%Z with lo by lia. ring.
  - rewrite seq_S, map_app, fold_left_app. cbn [map fold_left Nat.add].
    specialize (IH a). rewrite Nat2Z.inj_succ.
    set (r := fold_left _ _ a) in *.
    set (j := (lo + Z.of_nat m)%Z) in *.
    replace (lo + Z.succ (Z.of_nat m))%Z with (j + 1)%Z by (subst j; lia).
    assert (Hstep : ((j + 1 - 1) * (j + 1) * (2 * (j + 1) - 1)
                     = (j - 1) * j * (2 * j - 1) + 6 * (j * j))%Z) by ring.
    rewrite Hstep. lia.
Qed.

Lemma sum_linear_closed (lo : Z) (m : nat) :
  (2 * fold_right Z.add 0 (map (fun i => lo + Z.of_nat i) (seq 0 m))
   = Z.of_nat m * (2 * lo + Z.of_nat m - 1))%Z.
Proof.
  induction m as [ | m IH]; [ reflexivity | ].
  rewrite seq_S, map_app, fold_right_app. cbn [map fold_right Nat.add].
  assert (Hsplit : forall (l : list Z) (c : Z),
             fold_right Z.add c l = (fold_right Z.add 0 l + c)%Z).
  { induction l as [ | x l IHl]; intros c; cbn [fold_right]; [ lia | ].
    rewrite IHl. lia. }
  rewrite Hsplit. nia.
Qed.

Lemma zrange_as_map (lo hi : Z) :
  zrange lo hi
  = map (fun i => (lo + Z.of_nat i)%Z) (seq 0 (Z.to_nat (hi - lo))).
Proof. reflexivity. Qed.

Lemma accumulate_unit (w : Z) :
  (1 <= w)%Z ->
  accumulate w [1]
  = (map (fun j => 0 + IZR j * 1) (zrange (- w) (w + 1)),
     fold_left (fun s j => (s + j * j)%Z) (zrange (- w) (w + 1)) 0%Z).
Proof.
  intros Hw.
  pose proof (outer_loop_fill
                (fun j k => Z.to_nat (j + k + (0 + w)))
                (fun j k => IZR j * nth (Z.to_nat (k + 0)) [1] 0)
                0%Z (fun i => (- w + Z.of_nat i)%Z)
                (Z.to_nat (1 + 2 * w)) (Z.to_nat (w + 1 - - w)) 0%Z)
    as Hfill.
  rewrite zrange_as_map.
  change (accumulate w [1])
    with (fold_left
            (fun (st : list R * Z) (j : Z) =>
               let '(curr, normalizer) := st in
               let normalizer := (normalizer + j * j)%Z in
               let curr :=
                 fold_left
                   (fun c k =>
                      add_at (Z.to_nat (j + k + (0 + w)))
                             (IZR j * nth (Z.to_nat (k + 0)) [1] 0) c)
                   [0%Z] curr in
               (curr, normalizer))
            (map (fun i => (- w + Z.of_nat i)%Z)
                 (seq 0 (Z.to_nat (w + 1 - - w))))
            (repeat 0 (Z.to_nat (1 + 2 * w)), 0%Z)).
  rewrite Hfill by (try lia; intros i Hi; lia).
  replace (Z.to_nat (1 + 2 * w) - Z.to_nat (w + 1 - - w))%nat with 0%nat
    by lia.
  cbn [repeat]. rewrite app_nil_r, map_map. reflexivity.
Qed.

Lemma normalizer_closed (w : Z) :
  (1 <= w)%Z ->
  (3 * fold_left (fun s j => s + j * j) (zrange (- w) (w + 1)) 0
   = w * (w + 1) * (2 * w + 1))%Z.
Proof.
  intros Hw. rewrite zrange_as_map.
  pose proof (sum_squares_closed (- w) (Z.to_nat (w + 1 - - w)) 0) as Hsum.
  replace (- w + Z.of_nat (Z.to_nat (w + 1 - - w)))%Z with (w + 1)%Z
    in Hsum by lia.
  set (r := fold_left _ _ 0%Z) in *.
  assert (Hpoly : ((w + 1 - 1) * (w + 1) * (2 * (w + 1) - 1)
                   - (- w - 1) * - w * (2 * - w - 1)
                   = 2 * (w * (w + 1) * (2 * w + 1)))%Z) by ring.
  lia.
Qed.

(** The kernels of [Delta(order=1, window_size=w)]. *)
Lemma first_order_filters (w : Z) :
  (1 <= w)%Z ->
  let N := fold_left (fun s j => (s + j * j)%Z) (zrange (- w) (w + 1)) 0%Z in
  (0 < N)%Z
  /\ _create_filters 1 w
     = Ok [repeat 0 (Z.to_nat w) ++ [1] ++ repeat 0 (Z.to_nat w);
           map (fun j => IZR j / IZR N) (zrange (- w) (w + 1))].
Proof.
  intros Hw N.
  assert (HN : (0 < N)%Z).
  { pose proof (normalizer_closed w Hw) as Hc. fold N in Hc. nia. }
  split; [ exact HN | ].
  unfold _create_filters. change (Z.to_nat 1) with 1%nat.
  cbn [build_scales]. unfold next_scale.
  rewrite accumulate_unit by exact Hw. fold N.
  assert (Hlen : List.length (zrange (- w) (w + 1))
                 = (2 * Z.to_nat w + 1)%nat).
  { unfold zrange. rewrite length_map, length_seq. lia. }
  destruct (map (fun j => 0 + IZR j * 1) (zrange (- w) (w + 1)))
    as [ | c0 cs] eqn:Hcurr.
  { apply (f_equal (@List.length R)) in Hcurr.
    rewrite length_map, Hlen in Hcurr. cbn in Hcurr. lia. }
  destruct (Z.eqb_spec N 0) as [Hz | _]; [ lia | ].
  rewrite <- Hcurr. cbn [bind app]. unfold pad_scales.
  cbn [last removelast map app]. unfold pad_scale.
  rewrite !length_map, Hlen. cbn [List.length].
  replace ((2 * Z.to_nat w + 1 - 1) / 2)%nat with (Z.to_nat w)
    by (rewrite Nat.add_sub, Nat.mul_comm, Nat.div_mul; lia).
  rewrite map_map. do 3 f_equal.
  apply map_ext. intros j. unfold Rdiv. ring.
Qed.

Lemma rsum_IZR_scaled (c : R) (js : list Z) :
  rsum (map (fun j => IZR j / c) js) = IZR (fold_right Z.add 0%Z js) / c.
Proof.
  induction js as [ | j js IH].
  - cbn. unfold Rdiv. ring.
  - cbn [map fold_right].
    change (rsum (IZR j / c :: map (fun j => IZR j / c) js))
      with (IZR j / c + rsum (map (fun j => IZR j / c) js)).
    rewrite IH, plus_IZR. unfold Rdiv. ring.
Qed.

Lemma zrange_sum_zero (w : Z) :
  (1 <= w)%Z -> fold_right Z.add 0%Z (zrange (- w) (w + 1)) = 0%Z.
Proof.
  intros Hw. rewrite zrange_as_map.
  pose proof (sum_linear_closed (- w) (Z.to_nat (w + 1 - - w))) as Hsum.
  nia.
Qed.

(** X19.  For [order = 1] and a window of [w >= 1] frames the bank is the
    centred identity and the regression kernel [j / N] for
    [j = -w, ..., w], with [N] the sum of the squares [j * j], that is
    [w (w + 1) (2 w + 1) / 3]; the taps of the regression kernel sum to
    zero. *)
Theorem first_order_kernel (w : Z) :
  (1 <= w)%Z ->
  exists N : Z,
    (3 * N = w * (w + 1) * (2 * w + 1))%Z
    /\ _create_filters 1 w
       = Ok [repeat 0 (Z.to_nat w) ++ [1] ++ repeat 0 (Z.to_nat w);
             map (fun j => IZR j / IZR N) (zrange (- w) (w + 1))]
    /\ rsum (map (fun j => IZR j / IZR N) (zrange (- w) (w + 1))) = 0.
Proof.
  intros Hw.
  destruct (first_order_filters w Hw) as [HN Hrun].
  eexists. split; [ now apply normalizer_closed | ].
  split; [ exact Hrun | ].
  rewrite rsum_IZR_scaled, zrange_sum_zero by exact Hw.
  unfold Rdiv. ring.
Qed.

Lemma first_order_kernel_witness :
  exists N : Z,
    (3 * N = 2 * (2 + 1) * (2 * 2 + 1))%Z
    /\ _create_filters 1 2
       = Ok [repeat 0 (Z.to_nat 2) ++ [1] ++ repeat 0 (Z.to_nat 2);
             map (fun j => IZR j / IZR N) (zrange (- (2)) (2 + 1))].
Proof.
  destruct (first_order_kernel 2) as (N & HN & Hrun & _); [ lia | ].
  exists N. split; assumption.
Defined.

(** *** The regression kernel on a ramp *)

Lemma fold_left_sumsq (js : list Z) :
  forall a : Z,
    fold_left (fun s j => (s + j * j)%Z) js a
    = (a + fold_right (fun j acc => j * j + acc) 0 js)%Z.
Proof.
  induction js as [ | j js IH]; intros a; cbn [fold_left fold_right].
  - lia.
  - rewrite IH. lia.
Qed.

Lemma rsum_kernel_ramp (c A b : R) (js : list Z) :
  rsum (map (fun j => IZR j / c * (A + b * IZR j)) js)
  = (A * IZR (fold_right Z.add 0%Z js)
     + b * IZR (fold_right (fun j acc => (j * j + acc)%Z) 0%Z js)) / c.
Proof.
  induction js as [ | j js IH].
  - cbn. unfold Rdiv. ring.
  - cbn [map fold_right].
    change (rsum (IZR j / c * (A + b * IZR j)
                  :: map (fun j => IZR j / c * (A + b * IZR j)) js))
      with (IZR j / c * (A + b * IZR j)
            + rsum (map (fun j => IZR j / c * (A + b * IZR j)) js)).
    rewrite IH, !plus_IZR, mult_IZR. unfold Rdiv. ring.
Qed.

Lemma correlate_ramp (w : Z) (row : list R) (a slope : R) (m : nat) :
  (1 <= w)%Z ->
  (forall p, (p < List.length row)%nat -> nth p row 0 = a + slope * INR p) ->
  (Z.to_nat w <= m)%nat -> (m + Z.to_nat w < List.length row)%nat ->
  let N := fold_left (fun s j => (s + j * j)%Z) (zrange (- w) (w + 1)) 0%Z in
  nth m (correlate_row (map (fun j => IZR j / IZR N) (zrange (- w) (w + 1)))
                       (Z.to_nat w) row) 0
  = slope.
Proof.
  intros Hw Hramp Hlo Hhi N.
  set (p := Z.to_nat w) in *.
  assert (HN : (0 < N)%Z).
  { pose proof (normalizer_closed w Hw) as Hc. fold N in Hc. nia. }
  assert (Hlen : List.length (zrange (- w) (w + 1)) = (2 * p + 1)%nat).
  { unfold zrange. rewrite length_map, length_seq. lia. }
  unfold correlate_row. rewrite length_map, Hlen.
  rewrite !length_app, !repeat_length.
  rewrite (MelBank.nth_map_in_range _ _ m 0 0%nat)
    by (rewrite length_seq; lia).
  rewrite seq_nth by lia. cbn [Nat.add].
  rewrite MelProps.firstn_as_map
    by (rewrite length_skipn, !length_app, !repeat_length; lia).
  rewrite zrange_as_map, map_map.
  replace (Z.to_nat (w + 1 - - w)) with (2 * p + 1)%nat by lia.
  unfold dot. rewrite MelProps.combine_map_same, map_map. cbn [fst snd].
  transitivity
    (rsum (map (fun j => IZR j / IZR N * (a + slope * INR m + slope * IZR j))
               (zrange (- w) (w + 1)))).
  - rewrite zrange_as_map, map_map.
    replace (Z.to_nat (w + 1 - - w)) with (2 * p + 1)%nat by lia.
    f_equal. apply map_ext_in. intros i Hi. apply in_seq in Hi.
    f_equal.
    rewrite nth_skipn, app_nth2 by (rewrite repeat_length; lia).
    rewrite repeat_length, app_nth1 by lia.
    rewrite Hramp by lia.
    rewrite minus_INR, plus_INR by lia.
    rewrite plus_IZR, opp_IZR, <- INR_IZR_INZ.
    replace (IZR w) with (INR p)
      by (subst p; rewrite INR_IZR_INZ, Z2Nat.id by lia; reflexivity).
    ring.
  - rewrite rsum_kernel_ramp, zrange_sum_zero by exact Hw.
    pose proof (fold_left_sumsq (zrange (- w) (w + 1)) 0) as Hsq.
    fold N in Hsq. rewrite Z.add_0_l in Hsq. rewrite <- Hsq.
    field. apply not_0_IZR. lia.
Qed.

Lemma init_first_order (w : Z) (flag : bool) :
  (1 <= w)%Z ->
  let N := fold_left (fun s j => (s + j * j)%Z) (zrange (- w) (w + 1)) 0%Z in
  init 1 w flag
  = Ok {| order := 1; window_size := w; batch := flag;
          filters :=
            [repeat 0 (Z.to_nat w) ++ [1] ++ repeat 0 (Z.to_nat w);
             map (fun j => IZR j / IZR N) (zrange (- w) (w + 1))];
          padding := (0%nat, Z.to_nat w) |}.
Proof.
  intros Hw N. unfold init.
  rewrite (proj2 (first_order_filters w Hw)). fold N. cbn [bind nth].
  rewrite !length_app, !repeat_length. cbn [List.length].
  replace ((Z.to_nat w + (1 + Z.to_nat w) - 1) / 2)%nat with (Z.to_nat w).
  - reflexivity.
  - replace (Z.to_nat w + (1 + Z.to_nat w) - 1)%nat
      with (Z.to_nat w * 2)%nat by lia.
    now rewrite Nat.div_mul by lia.
Qed.

(** X20.  The first-order delta of a ramp is its slope.  For
    [Delta(order=1, window_size=w, batch=False)] with [w >= 1] and any
    non-empty rectangular input (behind the leading axis of size one), the
    delta channel (channel 1) of [forward] equals
    [slope] at every position that has [w] neighbours on both sides, in
    every row whose entries are [a + slope * p] along the last axis; in
    particular it is 0 there on constant rows. *)
Theorem delta_of_ramp (w : Z) (plane : list (list R)) (W : nat) :
  (1 <= w)%Z -> plane <> [] -> (1 <= W)%nat ->
  Forall (fun row => List.length row = W) plane ->
  exists self out,
    init 1 w false = Ok self
    /\ forward self [plane] = Ok (Unbatched out)
    /\ forall (h m : nat) (a slope : R),
         (h < List.length plane)%nat ->
         (forall p, (p < W)%nat ->
                    nth p (nth h plane []) 0 = a + slope * INR p) ->
         (Z.to_nat w <= m)%nat -> (m + Z.to_nat w < W)%nat ->
         nth m (nth h (nth 1 out []) []) 0 = slope.
Proof.
  intros Hw Hne HW Hrect.
  pose proof (init_first_order w false Hw) as Hinit. cbv zeta in Hinit.
  set (N := fold_left (fun s j => (s + j * j)%Z) (zrange (- w) (w + 1)) 0%Z)
    in *.
  eexists. eexists. split; [ exact Hinit | ].
  assert (Hrow0 : List.length (nth 0 plane []) = W).
  { destruct plane as [ | r plane]; [ contradiction | ].
    now inversion Hrect. }
  unfold forward. cbn [batch]. unfold conv2d_plane.
  cbn [filters padding fst snd nth].
  rewrite Hrow0, !length_app, !repeat_length. cbn [List.length].
  destruct (Nat.ltb_spec (List.length plane + 2 * 0) 1) as [Hlt | _].
  { destruct plane; [ contradiction | cbn in Hlt; lia ]. }
  destruct (Nat.ltb_spec (W + 2 * Z.to_nat w)
                         (Z.to_nat w + (1 + Z.to_nat w))) as [Hlt | _];
    [ lia | ].
  cbn [orb repeat app map bind]. rewrite app_nil_r.
  split; [ reflexivity | ].
  intros h m a slope Hh Hramp Hlo Hhi. cbn [nth].
  rewrite (MelBank.nth_map_in_range _ plane h [] []) by exact Hh.
  assert (Hlen : List.length (nth h plane []) = W).
  { rewrite Forall_forall in Hrect. apply Hrect. now apply nth_In. }
  apply (correlate_ramp w (nth h plane []) a slope m Hw);
    rewrite ?Hlen; assumption.
Qed.

Lemma delta_of_ramp_witness :
  exists self out,
    init 1 2 false = Ok self
    /\ forward self [[[1; 2; 3; 4; 5]]] = Ok (Unbatched out)
    /\ nth 2 (nth 0 (nth 1 out []) []) 0 = 1.
Proof.
  destruct (delta_of_ramp 2 [[1; 2; 3; 4; 5]] 5)
    as (self & out & Hinit & Hrun & Hslope).
  - lia.
  - discriminate.
  - lia.
  - repeat constructor.
  - exists self, out. split; [ exact Hinit | ]. split; [ exact Hrun | ].
    apply (Hslope 0%nat 2%nat 1 1).
    + simpl. lia.
    + intros p Hp.
      do 5 (destruct p as [ | p]; [ simpl; lra | ]). lia.
    + simpl. lia.
    + simpl. lia.
Defined.

End DeltaKernels.

(** ** CMVN: statistics of the normalised lanes *)

Module CmvnStats.

Import Cmvn.

Lemma rsum_shift_scale (m c : R) (l : list R) :
  rsum (map (fun v => (v - m) / c) l)
  = (rsum l - INR (List.length l) * m) / c.
Proof.
  induction l as [ | x l IH].
  - cbn. unfold Rdiv. ring.
  - cbn [map List.length]. rewrite S_INR.
    change (rsum ((x - m) / c :: map (fun v => (v - m) / c) l))
      with ((x - m) / c + rsum (map (fun v => (v - m) / c) l)).
    change (rsum (x :: l)) with (x + rsum l).
    rewrite IH. unfold Rdiv. ring.
Qed.

Lemma rsum_map_scale (f : R -> R) (k : R) (l : list R) :
  rsum (map (fun v => f v * k) l) = rsum (map f l) * k.
Proof.
  induction l as [ | x l IH]; [ cbn; ring | ].
  cbn [map].
  change (rsum (f x * k :: map (fun v => f v * k) l))
    with (f x * k + rsum (map (fun v => f v * k) l)).
  change (rsum (f x :: map f l)) with (f x + rsum (map f l)).
  rewrite IH. ring.
Qed.

Lemma std_nonneg (lane : list R) : 0 <= std lane.
Proof. unfold std. apply sqrt_pos. Qed.

Lemma mean_normalize_lane (eps : R) (lane : list R) :
  (1 <= List.length lane)%nat -> mean (normalize_lane eps lane) = 0.
Proof.
  intros Hlen. unfold mean at 1, normalize_lane.
  rewrite rsum_shift_scale, length_map. unfold mean.
  assert (Hn : INR (List.length lane) <> 0) by (apply not_0_INR; lia).
  replace (rsum lane - INR (List.length lane)
                       * (rsum lane / INR (List.length lane)))
    with 0 by (field; exact Hn).
  unfold Rdiv. ring.
Qed.

Lemma std_normalize_lane (eps : R) (lane : list R) :
  0 < eps -> (2 <= List.length lane)%nat ->
  std (normalize_lane eps lane) = std lane / (eps + std lane).
Proof.
  intros Heps Hlen.
  pose proof (std_nonneg lane) as Hstd.
  set (c := eps + std lane). assert (Hc : 0 < c) by (subst c; lra).
  unfold std at 1. rewrite mean_normalize_lane by lia.
  unfold normalize_lane. fold c. rewrite map_map, length_map.
  assert (Hn : INR (List.length lane - 1) <> 0) by (apply not_0_INR; lia).
  replace (rsum (map (fun v => ((v - mean lane) / c - 0)
                               * ((v - mean lane) / c - 0)) lane))
    with (rsum (map (fun v => (v - mean lane) * (v - mean lane)) lane)
          * (/ c * / c)).
  - replace (rsum (map (fun v => (v - mean lane) * (v - mean lane)) lane)
             * (/ c * / c) / INR (List.length lane - 1))
      with (rsum (map (fun v => (v - mean lane) * (v - mean lane)) lane)
            / INR (List.length lane - 1) / (c * c))
      by (field; split; lra).
    rewrite sqrt_div_alt by nra.
    rewrite sqrt_square by lra. reflexivity.
  - rewrite <- rsum_map_scale. f_equal. apply map_ext. intros v.
    unfold Rdiv. ring.
Qed.

(** X17.  A CMVN module in mode "global" with [eps > 0] returns the
    normalised tensor, and every lane of at least two entries that is not
    constant (its standard deviation [s] is positive) comes out with mean
    0 and with standard deviation [s / (eps + s)], a value strictly
    between 0 and 1. *)
Theorem cmvn_statistics (self : CMVN) (x : list (list R)) :
  mode self = "global"%string -> 0 < eps self ->
  forward self x = Ok (Some (map (normalize_lane (eps self)) x))
  /\ forall lane : list R,
       In lane x -> (2 <= List.length lane)%nat -> 0 < std lane ->
       mean (normalize_lane (eps self) lane) = 0
       /\ std (normalize_lane (eps self) lane)
          = std lane / (eps self + std lane)
       /\ 0 < std (normalize_lane (eps self) lane) < 1.
Proof.
  intros Hmode Heps. split.
  - unfold forward. now rewrite Hmode.
  - intros lane _ Hlen Hstd.
    split; [ apply mean_normalize_lane; lia | ].
    split; [ now apply std_normalize_lane | ].
    rewrite std_normalize_lane by assumption.
    split.
    + apply Rdiv_lt_0_compat; lra.
    + apply (Rmult_lt_reg_r (eps self + std lane)); [ lra | ].
      unfold Rdiv. rewrite Rmult_assoc, Rinv_l by lra. lra.
Qed.

Lemma std_of_1_3 : std [1; 3] = sqrt 2.
Proof.
  unfold std, mean. cbn [List.length map Nat.sub INR].
  f_equal. unfold rsum. cbn [fold_right]. field.
Qed.

Lemma cmvn_statistics_witness :
  mean (normalize_lane 1e-10 [1; 3]) = 0
  /\ 0 < std (normalize_lane 1e-10 [1; 3]) < 1.
Proof.
  destruct (cmvn_statistics {| mode := "global"; dim := 2; eps := 1e-10 |}
              [[1; 3]]) as [_ Hstat].
  - reflexivity.
  - simpl. lra.
  - destruct (Hstat [1; 3]) as (Hmean & _ & Hstd).
    + now left.
    + simpl. lia.
    + rewrite std_of_1_3. apply sqrt_lt_R0. lra.
    + split; assumption.
Defined.

End CmvnStats.

(** ** Configuration: what [pop_audio_config] consumes *)

Module ConfigProps.

Import Config.

Section Facts.

Variable V : Type.

Lemma lookup_remove_same (key : string) (d : dict V) :
  lookup key (remove key d) = None.
Proof.
  unfold lookup, remove. induction d as [ | [k v] d IH]; [ reflexivity | ].
  cbn [filter fst]. destruct (String.eqb_spec k key) as [Heq | Hne].
  - exact IH.
  - cbn [negb find fst]. destruct (String.eqb_spec k key); [ contradiction | ].
    exact IH.
Qed.

Lemma lookup_remove_other (key other : string) (d : dict V) :
  key <> other -> lookup key (remove other d) = lookup key d.
Proof.
  intros Hne. unfold lookup, remove.
  induction d as [ | [k v] d IH]; [ reflexivity | ].
  cbn [filter find fst].
  destruct (String.eqb_spec k other) as [Hko | Hko]; cbn [negb].
  - destruct (String.eqb_spec k key) as [Hkk | _]; [ congruence | exact IH ].
  - cbn [find fst]. destruct (String.eqb_spec k key); [ reflexivity | exact IH ].
Qed.

Lemma remove_comm (k1 k2 : string) (d : dict V) :
  remove k1 (remove k2 d) = remove k2 (remove k1 d).
Proof.
  unfold remove. induction d as [ | [k v] d IH]; [ reflexivity | ].
  cbn [filter fst].
  destruct (String.eqb k k2) eqn:H2, (String.eqb k k1) eqn:H1;
    cbn [negb filter fst]; rewrite ?H1, ?H2; cbn [negb]; now rewrite ?IH.
Qed.

Lemma in_remove (key : string) (kv : string * V) (d : dict V) :
  In kv (remove key d) <-> In kv d /\ fst kv <> key.
Proof.
  unfold remove. rewrite filter_In. split; intros [Hin Hk]; split; auto.
  - destruct (String.eqb_spec (fst kv) key); [ discriminate | assumption ].
  - destruct (String.eqb_spec (fst kv) key); [ contradiction | reflexivity ].
Qed.

(** The dictionary after the two defaulted pops and the pops of the
    given required keys. *)
Lemma pop_run (d : dict V) :
  let d2 := remove "delta_window_size" (remove "delta_order" d) in
  pop_audio_config d
  = match lookup "apply_cmvn" d with
    | None => (d2, KeyError "apply_cmvn")
    | Some _ =>
        let d3 := remove "apply_cmvn" d2 in
        match lookup "feat_type" d with
        | None => (d3, KeyError "feat_type")
        | Some feat_type =>
            let d4 := remove "feat_type" d3 in
            match lookup "feat_dim" d with
            | None => (d4, KeyError "feat_dim")
            | Some feat_dim =>
                (remove "feat_dim" d4, Returned (feat_type, feat_dim))
            end
        end
    end.
Proof.
  cbv zeta. unfold pop_audio_config, and_then, pop_default, pop.
  rewrite !lookup_remove_other by discriminate.
  destruct (lookup "apply_cmvn" d); [ | reflexivity ].
  rewrite !lookup_remove_other by discriminate.
  destruct (lookup "feat_type" d); [ | reflexivity ].
  rewrite !lookup_remove_other by discriminate.
  destruct (lookup "feat_dim" d); reflexivity.
Qed.

(** X21.  [pop_audio_config] succeeds exactly when the dictionary binds
    "apply_cmvn", "feat_type" and "feat_dim"; it then returns the last
    two values and leaves in the caller's dictionary precisely the
    entries under other keys than the five it pops, in their order.
    Otherwise it raises [KeyError] for the first missing key in that
    order.  It is not repeatable: a second call on the dictionary it
    returned raises [KeyError] for "apply_cmvn". *)
Theorem pop_audio_config_outcome (d : dict V) :
  (forall cmvn feat_type feat_dim,
      lookup "apply_cmvn" d = Some cmvn ->
      lookup "feat_type" d = Some feat_type ->
      lookup "feat_dim" d = Some feat_dim ->
      exists rest,
        pop_audio_config d = (rest, Returned (feat_type, feat_dim))
        /\ (forall kv,
               In kv rest
               <-> In kv d
                   /\ ~ In (fst kv)
                        ["delta_order"; "delta_window_size"; "apply_cmvn";
                         "feat_type"; "feat_dim"]%string)
        /\ snd (pop_audio_config rest) = KeyError "apply_cmvn")
  /\ (forall rest pair,
         pop_audio_config d = (rest, Returned pair) ->
         lookup "apply_cmvn" d <> None
         /\ lookup "feat_type" d = Some (fst pair)
         /\ lookup "feat_dim" d = Some (snd pair))
  /\ (lookup "apply_cmvn" d = None ->
      snd (pop_audio_config d) = KeyError "apply_cmvn")
  /\ (lookup "apply_cmvn" d <> None -> lookup "feat_type" d = None ->
      snd (pop_audio_config d) = KeyError "feat_type")
  /\ (lookup "apply_cmvn" d <> None -> lookup "feat_type" d <> None ->
      lookup "feat_dim" d = None ->
      snd (pop_audio_config d) = KeyError "feat_dim").
Proof.
  pose proof (pop_run d) as Hrun. cbv zeta in Hrun.
  split; [ | split; [ | split; [ | split ] ] ].
  - intros cmvn feat_type feat_dim Hc Ht Hd.
    rewrite Hc, Ht, Hd in Hrun. eexists. split; [ exact Hrun | ]. split.
    + intros kv. rewrite !in_remove. cbn [In]. intuition congruence.
    + rewrite pop_run. cbv zeta.
      rewrite !(lookup_remove_other "apply_cmvn") by discriminate.
      now rewrite lookup_remove_same.
  - intros rest pair Hok. rewrite Hok in Hrun.
    destruct (lookup "apply_cmvn" d); [ | discriminate ].
    destruct (lookup "feat_type" d); [ | discriminate ].
    destruct (lookup "feat_dim" d); [ | discriminate ].
    injection Hrun as _ ->. repeat split. discriminate.
  - intros Hc. now rewrite Hrun, Hc.
  - intros Hc Ht. rewrite Hrun, Ht.
    destruct (lookup "apply_cmvn" d); [ reflexivity | contradiction ].
  - intros Hc Ht Hd. rewrite Hrun, Hd.
    destruct (lookup "apply_cmvn" d); [ | contradiction ].
    destruct (lookup "feat_type" d); [ reflexivity | contradiction ].
Qed.

End Facts.

Lemma pop_audio_config_outcome_witness :
  exists rest,
    pop_audio_config
      [("feat_type", 1%nat); ("feat_dim", 40%nat); ("apply_cmvn", 0%nat);
       ("delta_order", 2%nat); ("frame_length", 25%nat)]%string
    = (rest, Returned (1%nat, 40%nat))
    /\ snd (pop_audio_config rest) = KeyError "apply_cmvn".
Proof.
  destruct (pop_audio_config_outcome nat
              [("feat_type", 1%nat); ("feat_dim", 40%nat);
               ("apply_cmvn", 0%nat); ("delta_order", 2%nat);
               ("frame_length", 25%nat)]%string) as (Hok & _).
  destruct (Hok 0%nat 1%nat 40%nat) as (rest & Hrun & _ & Hagain);
    try reflexivity.
  exists rest. split; assumption.
Defined.

End ConfigProps.

(** ** Postprocess: the time-major feature matrix *)

Module PostProps.

Import Post.

Lemma length_concat_rect (F : nat) (rows : list (list R)) :
  Forall (fun r => List.length r = F) rows ->
  List.length (concat rows) = (List.length rows * F)%nat.
Proof.
  induction 1 as [ | r rows Hr _ IH]; [ reflexivity | ].
  cbn [concat List.length]. rewrite length_app, Hr, IH. lia.
Qed.

Lemma nth_concat_rect (F : nat) (d : R) (rows : list (list R)) :
  Forall (fun r => List.length r = F) rows ->
  forall c f : nat,
    (c < List.length rows)%nat -> (f < F)%nat ->
    nth (c * F + f) (concat rows) d = nth f (nth c rows []) d.
Proof.
  induction 1 as [ | r rows Hr _ IH]; intros c f Hc Hf;
    [ cbn in Hc; lia | ].
  cbn [concat]. destruct c as [ | c].
  - cbn [Nat.mul Nat.add nth]. apply app_nth1. lia.
  - rewrite app_nth2 by (rewrite Hr; nia).
    rewrite Hr. replace (S c * F + f - F)%nat with (c * F + f)%nat by nia.
    cbn [nth]. apply IH; [ cbn in Hc; lia | exact Hf ].
Qed.

(** The shape hypothesis: [x] is a (C, F, T) tensor. *)
Lemma first_slices (x : list (list (list R))) (F T : nat) :
  x <> [] -> (1 <= F)%nat ->
  Forall (fun ch => List.length ch = F
                    /\ Forall (fun row => List.length row = T) ch) x ->
  List.length (nth 0 x []) = F
  /\ List.length (nth 0 (nth 0 x []) []) = T.
Proof.
  intros Hne HF Hrect. destruct x as [ | ch x]; [ contradiction | ].
  inversion Hrect as [ | ? ? [Hch Hrows] _]; subst. cbn [nth].
  split; [ reflexivity | ].
  destruct ch as [ | row ch]; [ cbn in HF; lia | ].
  now inversion Hrows.
Qed.

Lemma permuted_entry (x : list (list (list R))) (F T t c f : nat) :
  Forall (fun ch => List.length ch = F
                    /\ Forall (fun row => List.length row = T) ch) x ->
  (c < List.length x)%nat -> (f < F)%nat ->
  nth f (nth c (map (fun ch => map (fun row => nth t row 0) ch) x) []) 0
  = nth t (nth f (nth c x []) []) 0.
Proof.
  intros Hrect Hc Hf.
  rewrite (MelBank.nth_map_in_range _ x c [] []) by exact Hc.
  rewrite Forall_forall in Hrect.
  destruct (Hrect (nth c x [])) as [Hlen _]; [ now apply nth_In | ].
  now rewrite (MelBank.nth_map_in_range _ (nth c x []) f 0 []) by lia.
Qed.

Lemma flatten_spec (x : list (list (list R))) (C F T : nat) :
  List.length x = C -> (1 <= C)%nat -> (1 <= F)%nat -> (1 <= T)%nat ->
  Forall (fun ch => List.length ch = F
                    /\ Forall (fun row => List.length row = T) ch) x ->
  let y := map (@concat R) (permute_201 x) in
  forward {| detach := true; batch := false |} (Rank3 x) = Ok (Rank2 y)
  /\ List.length y = T
  /\ Forall (fun row => List.length row = (C * F)%nat) y
  /\ forall t c f : nat,
       (t < T)%nat -> (c < C)%nat -> (f < F)%nat ->
       nth (c * F + f) (nth t y []) 0 = nth t (nth f (nth c x []) []) 0.
Proof.
  intros HC H1 H2 H3 Hrect y.
  assert (Hne : x <> []) by (destruct x; [ cbn in HC; lia | discriminate ]).
  destruct (first_slices x F T Hne H2 Hrect) as [HF HT].
  assert (Hrows : forall t,
            Forall (fun r => List.length r = F)
                   (map (fun ch => map (fun row => nth t row 0) ch) x)).
  { intros t. apply Forall_map. eapply Forall_impl; [ | exact Hrect ].
    intros ch [Hch _]. cbn beta. now rewrite length_map. }
  split.
  - unfold forward. cbn [batch detach]. unfold numel3.
    rewrite HC, HF, HT.
    destruct (Nat.eqb_spec (C * F * T) 0) as [Hz | _]; [ nia | reflexivity ].
  - subst y. unfold permute_201. rewrite HT, map_map.
    split; [ now rewrite length_map, length_seq | ].
    split.
    + apply Forall_map, Forall_forall. intros t _.
      rewrite (length_concat_rect F) by apply Hrows.
      rewrite length_map. now rewrite HC.
    + intros t c f Ht Hc Hf.
      rewrite MelProps.nth_map_seq by exact Ht.
      rewrite (nth_concat_rect F) by (try apply Hrows; rewrite ?length_map; lia).
      apply (permuted_entry x F T); [ exact Hrect | lia | exact Hf ].
Qed.

(** X22.  For a tensor of shape (C, F, T) with no empty axis,
    [Postprocess] with its default flags returns the time-major matrix of
    T rows and C * F columns whose entry [(t, c * F + f)] is entry
    [(c, f, t)] of the input; with [detach = False] it returns the
    permuted tensor of shape (T, C, F) with the same entries. *)
Theorem postprocess_time_major (x : list (list (list R))) (C F T : nat) :
  List.length x = C -> (1 <= C)%nat -> (1 <= F)%nat -> (1 <= T)%nat ->
  Forall (fun ch => List.length ch = F
                    /\ Forall (fun row => List.length row = T) ch) x ->
  (exists y,
      forward {| detach := true; batch := false |} (Rank3 x) = Ok (Rank2 y)
      /\ List.length y = T
      /\ Forall (fun row => List.length row = (C * F)%nat) y
      /\ forall t c f : nat,
           (t < T)%nat -> (c < C)%nat -> (f < F)%nat ->
           nth (c * F + f) (nth t y []) 0 = nth t (nth f (nth c x []) []) 0)
  /\ (exists z,
         forward {| detach := false; batch := false |} (Rank3 x)
         = Ok (Rank3 z)
         /\ List.length z = T
         /\ forall t c f : nat,
              (t < T)%nat -> (c < C)%nat -> (f < F)%nat ->
              nth f (nth c (nth t z []) []) 0
              = nth t (nth f (nth c x []) []) 0).
Proof.
  intros HC H1 H2 H3 Hrect. split.
  - eexists. apply (flatten_spec x C F T); assumption.
  - assert (Hne : x <> []) by (destruct x; [ cbn in HC; lia | discriminate ]).
    destruct (first_slices x F T Hne H2 Hrect) as [HF HT].
    eexists. split.
    + unfold forward. cbn [batch detach]. unfold numel3.
      rewrite HC, HF, HT.
      destruct (Nat.eqb_spec (C * F * T) 0) as [Hz | _];
        [ nia | reflexivity ].
    + unfold permute_201. rewrite HT.
      split; [ now rewrite length_map, length_seq | ].
      intros t c f Ht Hc Hf.
      rewrite MelProps.nth_map_seq by exact Ht.
      apply (permuted_entry x F T); [ exact Hrect | lia | exact Hf ].
Qed.

Lemma postprocess_time_major_witness :
  exists y,
    forward {| detach := true; batch := false |}
            (Rank3 [[[1; 2; 3]; [4; 5; 6]]]) = Ok (Rank2 y)
    /\ List.length y = 3%nat
    /\ nth (0 * 2 + 1) (nth 2 y []) 0 = 6.
Proof.
  destruct (postprocess_time_major [[[1; 2; 3]; [4; 5; 6]]] 1 2 3)
    as [(y & Hrun & Hlen & _ & Hentry) _]; try (simpl; lia).
  - repeat constructor.
  - exists y. split; [ exact Hrun | ]. split; [ exact Hlen | ].
    rewrite Hentry by lia. reflexivity.
Defined.

End PostProps.

(** ** Delta followed by Postprocess: the width of the feature matrix *)

Module PipelineShape.

Import DeltaBank.

Lemma delta_bank_run (order w : Z) (plane : list (list R)) (W : nat) :
  (0 <= order)%Z -> (1 <= w)%Z -> plane <> [] -> (1 <= W)%nat ->
  Forall (fun row => List.length row = W) plane ->
  let pad := (Z.to_nat w * Z.to_nat order)%nat in
  exists self,
    init order w false = Ok self
    /\ List.length (filters self) = (Z.to_nat order + 1)%nat
    /\ Forall (fun f => List.length f = (2 * pad + 1)%nat) (filters self)
    /\ nth 0 (filters self) [] = repeat 0 pad ++ [1] ++ repeat 0 pad
    /\ forward self [plane]
       = Ok (Unbatched
               (map (fun kernel => map (correlate_row kernel pad) plane)
                    (filters self))).
Proof.
  intros Ho Hw Hne HW Hrect pad.
  destruct (DeltaProps.create_filters_spec order w Ho Hw)
    as (fs & Hfs & Hlen & Hall & Hfirst).
  fold pad in Hall, Hfirst.
  assert (Hk : List.length (nth 0 fs []) = (2 * pad + 1)%nat).
  { rewrite Hfirst, !length_app, !repeat_length. cbn. lia. }
  assert (Hrow0 : List.length (nth 0 plane []) = W).
  { destruct plane as [ | r plane]; [ contradiction | ].
    now inversion Hrect. }
  unfold init. rewrite Hfs. cbn [bind]. rewrite Hk.
  replace ((2 * pad + 1 - 1) / 2)%nat with pad
    by (rewrite Nat.add_sub, Nat.mul_comm, Nat.div_mul; lia).
  eexists. split; [ reflexivity | ]. cbn [filters].
  split; [ exact Hlen | ]. split; [ exact Hall | ].
  split; [ exact Hfirst | ].
  unfold forward. cbn [batch]. unfold conv2d_plane.
  cbn [filters padding fst snd].
  rewrite Hrow0, Hk.
  destruct (Nat.ltb_spec (List.length plane + 2 * 0) 1) as [Hlt | _].
  { destruct plane; [ contradiction | cbn in Hlt; lia ]. }
  destruct (Nat.ltb_spec (W + 2 * pad) (2 * pad + 1)) as [Hlt | _]; [ lia | ].
  cbn [orb repeat app bind]. now rewrite app_nil_r.
Qed.

(** X23.  Delta followed by the default Postprocess turns an (H x W)
    feature plane (behind a leading axis of size one) into a matrix of W
    rows and [(order + 1) * H] columns, the width [create_transform]
    reports as [feat_dim * (delta_order + 1)]; its first H columns are the
    static features: entry [(t, f)] is entry [(f, t)] of the plane. *)
Theorem delta_then_postprocess (order w : Z) (plane : list (list R))
  (H W : nat) :
  (0 <= order)%Z -> (1 <= w)%Z ->
  List.length plane = H -> (1 <= H)%nat -> (1 <= W)%nat ->
  Forall (fun row => List.length row = W) plane ->
  exists self out y,
    init order w false = Ok self
    /\ forward self [plane] = Ok (Unbatched out)
    /\ Post.forward {| Post.detach := true; Post.batch := false |}
                    (Post.Rank3 out) = Ok (Post.Rank2 y)
    /\ List.length y = W
    /\ Forall (fun row => List.length row = ((Z.to_nat order + 1) * H)%nat) y
    /\ forall t f : nat,
         (t < W)%nat -> (f < H)%nat ->
         nth f (nth t y []) 0 = nth t (nth f plane []) 0.
Proof.
  intros Ho Hw HH H1 HW Hrect.
  assert (Hne : plane <> [])
    by (destruct plane; [ cbn in HH; lia | discriminate ]).
  destruct (delta_bank_run order w plane W Ho Hw Hne HW Hrect)
    as (self & Hinit & Hlen & Hall & Hfirst & Hrun).
  set (pad := (Z.to_nat w * Z.to_nat order)%nat) in *.
  set (out := map (fun kernel => map (correlate_row kernel pad) plane)
                  (filters self)) in *.
  assert (Hshape :
            Forall (fun ch => List.length ch = H
                              /\ Forall (fun row => List.length row = W) ch)
                   out).
  { subst out. apply Forall_map. eapply Forall_impl; [ | exact Hall ].
    intros kernel Hkernel. cbn beta.
    split; [ now rewrite length_map | ].
    apply Forall_map. eapply Forall_impl; [ | exact Hrect ].
    intros row Hrow. cbn beta in *.
    rewrite (DeltaProps.correlate_row_length kernel pad row Hkernel) by lia.
    exact Hrow. }
  destruct (PostProps.flatten_spec out (Z.to_nat order + 1) H W)
    as (Hpost & Hylen & Hyrows & Hentry); try assumption; try lia.
  { subst out. now rewrite length_map. }
  exists self, out. eexists.
  split; [ exact Hinit | ]. split; [ exact Hrun | ].
  split; [ exact Hpost | ]. split; [ exact Hylen | ].
  split; [ exact Hyrows | ].
  intros t f Ht Hf.
  specialize (Hentry t 0%nat f Ht ltac:(lia) Hf).
  cbn [Nat.mul Nat.add] in Hentry. rewrite Hentry.
  assert (Hstatic : nth 0 out [] = plane).
  { subst out. destruct (filters self) as [ | f0 fs];
      [ cbn in Hlen; lia | ].
    cbn [map nth] in *. rewrite Hfirst.
    transitivity (map (fun row : list R => row) plane); [ | apply map_id ].
    apply map_ext_in. intros row Hin.
    apply DeltaProps.correlate_identity.
    rewrite Forall_forall in Hrect. rewrite (Hrect row Hin). exact HW. }
  now rewrite Hstatic.
Qed.

Lemma delta_then_postprocess_witness :
  exists self out y,
    init 1 2 false = Ok self
    /\ forward self [[[1; 2; 4]]] = Ok (Unbatched out)
    /\ Post.forward {| Post.detach := true; Post.batch := false |}
                    (Post.Rank3 out) = Ok (Post.Rank2 y)
    /\ List.length y = 3%nat
    /\ Forall (fun row => List.length row = ((Z.to_nat 1 + 1) * 1)%nat) y.
Proof.
  destruct (delta_then_postprocess 1 2 [[1; 2; 4]] 1 3)
    as (self & out & y & Hinit & Hrun & Hpost & Hlen & Hrows & _);
    try lia; try reflexivity.
  - repeat constructor.
  - exists self, out, y. repeat split; assumption.
Defined.

End PipelineShape.

